(** * Freescape [Area]: a shallow embedding of engines/freescape/area.cpp

    The development follows the structure of the C++ translation unit:
    single-precision arithmetic ([F32]), vectors and boxes ([Geometry]),
    the swept-box primitive ([Sweep]), the motion resolver
    ([Resolver]), the ray and sight queries ([Query]), the object
    store with its persistence format ([Store]) and the overlap query,
    drawing, reset, structure and teardown ([Lifecycle]). *)

From Stdlib Require Import ZArith NArith List Bool Lia Strings.Byte.
From Stdlib Require Import Sorting.Permutation Sorting.Sorted Floats.SpecFloat.
Import ListNotations.

Local Open Scope Z_scope.

(** ** Single-precision floats

    A C++ [float] is an IEEE 754 binary32 number: precision 24 and
    maximal exponent 128 in the standard library's executable
    specification of floating-point arithmetic. Arithmetic rounds to
    nearest, ties to even; a NaN carries no payload. *)
Module F32.

Definition prec : Z := 24.
Definition emax : Z := 128.

Definition float : Type := spec_float.

Definition add : float -> float -> float := SFadd prec emax.
Definition sub : float -> float -> float := SFsub prec emax.
Definition mul : float -> float -> float := SFmul prec emax.
Definition div : float -> float -> float := SFdiv prec emax.
Definition sqrt : float -> float := SFsqrt prec emax.

(** The C++ relational operators; every comparison with a NaN is false. *)
Definition eqb : float -> float -> bool := SFeqb.
Definition ltb : float -> float -> bool := SFltb.
Definition leb : float -> float -> bool := SFleb.
Definition gtb (x y : float) : bool := ltb y x.
Definition geb (x y : float) : bool := leb y x.

(** Conversion of an integer literal or an [int] value. *)
Definition of_Z (n : Z) : float := binary_normalize prec emax n 0 false.

Definition zero : float := S754_zero false.
Definition one : float := of_Z 1.
Definition infinity : float := S754_infinity false.

Definition valid (x : float) : bool := valid_binary prec emax x.

Definition is_nan (x : float) : bool :=
  match x with S754_nan => true | _ => false end.

Definition is_finite (x : float) : bool :=
  match x with S754_zero _ | S754_finite _ _ _ => true | _ => false end.

(** The order of the comparisons, read off a key: the class of the
    number (infinities, negative, zero, positive), then the exponent,
    then the mantissa. A NaN has no key. *)
Definition rank (x : float) : option (Z * Z * Z) :=
  match x with
  | S754_nan => None
  | S754_infinity true => Some (-2, 0, 0)
  | S754_infinity false => Some (2, 0, 0)
  | S754_zero _ => Some (0, 0, 0)
  | S754_finite true m e => Some (-1, - e, Zneg m)
  | S754_finite false m e => Some (1, e, Zpos m)
  end.

Definition lex (c1 c2 : comparison) : comparison :=
  match c1 with Eq => c2 | _ => c1 end.

Definition cmp3 (a b : Z * Z * Z) : comparison :=
  let '(a1, a2, a3) := a in
  let '(b1, b2, b3) := b in
  lex (a1 ?= b1) (lex (a2 ?= b2) (a3 ?= b3)).

Definition le3 (a b : Z * Z * Z) : Prop :=
  let '(a1, a2, a3) := a in
  let '(b1, b2, b3) := b in
  a1 < b1 \/ (a1 = b1 /\ (a2 < b2 \/ (a2 = b2 /\ a3 <= b3))).

Definition lt3 (a b : Z * Z * Z) : Prop :=
  let '(a1, a2, a3) := a in
  let '(b1, b2, b3) := b in
  a1 < b1 \/ (a1 = b1 /\ (a2 < b2 \/ (a2 = b2 /\ a3 < b3))).

(** The 32-bit pattern of a float, as [writeFloatLE] and [readFloatLE]
    move it: sign bit, 8 bits of biased exponent, 23 bits of fraction.
    A NaN is written as the quiet NaN [0x7FC00000]. *)
Definition sign_bit (s : bool) : Z := if s then 2147483648 else 0.

Definition to_bits (x : float) : Z :=
  match x with
  | S754_zero s => sign_bit s
  | S754_infinity s => sign_bit s + 2139095040
  | S754_nan => 2143289344
  | S754_finite s m e =>
      if 8388608 <=? Zpos m
      then sign_bit s + (e + 150) * 8388608 + (Zpos m - 8388608)
      else sign_bit s + Zpos m
  end.

Definition of_bits (b : Z) : float :=
  let s := 2147483648 <=? b in
  let E := (b / 8388608) mod 256 in
  let frac := b mod 8388608 in
  if E =? 0 then
    if frac =? 0 then S754_zero s else S754_finite s (Z.to_pos frac) (-149)
  else if E =? 255 then
    if frac =? 0 then S754_infinity s else S754_nan
  else S754_finite s (Z.to_pos (frac + 8388608)) (E - 150).

End F32.

Abbreviation float := F32.float.

Declare Scope f32_scope.
Delimit Scope f32_scope with f32.
Infix "+" := F32.add : f32_scope.
Infix "-" := F32.sub : f32_scope.
Infix "*" := F32.mul : f32_scope.
Infix "/" := F32.div : f32_scope.
Infix "==" := F32.eqb (at level 70, no associativity) : f32_scope.
Infix "<?" := F32.ltb : f32_scope.
Infix "<=?" := F32.leb : f32_scope.
Infix ">?" := F32.gtb : f32_scope.
Infix ">=?" := F32.geb : f32_scope.

(** ** Vectors and axis-aligned boxes

    Modelled from the spec: [Math::Vector3d] and [Math::AABB] are
    declared outside the translation unit (math/vector3d.h,
    math/aabb.h); a vec3 is embedded as a record of three floats with
    componentwise sum, difference and scaling, a box as the record
    area.cpp reads through [getMin()], [getMax()], [getSize()] and
    [isValid()]. *)
Module Geometry.

Local Open Scope f32_scope.

Record Vector3d : Type := vec { vx : float; vy : float; vz : float }.

(** [Math::Vector3d v;] the default constructor: area.cpp names such a
    value [zero] in [sweepAABB]. *)
Definition vzero : Vector3d := vec F32.zero F32.zero F32.zero.

(** [Math::Vector3d(a, b, c)] with integer literals. *)
Definition vecZ (a b c : Z) : Vector3d :=
  vec (F32.of_Z a) (F32.of_Z b) (F32.of_Z c).

Definition vadd (u v : Vector3d) : Vector3d :=
  vec (vx u + vx v) (vy u + vy v) (vz u + vz v).

Definition vsub (u v : Vector3d) : Vector3d :=
  vec (vx u - vx v) (vy u - vy v) (vz u - vz v).

(** [k * v] for a scalar [k]. *)
Definition smul (k : float) (v : Vector3d) : Vector3d :=
  vec (k * vx v) (k * vy v) (k * vz v).

(** Modelled from the spec: the vector header is not in the excerpt;
    [normal . motion] is the dot product, accumulated component by
    component from zero as the generic vector template does. *)
Definition dotProduct (u v : Vector3d) : float :=
  F32.zero + vx u * vx v + vy u * vy v + vz u * vz v.

(** Modelled from the spec: the extent-vector length of [getSize()]. *)
Definition vlength (v : Vector3d) : float := F32.sqrt (dotProduct v v).

(** [m.x() = e] and its siblings: assignment to one component. *)
Definition setX (v : Vector3d) (e : float) : Vector3d := vec e (vy v) (vz v).
Definition setY (v : Vector3d) (e : float) : Vector3d := vec (vx v) e (vz v).
Definition setZ (v : Vector3d) (e : float) : Vector3d := vec (vx v) (vy v) e.

Definition vfinite (v : Vector3d) : bool :=
  F32.is_finite (vx v) && F32.is_finite (vy v) && F32.is_finite (vz v).

(** Modelled from the spec: a box is its per-axis minimum and maximum
    extents and a validity mark; its size is the difference of the two. *)
Record AABB : Type := mkAABB { getMin : Vector3d; getMax : Vector3d; isValid : bool }.

Definition getSize (b : AABB) : Vector3d := vsub (getMax b) (getMin b).

End Geometry.
Export Geometry.

(** ** The swept-box primitive: [lineToPlane], [between], [sweepAABB] *)
Module Sweep.

Local Open Scope f32_scope.

Definition lineToPlane (p u v n : Vector3d) : float :=
  let NdotU := dotProduct n u in
  if NdotU == F32.zero then F32.infinity
  else dotProduct n (vsub v p) / NdotU.

Definition between (x a b : float) : bool := (x >=? a) && (x <=? b).

(** [sweepAABB a b direction normal]: the C++ function returns the
    fraction and writes the touched face's normal through its last
    (reference) parameter; the embedding returns both, [normal] being
    the value the caller's variable held before the call. *)
Definition sweepAABB (a b : AABB) (direction normal : Vector3d) : float * Vector3d :=
  let m := vsub (getMin b) (getMax a) in
  let mh := vadd (getSize a) (getSize b) in
  let h := F32.one in
  let zero := vzero in
  (* X min *)
  let s := lineToPlane zero direction m (vecZ (-1) 0 0) in
  let '(h, normal) :=
    if (s >=? F32.zero) && (vx direction >? F32.zero) && (s <? h)
       && between (s * vy direction) (vy m) (vy m + vy mh)
       && between (s * vz direction) (vz m) (vz m + vz mh)
    then (s, vecZ (-1) 0 0) else (h, normal) in
  (* X max *)
  let m := setX m (vx m + vx mh) in
  let s := lineToPlane zero direction m (vecZ 1 0 0) in
  let '(h, normal) :=
    if (s >=? F32.zero) && (vx direction <? F32.zero) && (s <? h)
       && between (s * vy direction) (vy m) (vy m + vy mh)
       && between (s * vz direction) (vz m) (vz m + vz mh)
    then (s, vecZ 1 0 0) else (h, normal) in
  let m := setX m (vx m - vx mh) in
  (* Y min *)
  let s := lineToPlane zero direction m (vecZ 0 (-1) 0) in
  let '(h, normal) :=
    if (s >=? F32.zero) && (vy direction >? F32.zero) && (s <? h)
       && between (s * vx direction) (vx m) (vx m + vx mh)
       && between (s * vz direction) (vz m) (vz m + vz mh)
    then (s, vecZ 0 (-1) 0) else (h, normal) in
  (* Y max *)
  let m := setY m (vy m + vy mh) in
  let s := lineToPlane zero direction m (vecZ 0 1 0) in
  let '(h, normal) :=
    if (s >=? F32.zero) && (vy direction <? F32.zero) && (s <? h)
       && between (s * vx direction) (vx m) (vx m + vx mh)
       && between (s * vz direction) (vz m) (vz m + vz mh)
    then (s, vecZ 0 1 0) else (h, normal) in
  let m := setY m (vy m - vy mh) in
  (* Z min *)
  let s := lineToPlane zero direction m (vecZ 0 0 (-1)) in
  let '(h, normal) :=
    if (s >=? F32.zero) && (vz direction >? F32.zero) && (s <? h)
       && between (s * vx direction) (vx m) (vx m + vx mh)
       && between (s * vy direction) (vy m) (vy m + vy mh)
    then (s, vecZ 0 0 (-1)) else (h, normal) in
  (* Z max *)
  let m := setZ m (vz m + vz mh) in
  let s := lineToPlane zero direction m (vecZ 0 0 1) in
  let '(h, normal) :=
    if (s >=? F32.zero) && (vz direction <? F32.zero) && (s <? h)
       && between (s * vx direction) (vx m) (vx m + vx mh)
       && between (s * vy direction) (vy m) (vy m + vy mh)
    then (s, vecZ 0 0 1) else (h, normal) in
  (h, normal).

(** The six candidate face planes of one call, in the order the code
    tests them: the intersection fraction [face_s], the sign test on
    the motion component ([face_sign]), the two [between] tests
    ([face_in1], [face_in2]), the face normal and the axis tested. *)
Inductive Axis : Type := AxisX | AxisY | AxisZ.

Definition component (ax : Axis) (v : Vector3d) : float :=
  match ax with AxisX => vx v | AxisY => vy v | AxisZ => vz v end.

Record Face : Type := mkFace {
  face_s : float;
  face_sign : bool;
  face_in1 : bool;
  face_in2 : bool;
  face_normal : Vector3d;
  face_axis : Axis;
  face_isMin : bool
}.

Definition face (direction mh m n : Vector3d) (ax : Axis) (isMin : bool)
    (c1 c2 : Axis) : Face :=
  let s := lineToPlane vzero direction m n in
  mkFace s
    (if isMin then component ax direction >? F32.zero
     else component ax direction <? F32.zero)
    (between (s * component c1 direction) (component c1 m)
       (component c1 m + component c1 mh))
    (between (s * component c2 direction) (component c2 m)
       (component c2 m + component c2 mh))
    n ax isMin.

Definition faces (a b : AABB) (direction : Vector3d) : list Face :=
  let m0 := vsub (getMin b) (getMax a) in
  let mh := vadd (getSize a) (getSize b) in
  let m1 := setX m0 (vx m0 + vx mh) in
  let m2 := setX m1 (vx m1 - vx mh) in
  let m3 := setY m2 (vy m2 + vy mh) in
  let m4 := setY m3 (vy m3 - vy mh) in
  let m5 := setZ m4 (vz m4 + vz mh) in
  [ face direction mh m0 (vecZ (-1) 0 0) AxisX true AxisY AxisZ;
    face direction mh m1 (vecZ 1 0 0) AxisX false AxisY AxisZ;
    face direction mh m2 (vecZ 0 (-1) 0) AxisY true AxisX AxisZ;
    face direction mh m3 (vecZ 0 1 0) AxisY false AxisX AxisZ;
    face direction mh m4 (vecZ 0 0 (-1)) AxisZ true AxisX AxisY;
    face direction mh m5 (vecZ 0 0 1) AxisZ false AxisX AxisY ].

(** A face is a candidate when its fraction is non-negative, the motion
    has the matching sign and the hit point lies within the face. *)
Definition candidate (f : Face) : bool :=
  (face_s f >=? F32.zero) && face_sign f && face_in1 f && face_in2 f.

(** The test of one [if] of [sweepAABB] against the running minimum. *)
Definition fires (f : Face) (h : float) : bool :=
  (face_s f >=? F32.zero) && face_sign f && (face_s f <? h)
  && face_in1 f && face_in2 f.

Definition sweepStep (acc : float * Vector3d) (f : Face) : float * Vector3d :=
  if fires f (fst acc) then (face_s f, face_normal f) else acc.

End Sweep.

(** ** Objects

    The [Object] class hierarchy is declared outside area.cpp. The
    embedding keeps the data members area.cpp reads and writes in a
    record, and gathers the member functions whose bodies are not part
    of the translation unit in the interface [Env]. *)
Module Objects.

Inductive ObjectType : Type :=
  | kCubeType
  | kSensorType
  | kGroupType
  | kOtherType (tag : Z).

Definition ObjectType_eqb (a b : ObjectType) : bool :=
  match a, b with
  | kCubeType, kCubeType | kSensorType, kSensorType | kGroupType, kGroupType => true
  | kOtherType x, kOtherType y => Z.eqb x y
  | _, _ => false
  end.

(** Modelled from the spec: the [Object] class is declared outside
    area.cpp; an object is identified by a 16-bit id and carries a type
    tag, a flags bitmask, a 3D origin, a 3D size and a bounding box. *)
Record Object : Type := mkObject {
  _objectID : Z;            (* uint16 *)
  _flags : Z;               (* the flags bitmask *)
  _type : ObjectType;
  _origin : Vector3d;
  _size : Vector3d;
  _boundingBox : AABB
}.

(** Modelled from the spec: a ray is an origin and a direction. *)
Record Ray : Type := mkRay { rayOrigin : Vector3d; rayDirection : Vector3d }.

(** What area.cpp calls but does not define. *)
Class Env : Type := {
  (** flag predicates of [Object] *)
  isDestroyed : Object -> bool;
  isInvisible : Object -> bool;
  (** virtual member functions, decided by the dynamic class *)
  isDrawable : Object -> bool;
  isPlanar : Object -> bool;
  (** the box a geometric object derives from its type, origin and size *)
  computeBoundingBox : ObjectType -> Vector3d -> Vector3d -> AABB;
  (** [GeometricObject::collides] *)
  collides : Object -> AABB -> bool;
  (** [Math::Ray::intersectAABB] *)
  intersectAABB : Ray -> AABB -> bool;
  (** [Math::Vector3d::normalize] *)
  normalize : Vector3d -> Vector3d;
  (** [extern Math::AABB createPlayerAABB(position, playerHeight)] *)
  createPlayerAABB : Vector3d -> Z -> AABB;
  (** the place a key new to a [Common::HashMap] takes in its storage
      order, given the keys already stored *)
  hashSlot : Z -> list Z -> nat
}.

Definition getObjectID (o : Object) : Z := _objectID o.
Definition getObjectFlags (o : Object) : Z := _flags o.
Definition getType (o : Object) : ObjectType := _type o.
Definition getOrigin (o : Object) : Vector3d := _origin o.
Definition getObjSize (o : Object) : Vector3d := _size o.

(** Modelled from the spec: [setObjectFlags(uint32 flags)] is declared
    outside area.cpp; flags are mutable and restoring re-associates
    them by id, so the call stores the word it is given. *)
Definition setObjectFlags (o : Object) (flags : Z) : Object :=
  mkObject (_objectID o) flags (_type o) (_origin o) (_size o) (_boundingBox o).

(** Modelled from the spec: [setOrigin] is declared outside area.cpp;
    the origin is mutable, and the box of a geometric object follows
    it. *)
Definition setOrigin `{Env} (o : Object) (origin : Vector3d) : Object :=
  mkObject (_objectID o) (_flags o) (_type o) origin (_size o)
    (computeBoundingBox (_type o) origin (_size o)).

(** The [GeometricObject] constructor as [checkInSight] calls it. *)
Definition GeometricObject `{Env} (type : ObjectType) (objectID flags : Z)
    (origin size : Vector3d) : Object :=
  mkObject objectID flags type origin size (computeBoundingBox type origin size).

(** Modelled from the spec: [duplicate()] is declared outside
    area.cpp; it is a full value copy with fresh ownership. *)
Definition duplicate (o : Object) : Object := o.

End Objects.
Export Objects.

(** Outcome of a call that may stop at a failing [assert]. *)
Inductive Outcome (A : Type) : Type :=
  | Returned (a : A)
  | AssertionFailed.
Arguments Returned {A} a.
Arguments AssertionFailed {A}.

(** ** [Area::resolveCollisions] *)
Module Resolver.

Local Open Scope f32_scope.

Section WithEnv.
Context `{Env}.

(** [float epsilon = 1.5] *)
Definition epsilon : float := binary_normalize F32.prec F32.emax 3 (-1) false.

(** The [for] loop over [_drawableObjects] of one pass: the minimum
    fraction and its normal, starting from [distance = 1.0] and a
    default-constructed [normal]. *)
Definition sweepObjects (drawableObjects : list Object) (boundingBox : AABB)
    (direction : Vector3d) : float * Vector3d :=
  fold_left
    (fun (acc : float * Vector3d) (obj : Object) =>
       let '(distance, normal) := acc in
       if negb (isDestroyed obj) && negb (isInvisible obj) then
         let collidedNormal := vzero in
         let '(collidedDistance, collidedNormal) :=
           Sweep.sweepAABB boundingBox (_boundingBox obj) direction collidedNormal in
         if collidedDistance <? distance then (collidedDistance, collidedNormal)
         else (distance, normal)
       else (distance, normal))
    drawableObjects (F32.one, vzero).

(** The position one pass assigns:
    [lastPosition + distance * direction + epsilon * normal]. *)
Definition advance (drawableObjects : list Object) (boundingBox : AABB)
    (lastPosition position : Vector3d) : Vector3d :=
  let direction := vsub position lastPosition in
  let '(distance, normal) := sweepObjects drawableObjects boundingBox direction in
  vadd (vadd lastPosition (smul distance direction)) (smul epsilon normal).

(** Whether a pass goes on: the negation of [distance >= 1.0]. *)
Definition blocked (drawableObjects : list Object) (boundingBox : AABB)
    (lastPosition position : Vector3d) : bool :=
  let direction := vsub position lastPosition in
  negb (fst (sweepObjects drawableObjects boundingBox direction) >=? F32.one).

(** The [while (true)] loop. [fuel] bounds the passes the embedding
    follows, [None] meaning the bound was reached; the loop state is the
    counter [i] and [position], [lastPosition] and [boundingBox] being
    assigned once before the loop. *)
Fixpoint resolveLoop (fuel : nat) (drawableObjects : list Object)
    (boundingBox : AABB) (lastPosition : Vector3d) (i : Z) (position : Vector3d)
    : option (Outcome Vector3d) :=
  match fuel with
  | O => None
  | S fuel' =>
      let distance := F32.one in
      let normal := vzero in
      let direction := vsub position lastPosition in
      let '(distance, normal) := sweepObjects drawableObjects boundingBox direction in
      let position := vadd (vadd lastPosition (smul distance direction)) (smul epsilon normal) in
      if distance >=? F32.one then Some (Returned position)
      else
        let i := (i + 1)%Z in
        if (i <=? 5)%Z then
          resolveLoop fuel' drawableObjects boundingBox lastPosition i position
        else Some AssertionFailed
  end.

Definition resolveCollisions (fuel : nat) (drawableObjects : list Object)
    (lastPosition_ newPosition_ : Vector3d) (playerHeight : Z)
    : option (Outcome Vector3d) :=
  let position := newPosition_ in
  let lastPosition := lastPosition_ in
  let boundingBox := createPlayerAABB lastPosition playerHeight in
  resolveLoop fuel drawableObjects boundingBox lastPosition 0 position.

(** The position held after [k] passes. *)
Fixpoint positionAfter (k : nat) (drawableObjects : list Object)
    (boundingBox : AABB) (lastPosition newPosition : Vector3d) : Vector3d :=
  match k with
  | O => newPosition
  | S k' =>
      advance drawableObjects boundingBox lastPosition
        (positionAfter k' drawableObjects boundingBox lastPosition newPosition)
  end.

(** Whether pass number [k] (counted from 0) is blocked. *)
Definition blockedPass (k : nat) (drawableObjects : list Object)
    (boundingBox : AABB) (lastPosition newPosition : Vector3d) : bool :=
  blocked drawableObjects boundingBox lastPosition
    (positionAfter k drawableObjects boundingBox lastPosition newPosition).

(** What the loop yields when [n] passes are still allowed before the
    assertion on [i] fails. *)
Fixpoint passesOutcome (n : nat) (drawableObjects : list Object)
    (boundingBox : AABB) (lastPosition position : Vector3d) : Outcome Vector3d :=
  match n with
  | O => AssertionFailed
  | S n' =>
      if blocked drawableObjects boundingBox lastPosition position
      then passesOutcome n' drawableObjects boundingBox lastPosition
             (advance drawableObjects boundingBox lastPosition position)
      else Returned (advance drawableObjects boundingBox lastPosition position)
  end.

(** The loop as the specification words it: after a blocked pass the
    advanced position becomes the reference the next sweep starts from,
    and the target stays the position first asked for. *)
Fixpoint resolveLoop_asWorded (fuel : nat) (drawableObjects : list Object)
    (boundingBox : AABB) (lastPosition : Vector3d) (i : Z) (target : Vector3d)
    : option (Outcome Vector3d) :=
  match fuel with
  | O => None
  | S fuel' =>
      let direction := vsub target lastPosition in
      let '(distance, normal) := sweepObjects drawableObjects boundingBox direction in
      let position := vadd (vadd lastPosition (smul distance direction)) (smul epsilon normal) in
      if distance >=? F32.one then Some (Returned position)
      else
        let i := (i + 1)%Z in
        if (i <=? 5)%Z then
          resolveLoop_asWorded fuel' drawableObjects boundingBox position i target
        else Some AssertionFailed
  end.

Definition resolveCollisions_asWorded (fuel : nat) (drawableObjects : list Object)
    (lastPosition_ newPosition_ : Vector3d) (playerHeight : Z)
    : option (Outcome Vector3d) :=
  resolveLoop_asWorded fuel drawableObjects
    (createPlayerAABB lastPosition_ playerHeight) lastPosition_ 0 newPosition_.

End WithEnv.
End Resolver.

(** ** [Area::shootRay] and [Area::checkInSight]

    Both walk [_drawableObjects]; the functions take the objects the
    view points to, in view order. *)
Module Query.

Local Open Scope f32_scope.

Section WithEnv.
Context `{Env}.

(** [float size = 16.0 * 8192.0] *)
Definition maxSize : float := F32.of_Z 131072.

(** The conjunction of [shootRay]'s [if] that does not read [size]. *)
Definition qualifies (ray : Ray) (obj : Object) : bool :=
  negb (isDestroyed obj) && negb (isInvisible obj)
  && isValid (_boundingBox obj) && intersectAABB ray (_boundingBox obj).

Definition shootStep (ray : Ray) (acc : float * option Object) (obj : Object)
    : float * option Object :=
  let '(size, collided) := acc in
  let objSize := vlength (getObjSize obj) in
  if negb (isDestroyed obj) && negb (isInvisible obj)
     && isValid (_boundingBox obj) && intersectAABB ray (_boundingBox obj)
     && (size >=? objSize)
  then (objSize, Some obj) else (size, collided).

Definition shootRay (drawableObjects : list Object) (ray : Ray) : option Object :=
  let size := maxSize in
  let collided := None in
  snd (fold_left (shootStep ray) drawableObjects (size, collided)).

(** [obj->getSize().length()] *)
Definition objSize (obj : Object) : float := vlength (getObjSize obj).

(** A candidate within the cutoff [shootRay] starts from. *)
Definition eligible (ray : Ray) (obj : Object) : bool :=
  qualifies ray obj && (objSize obj <=? maxSize).

(** The inner [for] of [checkInSight]: [true] when the walk reaches
    [return false]. *)
Fixpoint sightBlocked (point : Object) (drawableObjects : list Object) : bool :=
  match drawableObjects with
  | [] => false
  | obj :: rest =>
      if negb (ObjectType_eqb (getType obj) kSensorType)
         && negb (isDestroyed obj) && negb (isInvisible obj)
         && isValid (_boundingBox obj) && collides point (_boundingBox obj)
      then true
      else sightBlocked point rest
  end.

(** The sample point of one multiplier:
    [ray.getOrigin() + distanceMultiplier * (maxDistance / 10) * direction]. *)
Definition samplePoint (ray : Ray) (direction : Vector3d) (maxDistance : float)
    (distanceMultiplier : Z) : Vector3d :=
  vadd (rayOrigin ray)
    (smul (F32.of_Z distanceMultiplier * (maxDistance / F32.of_Z 10)) direction).

(** The outer [for (distanceMultiplier = 2; distanceMultiplier <= 10;
    distanceMultiplier++)]; [n] counts the iterations left. *)
Fixpoint sightLoop (n : nat) (drawableObjects : list Object) (ray : Ray)
    (direction : Vector3d) (maxDistance : float) (point : Object)
    (distanceMultiplier : Z) : bool :=
  match n with
  | O => true
  | S n' =>
      if (distanceMultiplier <=? 10)%Z then
        let origin := samplePoint ray direction maxDistance distanceMultiplier in
        let point := setOrigin point origin in
        if sightBlocked point drawableObjects then false
        else sightLoop n' drawableObjects ray direction maxDistance point
               (distanceMultiplier + 1)%Z
      else true
  end.

Definition probeSize (maxDistance : float) : Vector3d :=
  vec (maxDistance / F32.of_Z 30) (maxDistance / F32.of_Z 30)
      (maxDistance / F32.of_Z 30).

Definition checkInSight (drawableObjects : list Object) (ray : Ray)
    (maxDistance : float) : bool :=
  let direction := normalize (rayDirection ray) in
  let point := GeometricObject kCubeType 0 0 (vecZ 0 0 0) (probeSize maxDistance) in
  sightLoop 9 drawableObjects ray direction maxDistance point 2.

(** The cube [checkInSight] tests at one multiplier. *)
Definition probeAt (ray : Ray) (maxDistance : float) (distanceMultiplier : Z)
    : Object :=
  let origin :=
    samplePoint ray (normalize (rayDirection ray)) maxDistance distanceMultiplier in
  mkObject 0 0 kCubeType origin (probeSize maxDistance)
    (computeBoundingBox kCubeType origin (probeSize maxDistance)).

(** The multipliers of the nine sample points. *)
Definition multipliers : list Z := [2; 3; 4; 5; 6; 7; 8; 9; 10]%Z.

(** An object that stops the probe. *)
Definition obstructs (point obj : Object) : bool :=
  negb (ObjectType_eqb (getType obj) kSensorType)
  && negb (isDestroyed obj) && negb (isInvisible obj)
  && isValid (_boundingBox obj) && collides point (_boundingBox obj).

End WithEnv.
End Query.

(** ** The object store and the persistence format *)
Module Store.

(** *** Fixed-width integers *)
Definition to_uint16 (z : Z) : Z := z mod 65536.
Definition to_uint32 (z : Z) : Z := z mod 4294967296.
Definition to_int16 (z : Z) : Z := (z + 32768) mod 65536 - 32768.
Definition to_int32 (z : Z) : Z := (z + 2147483648) mod 4294967296 - 2147483648.

(** *** Streams: [writeUint32LE], [readUint32LE], [writeFloatLE], [readFloatLE]

    Modelled from the spec: the stream classes are declared outside
    area.cpp; the format is a little-endian sequence of uint32 and
    float32 values, four bytes each. *)
Definition byte_of_Z (z : Z) : byte :=
  match Byte.of_N (Z.to_N (z mod 256)) with
  | Some b => b
  | None => x00
  end.

Definition Z_of_byte (b : byte) : Z := Z.of_N (Byte.to_N b).

Definition writeUint32LE (value : Z) : list byte :=
  let v := to_uint32 value in
  [ byte_of_Z v; byte_of_Z (v / 256); byte_of_Z (v / 65536); byte_of_Z (v / 16777216) ].

(** [None]: the stream has fewer than four bytes left. *)
Definition readUint32LE (stream : list byte) : option (Z * list byte) :=
  match stream with
  | b0 :: b1 :: b2 :: b3 :: rest =>
      Some (Z_of_byte b0 + 256 * Z_of_byte b1 + 65536 * Z_of_byte b2
            + 16777216 * Z_of_byte b3, rest)
  | _ => None
  end.

Definition writeFloatLE (value : float) : list byte :=
  writeUint32LE (F32.to_bits value).

Definition readFloatLE (stream : list byte) : option (float * list byte) :=
  match readUint32LE stream with
  | Some (n, rest) => Some (F32.of_bits n, rest)
  | None => None
  end.

(** *** [Common::HashMap]

    Modelled from the spec: the table is declared outside area.cpp; it
    is an identifier-indexed mapping with unique keys that is iterated
    in its storage order. It is embedded as the list of its entries in
    that order, the order [for (auto &it : map)] visits them in. Where
    a new key lands in the order is decided by the table ([hashSlot]);
    assigning to a stored key keeps its place. *)
Module HashMap.

Definition t (V : Type) : Type := list (Z * V).

Definition empty {V} : t V := [].

Fixpoint lookup {V} (key : Z) (m : t V) : option V :=
  match m with
  | [] => None
  | (k, v) :: rest => if k =? key then Some v else lookup key rest
  end.

Definition contains {V} (key : Z) (m : t V) : bool :=
  match lookup key m with Some _ => true | None => false end.

Definition keys {V} (m : t V) : list Z := map fst m.

Fixpoint replace {V} (key : Z) (v : V) (m : t V) : t V :=
  match m with
  | [] => []
  | (k, w) :: rest =>
      if k =? key then (k, v) :: rest else (k, w) :: replace key v rest
  end.

(** [m[key] = v] *)
Definition assign `{Env} {V} (key : Z) (v : V) (m : t V) : t V :=
  if contains key m then replace key v m
  else
    let n := hashSlot key (keys m) in
    firstn n m ++ (key, v) :: skipn n m.

Definition erase {V} (key : Z) (m : t V) : t V :=
  filter (fun kv => negb (fst kv =? key)) m.

(** Modelled from the spec: [clear(bool shrinkArray = false)] is
    declared outside area.cpp; it clears all entries, as [resetArea]
    and [loadObjects] use it on the colour remaps, and its argument
    only chooses whether the storage array is given back as well. *)
Definition clear {V} (shrinkArray : bool) (m : t V) : t V := [].

Definition size {V} (m : t V) : Z := Z.of_nat (List.length m).

End HashMap.

(** *** Objects behind pointers

    The maps and the view hold [Object *]; the objects live in a heap
    that the pointers index. *)
Definition ptr : Type := nat.
Definition Heap : Type := list Object.

Definition deref (h : Heap) (p : ptr) : option Object := nth_error h p.

(** [new]: the object is placed at a fresh address. *)
Definition alloc (h : Heap) (o : Object) : Heap * ptr := (h ++ [o], List.length h).

(** A store through a pointer. *)
Fixpoint store (h : Heap) (p : ptr) (o : Object) : Heap :=
  match h, p with
  | [], _ => []
  | _ :: rest, O => o :: rest
  | x :: rest, S p' => x :: store rest p' o
  end.

Definition ObjectMap : Type := HashMap.t ptr.

(** The members of [Area] that area.cpp reads after construction;
    the colour attributes the constructor sets to 255 play no part in
    the functions embedded here. *)
Record Area : Type := mkArea {
  _areaID : Z;
  _areaFlags : Z;
  _scale : Z;
  _objectsByID : ObjectMap;
  _entrancesByID : ObjectMap;
  _drawableObjects : list ptr;
  _addedObjects : ObjectMap;
  _colorRemaps : HashMap.t Z
}.

Definition set_objects (a : Area) (objectsByID : ObjectMap)
    (drawableObjects : list ptr) (addedObjects : ObjectMap) : Area :=
  mkArea (_areaID a) (_areaFlags a) (_scale a) objectsByID (_entrancesByID a)
    drawableObjects addedObjects (_colorRemaps a).

Definition set_colorRemaps (a : Area) (colorRemaps : HashMap.t Z) : Area :=
  mkArea (_areaID a) (_areaFlags a) (_scale a) (_objectsByID a) (_entrancesByID a)
    (_drawableObjects a) (_addedObjects a) colorRemaps.

(** The two calls that change the objects map at run time. *)
Inductive Call : Type :=
  | CallAdd (obj : ptr)
  | CallRemove (id : Z).

(** Outcome of reading a stream back. *)
Inductive Loaded (A : Type) : Type :=
  | Done (a : A)
  | Failed            (* an [assert] did not hold *)
  | Truncated.        (* the stream ended inside a read *)
Arguments Done {A} a.
Arguments Failed {A}.
Arguments Truncated {A}.

Definition bind {A B} (x : Loaded A) (k : A -> Loaded B) : Loaded B :=
  match x with
  | Done a => k a
  | Failed => Failed
  | Truncated => Truncated
  end.

Definition read32 (stream : list byte) : Loaded (Z * list byte) :=
  match readUint32LE stream with Some r => Done r | None => Truncated end.

Definition readF (stream : list byte) : Loaded (float * list byte) :=
  match readFloatLE stream with Some r => Done r | None => Truncated end.

Notation "' p <- x ;; k" := (bind x (fun p => k))
  (at level 61, p pattern, x at next level, right associativity).


Section WithEnv.
Context `{Env}.

Definition objectWithIDFromMap (map : ObjectMap) (objectID : Z) : option ptr :=
  if negb (HashMap.contains objectID map) then None
  else HashMap.lookup objectID map.

Definition objectWithID (a : Area) (objectID : Z) : option ptr :=
  objectWithIDFromMap (_objectsByID a) objectID.

Definition entranceWithID (a : Area) (objectID : Z) : option ptr :=
  objectWithIDFromMap (_entrancesByID a) objectID.

(** The comparison the constructor sorts with: planar objects last,
    higher ids first within a class. *)
Definition compareObjects (object1 object2 : Object) : bool :=
  if negb (isPlanar object1) && isPlanar object2 then true
  else if isPlanar object1 && negb (isPlanar object2) then false
  else getObjectID object1 >? getObjectID object2.

Definition comparePtrs (h : Heap) (p q : ptr) : bool :=
  match deref h p, deref h q with
  | Some o1, Some o2 => compareObjects o1 o2
  | _, _ => false
  end.

(** [Common::sort]: any comparison sort yields the same list when the
    ids are distinct; insertion is the one written out. *)
Fixpoint insertSorted (h : Heap) (p : ptr) (l : list ptr) : list ptr :=
  match l with
  | [] => [p]
  | q :: rest =>
      if comparePtrs h p q then p :: q :: rest else q :: insertSorted h p rest
  end.

Definition sortObjects (h : Heap) (l : list ptr) : list ptr :=
  fold_right (insertSorted h) [] l.

Definition drawablePtr (h : Heap) (p : ptr) : bool :=
  match deref h p with Some o => isDrawable o | None => false end.

(** [Area::Area] *)
Definition newArea (h : Heap) (areaID_ areaFlags_ : Z)
    (objectsByID_ entrancesByID_ : ObjectMap) : Area :=
  let drawableObjects := filter (drawablePtr h) (map snd objectsByID_) in
  mkArea areaID_ areaFlags_ 0 objectsByID_ entrancesByID_
    (sortObjects h drawableObjects) HashMap.empty HashMap.empty.

(** The objects the view points to, in view order. *)
Definition view (h : Heap) (a : Area) : list Object :=
  flat_map (fun p => match deref h p with Some o => [o] | None => [] end)
    (_drawableObjects a).

Definition remapColor (a : Area) (index color : Z) : Area :=
  set_colorRemaps a (HashMap.assign index color (_colorRemaps a)).

(** [_colorRemaps.clear(index)]: the [int] converts to the [bool]
    parameter of [clear]. *)
Definition unremapColor (a : Area) (index : Z) : Area :=
  set_colorRemaps a (HashMap.clear (negb (index =? 0)) (_colorRemaps a)).

(** [Area::addObject]; [obj] is the pointer passed in. *)
Definition addObject (h : Heap) (a : Area) (obj : ptr) : Outcome Area :=
  match deref h obj with
  | None => AssertionFailed                                  (* assert(obj) *)
  | Some o =>
      let id := getObjectID o in
      if HashMap.contains (to_uint16 id) (_objectsByID a) then AssertionFailed
      else
        let objectsByID := HashMap.assign (to_uint16 id) obj (_objectsByID a) in
        let drawableObjects :=
          if isDrawable o then obj :: _drawableObjects a else _drawableObjects a in
        let addedObjects := HashMap.assign (to_uint16 id) obj (_addedObjects a) in
        Returned (set_objects a objectsByID drawableObjects addedObjects)
  end.

(** The [for] loop of [removeObject]: the first entry whose id equals
    [id] goes. Both sides of [==] are promoted to [int]: the object's
    id keeps its unsigned value, [id] its signed one. *)
Fixpoint removeFirst (h : Heap) (id : Z) (l : list ptr) : list ptr :=
  match l with
  | [] => []
  | p :: rest =>
      match deref h p with
      | Some o => if getObjectID o =? id then rest else p :: removeFirst h id rest
      | None => p :: removeFirst h id rest
      end
  end.

(** [Area::removeObject(int16 id)] *)
Definition removeObject (h : Heap) (a : Area) (id : Z) : Outcome Area :=
  let id := to_int16 id in
  if negb (HashMap.contains (to_uint16 id) (_objectsByID a)) then AssertionFailed
  else
    let drawableObjects := removeFirst h id (_drawableObjects a) in
    Returned (set_objects a (HashMap.erase (to_uint16 id) (_objectsByID a))
                drawableObjects (HashMap.erase (to_uint16 id) (_addedObjects a))).

(** *** [Area::saveObjects] *)

(** The five writes of one turn of the first loop. *)
Definition encodeObject (key flags : Z) (origin : Vector3d) : list byte :=
  writeUint32LE key
  ++ writeUint32LE flags
  ++ writeFloatLE (vx origin)
  ++ writeFloatLE (vy origin)
  ++ writeFloatLE (vz origin).

Definition saveObject (h : Heap) (entry : Z * ptr) : list byte :=
  match deref h (snd entry) with
  | Some obj => encodeObject (fst entry) (getObjectFlags obj) (getOrigin obj)
  | None => []
  end.

Definition saveRemap (entry : Z * Z) : list byte :=
  writeUint32LE (fst entry) ++ writeUint32LE (snd entry).

Definition saveObjects (h : Heap) (a : Area) : list byte :=
  writeUint32LE (HashMap.size (_objectsByID a))
  ++ flat_map (saveObject h) (_objectsByID a)
  ++ writeUint32LE (HashMap.size (_colorRemaps a))
  ++ flat_map saveRemap (_colorRemaps a).

(** *** [Area::loadObjects] *)

(** One turn of the first [for] loop, after its five reads: the
    object is found or duplicated from [global], then written to. *)
Definition placeObject (global : Area) (key flags : Z) (x y z : float)
    (h : Heap) (a : Area) : Loaded (Heap * Area) :=
  '(obj, h, a) <-
     (if HashMap.contains key (_objectsByID a) then
        match HashMap.lookup key (_objectsByID a) with
        | Some obj => Done (obj, h, a)
        | None => Failed
        end
      else
        match objectWithID global key with
        | None => Failed                                     (* assert(obj) *)
        | Some g =>
            match deref h g with
            | None => Failed
            | Some o =>
                let '(h, obj) := alloc h (duplicate o) in
                match addObject h a obj with
                | Returned a => Done (obj, h, a)
                | AssertionFailed => Failed
                end
            end
        end) ;;
  match deref h obj with
  | None => Failed
  | Some o =>
      let o := setObjectFlags o flags in
      let o := setOrigin o (vec x y z) in
      Done (store h obj o, a)
  end.

(** One turn of the first [for] loop. *)
Definition loadObject (global : Area) (stream : list byte) (h : Heap) (a : Area)
    : Loaded (list byte * Heap * Area) :=
  '(key, stream) <- read32 stream ;;
  let key := to_uint16 key in
  '(flags, stream) <- read32 stream ;;
  '(x, stream) <- readF stream ;;
  '(y, stream) <- readF stream ;;
  '(z, stream) <- readF stream ;;
  '(h, a) <- placeObject global key flags x y z h a ;;
  Done (stream, h, a).

Fixpoint loadObjectsLoop (n : nat) (global : Area) (stream : list byte)
    (h : Heap) (a : Area) : Loaded (list byte * Heap * Area) :=
  match n with
  | O => Done (stream, h, a)
  | S n' =>
      '(stream, h, a) <- loadObject global stream h a ;;
      loadObjectsLoop n' global stream h a
  end.

Fixpoint loadRemapsLoop (n : nat) (stream : list byte) (a : Area)
    : Loaded (list byte * Area) :=
  match n with
  | O => Done (stream, a)
  | S n' =>
      '(src, stream) <- read32 stream ;;
      '(dst, stream) <- read32 stream ;;
      loadRemapsLoop n' stream (remapColor a (to_int32 src) (to_int32 dst))
  end.

Definition loadObjects (stream : list byte) (global : Area) (h : Heap) (a : Area)
    : Loaded (Heap * Area) :=
  '(objectsByIDSize, stream) <- read32 stream ;;
  let objectsByIDSize := to_int32 objectsByIDSize in
  '(stream, h, a) <-
     loadObjectsLoop (Z.to_nat objectsByIDSize) global stream h a ;;
  let a := set_colorRemaps a (HashMap.clear false (_colorRemaps a)) in
  '(colorRemapsSize, stream) <- read32 stream ;;
  let colorRemapsSize := to_int32 colorRemapsSize in
  '(_, a) <- loadRemapsLoop (Z.to_nat colorRemapsSize) stream a ;;
  Done (h, a).

(** How many entries of the view point to an object of the given id. *)
Definition viewCount (h : Heap) (a : Area) (id : Z) : nat :=
  List.length
    (filter (fun p => match deref h p with
                      | Some o => getObjectID o =? id
                      | None => false
                      end) (_drawableObjects a)).

(** Every object of the view has its id in the objects map. *)
Definition viewInMap (h : Heap) (a : Area) : Prop :=
  forall p, In p (_drawableObjects a) ->
    exists o, deref h p = Some o
              /\ HashMap.contains (getObjectID o) (_objectsByID a) = true.

(** Every drawable object of the objects map is in the view once. *)
Definition mapInView (h : Heap) (a : Area) : Prop :=
  forall k p o, HashMap.lookup k (_objectsByID a) = Some p ->
    deref h p = Some o -> isDrawable o = true ->
    count_occ Nat.eq_dec (_drawableObjects a) p = 1%nat.

(** Ids as [getObjectID] returns them. *)
Definition wfHeap (h : Heap) : Prop :=
  forall p o, deref h p = Some o -> 0 <= getObjectID o < 65536.

(** A run of [addObject] and [removeObject] calls, stopped by the first
    failing assertion. *)
Fixpoint runCalls (h : Heap) (a : Area) (calls : list Call) : Outcome Area :=
  match calls with
  | [] => Returned a
  | CallAdd obj :: rest =>
      match addObject h a obj with
      | Returned a' => runCalls h a' rest
      | AssertionFailed => AssertionFailed
      end
  | CallRemove id :: rest =>
      match removeObject h a id with
      | Returned a' => runCalls h a' rest
      | AssertionFailed => AssertionFailed
      end
  end.

(** The view and the objects map in step: a view entry is bound in the
    map under its own id, a bound object carries its key as id and is
    in the view when drawable, and no pointer is in the view twice. *)
Definition linked (h : Heap) (a : Area) : Prop :=
  (forall p, In p (_drawableObjects a) ->
     exists o, deref h p = Some o
               /\ HashMap.lookup (getObjectID o) (_objectsByID a) = Some p)
  /\ (forall k p, HashMap.lookup k (_objectsByID a) = Some p ->
        exists o, deref h p = Some o /\ getObjectID o = k
                  /\ 0 <= k < 65536
                  /\ (isDrawable o = true -> In p (_drawableObjects a)))
  /\ NoDup (_drawableObjects a).

(** The remaps a list of pairs leaves in a table when each is
    assigned in turn, as the second loop of [loadObjects] does. *)
Definition assignAll (es : HashMap.t Z) (m : HashMap.t Z) : HashMap.t Z :=
  fold_left (fun m e => HashMap.assign (fst e) (snd e) m) es m.

(** An objects map in order: distinct 16-bit keys, each bound to a
    live object that carries the key as its id. *)
Definition wfMap (h : Heap) (m : ObjectMap) : Prop :=
  NoDup (HashMap.keys m)
  /\ forall k p, In (k, p) m ->
       0 <= k < 65536 /\ exists o, deref h p = Some o /\ getObjectID o = k.

(** The flags fit the 32 bits they are written in and the origin is
    made of binary32 numbers. *)
Definition wfObject (o : Object) : Prop :=
  0 <= _flags o < 4294967296
  /\ F32.valid (vx (_origin o)) = true
  /\ F32.valid (vy (_origin o)) = true
  /\ F32.valid (vz (_origin o)) = true.

Definition isInt32 (z : Z) : Prop := -2147483648 <= z < 2147483648.

(** An area as a running engine holds it. *)
Definition wfArea (h : Heap) (a : Area) : Prop :=
  wfMap h (_objectsByID a)
  /\ (forall k p o, In (k, p) (_objectsByID a) -> deref h p = Some o -> wfObject o)
  /\ NoDup (HashMap.keys (_colorRemaps a))
  /\ (forall k v, In (k, v) (_colorRemaps a) -> isInt32 k /\ isInt32 v)
  /\ HashMap.size (_colorRemaps a) < 2147483648.

(** What a save keeps of an object: its flags and its origin. *)
Definition savedState (h : Heap) (a : Area) (id : Z) : option (Z * Vector3d) :=
  match HashMap.lookup id (_objectsByID a) with
  | Some p =>
      match deref h p with
      | Some o => Some (getObjectFlags o, getOrigin o)
      | None => None
      end
  | None => None
  end.

End WithEnv.
End Store.

(** ** A concrete environment

    One choice for the functions [Env] leaves open, used to run the
    embedding on concrete areas. *)
Module Sample.
Import Store.

Local Open Scope f32_scope.

Definition overlaps (a b : AABB) : bool :=
  (vx (getMax a) >? vx (getMin b)) && (vx (getMin a) <? vx (getMax b))
  && (vy (getMax a) >? vy (getMin b)) && (vy (getMin a) <? vy (getMax b))
  && (vz (getMax a) >? vz (getMin b)) && (vz (getMin a) <? vz (getMax b)).

Definition box (origin size : Vector3d) : AABB :=
  mkAABB origin (vadd origin size) true.

(** A ray test for rays that run along +x. *)
Definition hitsAlongX (ray : Ray) (b : AABB) : bool :=
  (vx (rayOrigin ray) <=? vx (getMax b))
  && Sweep.between (vy (rayOrigin ray)) (vy (getMin b)) (vy (getMax b))
  && Sweep.between (vz (rayOrigin ray)) (vz (getMin b)) (vz (getMax b)).

Definition unitVector (v : Vector3d) : Vector3d :=
  let l := vlength v in
  if l >? F32.zero then vec (vx v / l) (vy v / l) (vz v / l) else v.

Definition playerBox (position : Vector3d) (playerHeight : Z) : AABB :=
  mkAABB (vsub position (vecZ 1 playerHeight 1)) (vadd position (vecZ 1 1 1)) true.

#[export] Instance env : Env := {|
  isDestroyed := fun o => Z.testbit (_flags o) 5;
  isInvisible := fun o => Z.testbit (_flags o) 6;
  isDrawable := fun o => negb (ObjectType_eqb (_type o) (kOtherType 0));
  isPlanar := fun o =>
    (vx (_size o) == F32.zero) || (vy (_size o) == F32.zero)
    || (vz (_size o) == F32.zero);
  computeBoundingBox := fun _ origin size => box origin size;
  collides := fun o b =>
    isValid (_boundingBox o) && isValid b && overlaps (_boundingBox o) b;
  intersectAABB := hitsAlongX;
  normalize := unitVector;
  createPlayerAABB := playerBox;
  hashSlot := fun _ keys => List.length keys
|}.

(** A cube object with its box. *)
Definition cube (objectID flags : Z) (origin size : Vector3d) : Object :=
  GeometricObject kCubeType objectID flags origin size.

(** A wall across the x axis, one unit thick, its near face at x = 5. *)
Definition wall : Object := cube 1 0 (vecZ 5 (-10) (-10)) (vecZ 1 20 20).

(** 0.7 as a [float] literal. *)
Definition f0_7 : float := F32.of_bits 1060320051.

(** A cube whose extent vector is longer than 131072. *)
Definition hugeCube : Object :=
  cube 3 0 (vecZ 5 (-1) (-1)) (vecZ 131072 131072 131072).

(** Two different cubes that carry the id 40000, and an area built
    from the first. *)
Definition cubeA : Object := cube 40000 0 (vecZ 0 0 0) (vecZ 1 1 1).
Definition cubeB : Object := cube 40000 0 (vecZ 9 9 9) (vecZ 2 2 2).
Definition heapAB : list Object := [cubeA; cubeB].

(** The area built over [cubeA]. *)
Definition areaA : Area := newArea heapAB 1 0 [(40000, 0%nat)] [].

(** A session: level data with the object 1, to which the object 2
    was added at run time and a colour remapped. *)
Definition heapSaved : list Object :=
  [cube 1 32 (vecZ 1 2 3) (vecZ 1 1 1); cube 2 0 (vecZ 4 5 6) (vecZ 1 1 1)].

Definition areaSaved : Area :=
  match addObject heapSaved (newArea heapSaved 1 0 [(1, 0%nat)] []) 1%nat with
  | Returned a => remapColor a 3 7
  | AssertionFailed => newArea heapSaved 1 0 [(1, 0%nat)] []
  end.

(** The same level built afresh, and a global area that has the
    object 2. *)
Definition heapFresh : list Object :=
  [cube 1 0 (vecZ 0 0 0) (vecZ 1 1 1); cube 2 0 (vecZ 0 0 0) (vecZ 1 1 1)].
Definition areaFresh : Area := newArea heapFresh 1 0 [(1, 0%nat)] [].
Definition areaGlobal : Area := newArea heapFresh 255 0 [(2, 1%nat)] [].

(** A session in which the level's only object was removed. *)
Definition areaEmptied : Area :=
  match removeObject heapFresh areaFresh 1 with
  | Returned a => a
  | AssertionFailed => areaFresh
  end.
Definition areaNoGlobal : Area := newArea heapFresh 255 0 [] [].

(** The sample environment over a table that stores a new key in
    front of the others. *)
Definition frontEnv : Env := {|
  isDestroyed := @isDestroyed env;
  isInvisible := @isInvisible env;
  isDrawable := @isDrawable env;
  isPlanar := @isPlanar env;
  computeBoundingBox := @computeBoundingBox env;
  collides := @collides env;
  intersectAABB := @intersectAABB env;
  normalize := @normalize env;
  createPlayerAABB := @createPlayerAABB env;
  hashSlot := fun _ _ => 0%nat
|}.

(** An area without objects in which two colours were remapped. *)
Definition areaTwoRemaps : Area :=
  @remapColor frontEnv (@remapColor frontEnv (newArea [] 1 0 [] []) 3 7) 19 8.

(** Two cubes of the same size on the x axis, and a ray towards them. *)
Definition nearCube : Object := cube 1 0 (vecZ 5 (-1) (-1)) (vecZ 2 2 2).
Definition farCube : Object := cube 2 0 (vecZ 10 (-1) (-1)) (vecZ 2 2 2).
Definition rayAlongX : Ray := mkRay (vecZ 0 0 0) (vecZ 1 0 0).

End Sample.

(** ** The rest of area.cpp: overlap query, drawing, reset, structure,
    teardown *)
Module Lifecycle.
Import Store.

Local Open Scope f32_scope.

(** What the renderer is asked to do, in order: [group->assemble(frame,
    index)] and [obj->draw(gfx)]. *)
Inductive RenderEvent : Type :=
  | Assemble (group : Object) (frame index : Z)
  | Draw (obj : Object).

(** Outcome of [draw]: the calls made, a failed [assert], or the
    remainder by a zero [frameSize] in [drawGroup]. *)
Inductive Drawn : Type :=
  | Rendered (events : list RenderEvent)
  | DrawAssertionFailed
  | DivisionByZero.

(** The calls [drawGroup] makes for the sub-objects from index [i] on
    when every one is assembled at [frame]. *)
Fixpoint groupEvents (group : Object) (frame i : Z) (objects : list Object)
    : list RenderEvent :=
  match objects with
  | [] => []
  | obj :: rest =>
      Assemble group frame i :: Draw obj :: groupEvents group frame (i + 1)%Z rest
  end.

Section WithEnv.
Context `{Env}.

(** The test [!obj->isDestroyed() && !obj->isInvisible()] that the
    walks over the view share. *)
Definition shown (obj : Object) : bool :=
  negb (isDestroyed obj) && negb (isInvisible obj).

(** [Area::checkCollisions]; [push_back] appends. *)
Definition checkCollisions (drawableObjects : list Object) (boundingBox : AABB)
    : list Object :=
  fold_left
    (fun (collided : list Object) (obj : Object) =>
       if negb (isDestroyed obj) && negb (isInvisible obj) then
         if collides obj boundingBox then collided ++ [obj] else collided
       else collided)
    drawableObjects [].

(** [Area::getSensors]: the walk is over the objects map, in storage
    order. *)
Definition getSensors (h : Heap) (a : Area) : list ptr :=
  fold_left
    (fun (sensors : list ptr) (it : Z * ptr) =>
       match deref h (snd it) with
       | Some obj =>
           if ObjectType_eqb (getType obj) kSensorType then sensors ++ [snd it]
           else sensors
       | None => sensors
       end)
    (_objectsByID a) [].

(** Every pointer a map binds points to an object. *)
Definition live (h : Heap) (m : ObjectMap) : Prop :=
  forall k p, HashMap.lookup k m = Some p -> exists o, deref h p = Some o.

(** The [delete]s of one loop of [Area::~Area]: an entry goes unless
    the id of its object is a key of [_addedObjects]. *)
Definition deletes (h : Heap) (addedObjects m : ObjectMap) : list ptr :=
  flat_map
    (fun e : Z * ptr =>
       match deref h (snd e) with
       | Some o =>
           if negb (HashMap.contains (to_uint16 (getObjectID o)) addedObjects)
           then [snd e] else []
       | None => []
       end) m.

(** [Area::~Area]: the pointers deleted, entrances first. *)
Definition destroyArea (h : Heap) (a : Area) : list ptr :=
  deletes h (_addedObjects a) (_entrancesByID a)
  ++ deletes h (_addedObjects a) (_objectsByID a).

Section Group.
(** [Group::_objects] and the size of [Group::_objectPositions], read
    from an object of group type; the class is declared outside
    area.cpp. *)
Variable groupObjects : Object -> list Object.
Variable groupFrames : Object -> Z.

(** The body of the loop of [drawGroup] for the indices from [i] on;
    [ticks], [groupSize] and [frameSize] are [uint32]. *)
Fixpoint drawGroupFrom (group : Object) (ticks frameSize i : Z)
    (objects : list Object) : Drawn :=
  match objects with
  | [] => Rendered []
  | obj :: rest =>
      if (frameSize =? 0)%Z then DivisionByZero
      else
        match drawGroupFrom group ticks frameSize (i + 1)%Z rest with
        | Rendered events =>
            Rendered (Assemble group ((ticks / 10) mod frameSize)%Z i
                      :: Draw obj :: events)
        | other => other
        end
  end.

(** [Area::drawGroup] *)
Definition drawGroup (group : Object) (ticks : Z) : Drawn :=
  let frameSize := to_uint32 (groupFrames group) in
  drawGroupFrom group (to_uint32 ticks) frameSize 0 (groupObjects group).

Fixpoint drawFrom (ticks : Z) (drawableObjects : list Object) : Drawn :=
  match drawableObjects with
  | [] => Rendered []
  | obj :: rest =>
      let here :=
        if negb (isDestroyed obj) && negb (isInvisible obj) then
          if negb (ObjectType_eqb (getType obj) kGroupType)
          then Rendered [Draw obj]
          else drawGroup obj ticks
        else Rendered [] in
      match here with
      | Rendered events =>
          match drawFrom ticks rest with
          | Rendered more => Rendered (events ++ more)
          | other => other
          end
      | other => other
      end
  end.

(** [Area::draw] *)
Definition draw (drawableObjects : list Object) (ticks : Z) : Drawn :=
  match drawableObjects with
  | [] => DrawAssertionFailed          (* assert(_drawableObjects.size() > 0) *)
  | _ => drawFrom ticks drawableObjects
  end.

End Group.

Section Flags.
(** The flag setters and the flag test of [Object] that [resetArea]
    calls; they are declared outside area.cpp. *)
Variables restore makeInvisible makeVisible : Object -> Object.
Variable isInitiallyInvisible : Object -> bool.

(** The body of both loops of [resetArea]. *)
Definition resetObject (obj : Object) : Object :=
  let obj := if isDestroyed obj then restore obj else obj in
  if isInitiallyInvisible obj then makeInvisible obj else makeVisible obj.

Definition resetMap (h : Heap) (m : ObjectMap) : Heap :=
  fold_left
    (fun (h : Heap) (e : Z * ptr) =>
       match deref h (snd e) with
       | Some obj => store h (snd e) (resetObject obj)
       | None => h
       end) m h.

(** [Area::resetArea] *)
Definition resetArea (h : Heap) (a : Area) : Heap * Area :=
  let a' := set_colorRemaps a (HashMap.clear false (_colorRemaps a)) in
  let h := resetMap h (_objectsByID a) in
  let h := resetMap h (_entrancesByID a) in
  (h, a').

End Flags.

Section Structure.
(** [Object::scale(int)] and [GlobalStructure::_structure]; both are
    declared outside area.cpp. *)
Variable scale : Object -> Z -> Object.
Variable structureOf : Object -> list Z.

(** [Area::addObjectFromArea(int16 id, Area *global)] *)
Definition addObjectFromArea (h : Heap) (a : Area) (id : Z) (global : Area)
    : Outcome (Heap * Area) :=
  let id := to_int16 id in
  match objectWithID global (to_uint16 id) with
  | None =>
      match entranceWithID global (to_uint16 id) with
      | None => AssertionFailed            (* assert(global->entranceWithID(id)) *)
      | Some g =>
          match deref h g with
          | None => AssertionFailed
          | Some o =>
              let '(h, obj) := alloc h (scale (duplicate o) (_scale a)) in
              Returned
                (h, mkArea (_areaID a) (_areaFlags a) (_scale a) (_objectsByID a)
                      (HashMap.assign (to_uint16 id) obj (_entrancesByID a))
                      (_drawableObjects a)
                      (HashMap.assign (to_uint16 id) obj (_addedObjects a))
                      (_colorRemaps a))
          end
      end
  | Some g =>
      match deref h g with
      | None => AssertionFailed
      | Some o =>
          let o' := scale (duplicate o) (_scale a) in
          let '(h, obj) := alloc h o' in
          Returned
            (h, set_objects a
                  (HashMap.assign (to_uint16 id) obj (_objectsByID a))
                  (if isDrawable o' then obj :: _drawableObjects a
                   else _drawableObjects a)
                  (HashMap.assign (to_uint16 id) obj (_addedObjects a)))
      end
  end.

(** [Area::addFloor]; the colours of the floor are not embedded. *)
Definition addFloor (h : Heap) (a : Area) : Outcome (Heap * Area) :=
  let id := 0%Z in
  if HashMap.contains id (_objectsByID a) then AssertionFailed
  else
    let '(h, obj) :=
      alloc h (GeometricObject kCubeType id 0 (vecZ (-4128) (-1) (-4128))
                 (vecZ (4128 * 4) 1 (4128 * 4))) in
    Returned
      (h, set_objects a (HashMap.assign id obj (_objectsByID a))
            (obj :: _drawableObjects a) (_addedObjects a)).

(** The loop of [addStructure] over the ids of the structure. *)
Fixpoint addStructureLoop (h : Heap) (a : Area) (global : Area) (ids : list Z)
    : Outcome (Heap * Area) :=
  match ids with
  | [] => Returned (h, a)
  | id :: rest =>
      let id := to_int16 id in
      if (id =? 0)%Z then addStructureLoop h a global rest
      else
        match addObjectFromArea h a id global with
        | Returned (h, a) => addStructureLoop h a global rest
        | AssertionFailed => AssertionFailed
        end
  end.

(** [Area::addStructure]; [None] is the null [global]. *)
Definition addStructure (h : Heap) (a : Area) (global : option Area)
    : Outcome (Heap * Area) :=
  match global with
  | None => addFloor h a
  | Some global =>
      if negb (HashMap.contains 255 (_entrancesByID a)) then addFloor h a
      else
        match HashMap.lookup 255 (_entrancesByID a) with
        | None => AssertionFailed
        | Some rs =>
            match deref h rs with
            | None => AssertionFailed
            | Some structure =>
                addStructureLoop h a global (structureOf structure)
            end
        end
  end.

End Structure.

End WithEnv.
End Lifecycle.

(** ** Sample data for the functions of [Lifecycle]

    One choice for what the sections of [Lifecycle] leave open, in the
    sample environment, and a few small areas to run the embedding
    on. *)
Module Fixture.
Import Store Sample Lifecycle.

(** Flag words: bit 5 marks a destroyed object and bit 6 an invisible
    one, as in [Sample.env]; bit 7 marks an initially invisible one. *)
Definition restore (o : Object) : Object :=
  setObjectFlags o (Z.clearbit (_flags o) 5).
Definition makeInvisible (o : Object) : Object :=
  setObjectFlags o (Z.setbit (_flags o) 6).
Definition makeVisible (o : Object) : Object :=
  setObjectFlags o (Z.clearbit (_flags o) 6).
Definition isInitiallyInvisible (o : Object) : bool := Z.testbit (_flags o) 7.

(** A scaling that multiplies the origin and the size. *)
Definition scale (o : Object) (factor : Z) : Object :=
  GeometricObject (_type o) (_objectID o) (_flags o)
    (smul (F32.of_Z factor) (_origin o)) (smul (F32.of_Z factor) (_size o)).

(** A structure that lists the id 2 between two empty slots. *)
Definition structureOf (o : Object) : list Z := [0; 2; 0].

(** A destroyed cube in the objects map and an initially invisible one
    in the entrances map. *)
Definition heapReset : Heap :=
  [cube 1 32 (vecZ 0 0 0) (vecZ 1 1 1); cube 2 128 (vecZ 4 0 0) (vecZ 1 1 1)].
Definition areaReset : Area := newArea heapReset 1 0 [(1, 0%nat)] [(2, 1%nat)].

(** The level of [heapSaved] before and after its second cube is added. *)
Definition areaLevel : Area := newArea heapSaved 1 0 [(1, 0%nat)] [].
Definition areaAdded : Area :=
  match addObject heapSaved areaLevel 1%nat with
  | Returned a => a
  | AssertionFailed => areaLevel
  end.

(** A run of calls on that level. *)
Definition callsRun : list Call := [CallAdd 1%nat; CallRemove 2; CallAdd 1%nat].
Definition areaRun : Area :=
  match runCalls heapSaved areaLevel callsRun with
  | Returned a => a
  | AssertionFailed => areaLevel
  end.

(** The object 2 of the global area copied into the fresh level. *)
Definition copied : Heap * Area :=
  match addObjectFromArea scale heapFresh areaFresh 2 areaGlobal with
  | Returned r => r
  | AssertionFailed => (heapFresh, areaFresh)
  end.

(** Two cubes with the id 1: one in a level, one in a global area. *)
Definition heapTwin : Heap :=
  [cube 1 0 (vecZ 0 0 0) (vecZ 1 1 1); cube 1 0 (vecZ 8 8 8) (vecZ 2 2 2)].
Definition areaTwin : Area := newArea heapTwin 1 0 [(1, 0%nat)] [].
Definition globalTwin : Area := newArea heapTwin 255 0 [(1, 1%nat)] [].

(** A level whose entrance 255 is a structure, and its global area. *)
Definition heapStructure : Heap :=
  heapFresh ++ [mkObject 255 0 (kOtherType 0) vzero vzero (box vzero vzero)].
Definition areaStructure : Area :=
  newArea heapStructure 1 0 [(1, 0%nat)] [(255, 2%nat)].
Definition globalStructure : Area := newArea heapStructure 255 0 [(2, 1%nat)] [].
Definition built : Heap * Area :=
  match addStructure scale structureOf heapStructure areaStructure
          (Some globalStructure) with
  | Returned r => r
  | AssertionFailed => (heapStructure, areaStructure)
  end.

(** A group of two cubes with four frames. *)
Definition groupObjects (o : Object) : list Object := [nearCube; farCube].
Definition groupFrames (o : Object) : Z := 4.
Definition group : Object :=
  mkObject 7 0 kGroupType vzero vzero (box vzero vzero).

(** The wall made invisible. *)
Definition hiddenWall : Object := setObjectFlags wall 64.

(** A flat object and two cubes, and the level built over them. *)
Definition heapSorted : Heap :=
  [cube 5 0 (vecZ 0 0 0) (vecZ 4 0 4); cube 3 0 (vecZ 0 0 0) (vecZ 1 1 1);
   cube 7 0 (vecZ 2 0 0) (vecZ 1 1 1)].
Definition areaSorted : Area :=
  newArea heapSorted 1 0 [(5, 0%nat); (3, 1%nat); (7, 2%nat)] [].

(** The fresh level with its floor. *)
Definition floored : Heap * Area :=
  match addFloor heapFresh areaFresh with
  | Returned r => r
  | AssertionFailed => (heapFresh, areaFresh)
  end.

(** The save of the sample session loaded into the fresh level. *)
Definition loadedSaved : Heap * Area :=
  match loadObjects (saveObjects heapSaved areaSaved) areaGlobal
          heapFresh areaFresh with
  | Done r => r
  | _ => (heapFresh, areaFresh)
  end.

End Fixture.

(* ================================================================= *)
(** * Properties *)

(** ** The order on floats *)
Module F32Facts.
Import F32.

Lemma SFcompare_rank x y :
  SFcompare x y =
  match rank x, rank y with
  | Some a, Some b => Some (cmp3 a b)
  | _, _ => None
  end.
Proof.
  destruct x as [[]|[]| |[] m1 e1], y as [[]|[]| |[] m2 e2]; try reflexivity;
    cbn [rank cmp3 SFcompare]; f_equal.
  - rewrite Z.compare_opp, (Z.compare_antisym e1 e2).
    change (Z.neg m1 ?= Z.neg m2) with (CompOpp (Pos.compare m1 m2)).
    change (Pos.compare_cont Eq m1 m2) with (Pos.compare m1 m2).
    destruct (e1 ?= e2); reflexivity.
  - change (Z.pos m1 ?= Z.pos m2) with (Pos.compare m1 m2).
    change (Pos.compare_cont Eq m1 m2) with (Pos.compare m1 m2).
    destruct (e1 ?= e2); reflexivity.
Qed.

Lemma cmp3_lt a b : cmp3 a b = Lt <-> lt3 a b.
Proof.
  destruct a as [[a1 a2] a3], b as [[b1 b2] b3]; cbn [cmp3 lt3].
  destruct (Z.compare_spec a1 b1), (Z.compare_spec a2 b2), (Z.compare_spec a3 b3);
    cbn [lex]; split; intros; try discriminate; try lia; try reflexivity.
Qed.

Lemma cmp3_le a b : cmp3 a b <> Gt <-> le3 a b.
Proof.
  destruct a as [[a1 a2] a3], b as [[b1 b2] b3]; cbn [cmp3 le3].
  destruct (Z.compare_spec a1 b1), (Z.compare_spec a2 b2), (Z.compare_spec a3 b3);
    cbn [lex]; split; intros; try discriminate; try lia; try congruence.
Qed.

Lemma ltb_rank x y :
  ltb x y = true <-> exists a b, rank x = Some a /\ rank y = Some b /\ lt3 a b.
Proof.
  unfold ltb, SFltb. rewrite SFcompare_rank.
  destruct (rank x) as [a|], (rank y) as [b|];
    try (split; [discriminate | intros (? & ? & ? & ? & ?); discriminate]).
  split.
  - intros E. exists a, b. repeat split. apply cmp3_lt.
    destruct (cmp3 a b); congruence.
  - intros (a' & b' & [= <-] & [= <-] & L). apply cmp3_lt in L. now rewrite L.
Qed.

Lemma leb_rank x y :
  leb x y = true <-> exists a b, rank x = Some a /\ rank y = Some b /\ le3 a b.
Proof.
  unfold leb, SFleb. rewrite SFcompare_rank.
  destruct (rank x) as [a|], (rank y) as [b|];
    try (split; [discriminate | intros (? & ? & ? & ? & ?); discriminate]).
  split.
  - intros E. exists a, b. repeat split. apply cmp3_le.
    destruct (cmp3 a b); congruence.
  - intros (a' & b' & [= <-] & [= <-] & L). apply cmp3_le in L.
    destruct (cmp3 a b); congruence.
Qed.

(** Turn the comparisons in the context into facts on keys. *)
Ltac to_ranks :=
  repeat match goal with
    | E : ltb _ _ = true |- _ =>
        apply ltb_rank in E; destruct E as (? & ? & ? & ? & E)
    | E : leb _ _ = true |- _ =>
        apply leb_rank in E; destruct E as (? & ? & ? & ? & E)
    end;
  repeat match goal with
    | E : rank ?x = Some _, E' : rank ?x = Some _ |- _ =>
        rewrite E in E'; injection E' as <-
    end.

Ltac split_keys :=
  repeat match goal with a : (Z * Z * Z)%type |- _ => destruct a as [[? ?] ?] end;
  cbn [lt3 le3] in *.

Lemma ltb_leb_trans x y z : ltb x y = true -> leb y z = true -> ltb x z = true.
Proof.
  intros L1 L2. to_ranks. apply ltb_rank. do 2 eexists; repeat split; eauto.
  split_keys; lia.
Qed.

Lemma leb_trans x y z : leb x y = true -> leb y z = true -> leb x z = true.
Proof.
  intros L1 L2. to_ranks. apply leb_rank. do 2 eexists; repeat split; eauto.
  split_keys; lia.
Qed.

Lemma ltb_leb x y : ltb x y = true -> leb x y = true.
Proof.
  intros L1. to_ranks. apply leb_rank. do 2 eexists; repeat split; eauto.
  split_keys; lia.
Qed.

Lemma leb_defined x y : leb x y = true -> leb x x = true /\ leb y y = true.
Proof.
  intros L1. to_ranks. split; apply leb_rank; do 2 eexists; repeat split; eauto;
    split_keys; lia.
Qed.

Lemma ltb_defined x y : ltb x y = true -> leb x x = true /\ leb y y = true.
Proof. intros L. apply leb_defined with (y := y), ltb_leb, L. Qed.

(** Two numbers that are not NaN compare one way or the other. *)
Lemma not_ltb_leb x y :
  leb x x = true -> leb y y = true -> ltb x y = false -> leb y x = true.
Proof.
  intros Dx Dy N. to_ranks. apply leb_rank. do 2 eexists; repeat split; eauto.
  match goal with
  | Ex : rank x = Some ?a, Ey : rank y = Some ?b |- _ =>
      assert (NL : ~ lt3 a b)
        by (intros L; rewrite (proj2 (ltb_rank x y)) in N;
            [discriminate | exists a, b; auto])
  end.
  split_keys; lia.
Qed.

Lemma not_leb_ltb x y :
  leb x x = true -> leb y y = true -> leb x y = false -> ltb y x = true.
Proof.
  intros Dx Dy N. to_ranks. apply ltb_rank. do 2 eexists; repeat split; eauto.
  match goal with
  | Ex : rank x = Some ?a, Ey : rank y = Some ?b |- _ =>
      assert (NL : ~ le3 a b)
        by (intros L; rewrite (proj2 (leb_rank x y)) in N;
            [discriminate | exists a, b; auto])
  end.
  split_keys; lia.
Qed.

Lemma ltb_irrefl_leb x y : ltb x y = true -> leb y x = false.
Proof.
  intros L. destruct (leb y x) eqn:E; [|reflexivity]. to_ranks.
  split_keys; lia.
Qed.

Lemma infinity_not_ltb h : ltb infinity h = false.
Proof. destruct h as [[]|[]| |[] m e]; reflexivity. Qed.

Lemma eqb_zero_not_ltb x :
  eqb x zero = true -> ltb x zero = false /\ ltb zero x = false.
Proof.
  destruct x as [[]|[]| |[] m e]; intros E; try discriminate E; split; reflexivity.
Qed.

Lemma zero_leb_one : leb zero one = true.
Proof. reflexivity. Qed.

Lemma one_defined : leb one one = true.
Proof. reflexivity. Qed.

End F32Facts.

(** ** [sweepAABB] *)
Module SweepFacts.
Import F32 F32Facts Sweep.

Local Open Scope f32_scope.

(** The straight-line code is the fold of its six [if]s. *)
Lemma sweepAABB_faces a b direction normal :
  sweepAABB a b direction normal
  = fold_left sweepStep (faces a b direction) (one, normal).
Proof.
  cbv beta iota zeta delta
    [sweepAABB faces fold_left sweepStep fires face face_s face_sign face_in1
     face_in2 face_normal component fst snd].
  repeat match goal with
         | |- context [if ?c then _ else _] =>
             destruct c; cbv beta iota zeta delta [fst snd]
         end; reflexivity.
Qed.

Lemma candidate_fires f h :
  fires f h = candidate f && (face_s f <? h).
Proof.
  unfold fires, candidate.
  destruct (face_s f >=? zero), (face_sign f), (face_s f <? h), (face_in1 f),
    (face_in2 f); reflexivity.
Qed.

Lemma candidate_defined f : candidate f = true -> leb (face_s f) (face_s f) = true.
Proof.
  unfold candidate. intros C.
  destruct (face_s f >=? zero) eqn:G; [|discriminate].
  apply leb_defined in G. tauto.
Qed.

(** Every face of the list was built by [face] from its own normal. *)
Lemma faces_shape a b direction f :
  In f (faces a b direction) ->
  exists mh m c1 c2,
    f = face direction mh m (face_normal f) (face_axis f) (face_isMin f) c1 c2.
Proof.
  unfold faces. cbn [In].
  intros [<-|[<-|[<-|[<-|[<-|[<-|[]]]]]]]; do 4 eexists; reflexivity.
Qed.

Lemma faces_normal a b direction f :
  In f (faces a b direction) ->
  forall d, F32.is_finite (component (face_axis f) d) = true ->
            (component (face_axis f) d == zero) = true ->
            vfinite d = true ->
            (dotProduct (face_normal f) d == zero) = true.
Proof.
  unfold faces. cbn [In].
  intros [<-|[<-|[<-|[<-|[<-|[<-|[]]]]]]] [x y z]; unfold vfinite;
    cbn [face face_axis face_normal component vx vy vz];
    intros _ Z0 Fin;
    destruct x as [[]|[]| |[] mx ex], y as [[]|[]| |[] my ey],
      z as [[]|[]| |[] mz ez];
    try discriminate Fin; try discriminate Z0; reflexivity.
Qed.

Lemma sweepStep_eq h n f :
  sweepStep (h, n) f
  = if candidate f && (face_s f <? h) then (face_s f, face_normal f) else (h, n).
Proof. unfold sweepStep. cbn [fst]. now rewrite candidate_fires. Qed.

(** The running minimum of the fold. *)
Lemma fold_sweepStep fs : forall h0 n0,
  leb h0 h0 = true ->
  let r := fold_left sweepStep fs (h0, n0) in
  leb (fst r) h0 = true
  /\ (forall f, In f fs -> candidate f = true -> leb (fst r) (face_s f) = true)
  /\ ((r = (h0, n0)
       /\ forall f, In f fs -> candidate f = true -> leb h0 (face_s f) = true)
      \/ exists f, In f fs /\ candidate f = true /\ ltb (face_s f) h0 = true
                   /\ r = (face_s f, face_normal f)).
Proof.
  induction fs as [|f fs IH]; intros h0 n0 D0; cbn [fold_left].
  - cbn. split; [exact D0|]. split; [intros ? []|]. left.
    split; [reflexivity | intros ? []].
  - cbv zeta. rewrite sweepStep_eq.
    destruct (candidate f) eqn:C; cbn [andb].
    + pose proof (candidate_defined f C) as Df.
      destruct (face_s f <? h0) eqn:L.
      * destruct (IH (face_s f) (face_normal f) Df) as (B & M & K).
        split; [|split].
        -- eapply leb_trans; [exact B | apply ltb_leb, L].
        -- intros g [<-|G] Cg; [exact B | auto].
        -- right. destruct K as [[E _]|(g & G & Cg & Lg & E)].
           ++ exists f. split; [now left|]. auto.
           ++ exists g. split; [now right|]. split; [exact Cg|].
              split; [|exact E].
              eapply ltb_leb_trans; [exact Lg|]. apply ltb_leb, L.
      * destruct (IH h0 n0 D0) as (B & M & K). split; [exact B|]. split.
        -- intros g [<-|G] Cg; [|auto].
           eapply leb_trans; [exact B|]. apply not_ltb_leb; auto.
        -- destruct K as [[E Mn]|(g & G & Cg & Lg & E)].
           ++ left. split; auto. intros g [<-|G] Cg; [|auto].
              apply not_ltb_leb; auto.
           ++ right. exists g. split; [now right|]. auto.
    + destruct (IH h0 n0 D0) as (B & M & K). split; [exact B|]. split.
      * intros g [<-|G] Cg; [congruence | auto].
      * destruct K as [[E Mn]|(g & G & Cg & Lg & E)].
        -- left. split; auto. intros g [<-|G] Cg; [congruence | auto].
        -- right. exists g. split; [now right|]. auto.
Qed.

(** C4, as the code has it. [sweepAABB] is a total function of its
    boxes and its direction. It is the fold of the six face tests. A
    face whose denominator [normal . direction] is zero - as happens
    when the direction component along the face's axis is zero and the
    direction is finite - has [lineToPlane] return infinity and its
    test never succeeds. A test only succeeds for a face whose motion
    component has the matching sign, so it never does when that
    component is zero, whatever the direction. A face is a candidate
    when its fraction is not negative, the sign matches and the hit
    point [s * direction] lies within the extent of the face on the two
    other axes; the six faces, with these tests written as comparisons,
    are listed. The returned fraction lies in [0, 1], is 1.0 with the
    normal left untouched when no candidate lies below 1.0, is
    otherwise the fraction of a candidate face, and is not above the
    fraction of any candidate face. *)
Theorem sweepAABB_minimum (a b : AABB) (direction normal : Vector3d) :
  let r := sweepAABB a b direction normal in
  let fs := faces a b direction in
  r = fold_left sweepStep fs (one, normal)
  /\ (zero <=? fst r) = true /\ (fst r <=? one) = true
  /\ (forall f, In f fs ->
        (dotProduct (face_normal f) direction == zero) = true ->
        face_s f = infinity /\ forall h, fires f h = false)
  /\ (forall f, In f fs ->
        (component (face_axis f) direction == zero) = true ->
        vfinite direction = true ->
        face_s f = infinity /\ forall h, fires f h = false)
  /\ (forall f h, In f fs -> fires f h = true ->
        if face_isMin f then (component (face_axis f) direction >? zero) = true
        else (component (face_axis f) direction <? zero) = true)
  /\ (forall f h, In f fs ->
        (component (face_axis f) direction == zero) = true -> fires f h = false)
  /\ ((r = (one, normal)
       /\ forall f, In f fs -> candidate f = true -> (one <=? face_s f) = true)
      \/ exists f, In f fs /\ candidate f = true /\ (face_s f <? one) = true
                   /\ r = (face_s f, face_normal f))
  /\ (forall f, In f fs -> candidate f = true -> (fst r <=? face_s f) = true)
  /\ (let mh := vadd (getSize a) (getSize b) in
      let plane (m n : Vector3d) (ax : Axis) (isMin : bool) (c1 c2 : Axis) :=
        let s := lineToPlane vzero direction m n in
        mkFace s
          (if isMin then zero <? component ax direction
           else component ax direction <? zero)
          ((component c1 m <=? s * component c1 direction)
           && (s * component c1 direction <=? component c1 m + component c1 mh))
          ((component c2 m <=? s * component c2 direction)
           && (s * component c2 direction <=? component c2 m + component c2 mh))
          n ax isMin in
      let m0 := vsub (getMin b) (getMax a) in
      let m1 := setX m0 (vx m0 + vx mh) in
      let m2 := setX m1 (vx m1 - vx mh) in
      let m3 := setY m2 (vy m2 + vy mh) in
      let m4 := setY m3 (vy m3 - vy mh) in
      let m5 := setZ m4 (vz m4 + vz mh) in
      fs = [ plane m0 (vecZ (-1) 0 0) AxisX true AxisY AxisZ;
             plane m1 (vecZ 1 0 0) AxisX false AxisY AxisZ;
             plane m2 (vecZ 0 (-1) 0) AxisY true AxisX AxisZ;
             plane m3 (vecZ 0 1 0) AxisY false AxisX AxisZ;
             plane m4 (vecZ 0 0 (-1)) AxisZ true AxisX AxisY;
             plane m5 (vecZ 0 0 1) AxisZ false AxisX AxisY ]
      /\ forall f, candidate f
                   = (zero <=? face_s f) && face_sign f && face_in1 f && face_in2 f).
Proof.
  cbv zeta. rewrite sweepAABB_faces.
  destruct (fold_sweepStep (faces a b direction) one normal one_defined)
    as (B & M & K).
  assert (Guard : forall f, In f (faces a b direction) ->
            (dotProduct (face_normal f) direction == zero) = true ->
            face_s f = infinity /\ forall h, fires f h = false).
  { intros f F Z0. destruct (faces_shape _ _ _ _ F) as (mh & m & c1 & c2 & E).
    assert (S : face_s f = infinity).
    { rewrite E. cbn [face face_s]. unfold lineToPlane. now rewrite Z0. }
    split; [exact S|]. intros h. rewrite candidate_fires, S.
    change (infinity <? h) with (ltb infinity h).
    rewrite infinity_not_ltb. apply andb_false_r. }
  split; [reflexivity|]. split; [|split; [exact B|]].
  - destruct K as [[-> _]|(f & F & C & L & ->)]; cbn [fst].
    + reflexivity.
    + unfold candidate in C. destruct (face_s f >=? zero) eqn:G; [exact G|discriminate].
  - assert (Sign : forall f h, In f (faces a b direction) -> fires f h = true ->
              if face_isMin f
              then (component (face_axis f) direction >? zero) = true
              else (component (face_axis f) direction <? zero) = true).
    { intros f h F Fi. destruct (faces_shape _ _ _ _ F) as (mh & m & c1 & c2 & E).
      unfold fires in Fi. destruct (face_sign f) eqn:Sg.
      * rewrite E in Sg. cbn [face face_sign] in Sg.
        destruct (face_isMin f); exact Sg.
      * rewrite andb_false_r in Fi. discriminate. }
    split; [exact Guard|].
    split; [|split; [exact Sign|split; [|split; [exact K | split; [exact M|]]]]].
    + intros f F Z0 Fin. apply Guard; [exact F|].
      apply (faces_normal a b direction f F direction); auto.
      destruct (component (face_axis f) direction) as [[]|[]| |[] m e];
        try reflexivity; discriminate Z0.
    + intros f h F Z0. destruct (fires f h) eqn:Fi; [|reflexivity].
      pose proof (Sign f h F Fi) as Sg.
      destruct (eqb_zero_not_ltb _ Z0) as [N1 N2].
      unfold gtb in Sg. destruct (face_isMin f); congruence.
    + split; [|reflexivity].
      cbv beta iota zeta delta [faces face between geb gtb]. reflexivity.
Qed.

(** The claim as worded fails on two inputs. Along (0, +inf, 0) the
    x component is zero, yet the denominator of the X-min plane is a
    NaN and so is its fraction, not infinity. Along (8, 100, 0) the
    X-min plane of the sample wall has the matching sign and the
    fraction 0.5, the least one that is not negative among the planes
    with a matching sign, yet the hit point lies outside the face and
    [sweepAABB] returns 1.0. *)
Lemma sweepAABB_claim_fails :
  let a := Sample.playerBox (vecZ 0 0 0) 2 in
  let b := _boundingBox Sample.wall in
  let xmin d := nth 0 (faces a b d) (face d vzero vzero vzero AxisX true AxisX AxisX) in
  let up := vec zero infinity zero in
  let across := vecZ 8 100 0 in
  ((component (face_axis (xmin up)) up == zero) = true
   /\ face_s (xmin up) = S754_nan
   /\ face_s (xmin up) <> infinity)
  /\ (face_sign (xmin across) = true
      /\ face_s (xmin across) = of_bits 1056964608
      /\ (zero <=? face_s (xmin across)) = true
      /\ (forall f, In f (faces a b across) -> face_sign f = true ->
            (zero <=? face_s f) = true ->
            (face_s (xmin across) <=? face_s f) = true)
      /\ candidate (xmin across) = false
      /\ sweepAABB a b across vzero = (one, vzero)).
Proof.
  cbv zeta. split.
  - split; [vm_compute; reflexivity|]. split; [vm_compute; reflexivity|].
    vm_compute. discriminate.
  - split; [vm_compute; reflexivity|]. split; [vm_compute; reflexivity|].
    split; [vm_compute; reflexivity|].
    split; [|split; vm_compute; reflexivity].
    intros f F. unfold faces in F. cbn [In] in F.
    destruct F as [<-|[<-|[<-|[<-|[<-|[<-|[]]]]]]]; vm_compute; congruence.
Qed.

(** C4 on the sample wall, swept along +x: the Y-min face has a zero
    denominator, the X-min face is hit at half the motion. *)
Lemma sweepAABB_minimum_witness :
  let a := Sample.playerBox (vecZ 0 0 0) 2 in
  let b := _boundingBox Sample.wall in
  let direction := vecZ 8 0 0 in
  let f := nth 2 (faces a b direction) (face direction vzero vzero vzero AxisX true AxisX AxisX) in
  In f (faces a b direction)
  /\ (dotProduct (face_normal f) direction == zero) = true
  /\ (component (face_axis f) direction == zero) = true
  /\ vfinite direction = true
  /\ face_s f = infinity
  /\ (forall h, fires f h = false)
  /\ (zero <=? fst (sweepAABB a b direction vzero)) = true
  /\ (fst (sweepAABB a b direction vzero) <=? one) = true
  /\ sweepAABB a b direction vzero = (of_bits 1056964608, vecZ (-1) 0 0).
Proof.
  cbv zeta.
  destruct (sweepAABB_minimum (Sample.playerBox (vecZ 0 0 0) 2)
              (_boundingBox Sample.wall) (vecZ 8 0 0) vzero)
    as (_ & L0 & L1 & G & _ & _ & _ & _ & _).
  assert (I : In (nth 2 (faces (Sample.playerBox (vecZ 0 0 0) 2)
                            (_boundingBox Sample.wall) (vecZ 8 0 0))
                    (face (vecZ 8 0 0) vzero vzero vzero AxisX true AxisX AxisX))
                (faces (Sample.playerBox (vecZ 0 0 0) 2)
                   (_boundingBox Sample.wall) (vecZ 8 0 0)))
    by (right; right; left; reflexivity).
  assert (Z0 : (dotProduct
                  (face_normal
                     (nth 2 (faces (Sample.playerBox (vecZ 0 0 0) 2)
                               (_boundingBox Sample.wall) (vecZ 8 0 0))
                        (face (vecZ 8 0 0) vzero vzero vzero AxisX true AxisX AxisX)))
                  (vecZ 8 0 0) == zero) = true)
    by (vm_compute; reflexivity).
  destruct (G _ I Z0) as (S & F).
  split; [exact I|]. split; [exact Z0|].
  split; [vm_compute; reflexivity|]. split; [vm_compute; reflexivity|].
  split; [exact S|]. split; [exact F|]. split; [exact L0|]. split; [exact L1|].
  vm_compute. reflexivity.
Defined.

End SweepFacts.

(** ** [resolveCollisions] *)
Module ResolverFacts.
Import F32 F32Facts Sweep Resolver.

Local Open Scope f32_scope.

Section WithEnv.
Context `{Env}.

(** One turn of the [while] loop. *)
Lemma resolveLoop_step fuel ds bb last i pos :
  resolveLoop (S fuel) ds bb last i pos
  = if blocked ds bb last pos
    then if (i + 1 <=? 5)%Z
         then resolveLoop fuel ds bb last (i + 1)%Z (advance ds bb last pos)
         else Some AssertionFailed
    else Some (Returned (advance ds bb last pos)).
Proof.
  cbn [resolveLoop]. unfold blocked, advance.
  destruct (sweepObjects ds bb (vsub pos last)) as [distance normal].
  cbn [fst]. destruct (distance >=? one); reflexivity.
Qed.

(** The loop yields [passesOutcome] as soon as the fuel covers the
    passes still allowed. *)
Lemma resolveLoop_outcome ds bb last : forall n fuel pos,
  (n <= 6)%nat -> (n <= fuel)%nat -> (0 < n)%nat ->
  resolveLoop fuel ds bb last (6 - Z.of_nat n) pos
  = Some (passesOutcome n ds bb last pos).
Proof.
  induction n as [|n IH]; intros fuel pos B F P; [lia|].
  destruct fuel as [|fuel]; [lia|].
  rewrite resolveLoop_step. cbn [passesOutcome].
  destruct (blocked ds bb last pos); [|reflexivity].
  destruct n as [|n].
  - cbn. reflexivity.
  - replace (6 - Z.of_nat (S (S n)) + 1 <=? 5)%Z with true
      by (symmetry; apply Z.leb_le; lia).
    replace (6 - Z.of_nat (S (S n)) + 1)%Z with (6 - Z.of_nat (S n))%Z by lia.
    apply IH; lia.
Qed.

Lemma positionAfter_shift ds bb last : forall k pos,
  positionAfter k ds bb last (advance ds bb last pos)
  = advance ds bb last (positionAfter k ds bb last pos).
Proof.
  induction k as [|k IH]; intros pos; cbn [positionAfter]; [reflexivity|].
  now rewrite IH.
Qed.

Lemma passesOutcome_returns ds bb last : forall n pos k,
  (k < n)%nat ->
  (forall j, (j < k)%nat -> blockedPass j ds bb last pos = true) ->
  blockedPass k ds bb last pos = false ->
  passesOutcome n ds bb last pos = Returned (positionAfter (S k) ds bb last pos).
Proof.
  unfold blockedPass.
  induction n as [|n IH]; intros pos k L B U; [lia|].
  cbn [passesOutcome]. destruct k as [|k].
  - cbn [positionAfter] in *. now rewrite U.
  - pose proof (B 0%nat ltac:(lia)) as B0. cbn [positionAfter] in B0. rewrite B0.
    rewrite (IH (advance ds bb last pos) k); [| lia | |].
    + f_equal. cbn [positionAfter]. now rewrite !positionAfter_shift.
    + intros j J. rewrite positionAfter_shift. apply (B (S j)). lia.
    + rewrite positionAfter_shift. exact U.
Qed.

Lemma passesOutcome_aborts ds bb last : forall n pos,
  (forall j, (j < n)%nat -> blockedPass j ds bb last pos = true) ->
  passesOutcome n ds bb last pos = AssertionFailed.
Proof.
  unfold blockedPass.
  induction n as [|n IH]; intros pos B; [reflexivity|].
  cbn [passesOutcome].
  pose proof (B 0%nat ltac:(lia)) as B0. cbn [positionAfter] in B0. rewrite B0.
  apply IH. intros j J. rewrite positionAfter_shift. apply (B (S j)). lia.
Qed.

(** The minimum over the objects is a number, at most 1.0. *)
Lemma sweepObjects_bound ds bb direction :
  leb (fst (sweepObjects ds bb direction)) one = true.
Proof.
  unfold sweepObjects.
  assert (G : forall acc : float * Vector3d, leb (fst acc) one = true ->
    leb (fst (fold_left
      (fun (acc : float * Vector3d) (obj : Object) =>
         let '(distance, normal) := acc in
         if negb (isDestroyed obj) && negb (isInvisible obj) then
           let collidedNormal := vzero in
           let '(collidedDistance, collidedNormal) :=
             sweepAABB bb (_boundingBox obj) direction collidedNormal in
           if collidedDistance <? distance then (collidedDistance, collidedNormal)
           else (distance, normal)
         else (distance, normal)) ds acc)) one = true).
  { induction ds as [|obj ds IH]; intros [d n] B; cbn [fold_left]; [exact B|].
    apply IH. destruct (negb (isDestroyed obj) && negb (isInvisible obj)); [|exact B].
    cbv zeta.
    destruct (sweepAABB bb (_boundingBox obj) direction vzero) as [cd cn] eqn:E.
    destruct (cd <? d) eqn:L; [|exact B]. cbn [fst] in *.
    eapply leb_trans; [apply ltb_leb, L | exact B]. }
  apply G. reflexivity.
Qed.

(** C1. [resolveCollisions] terminates on every input: six passes of
    fuel always reach an outcome, and more fuel does not change it. A
    pass that finds no obstruction before the full motion returns its
    position; up to five blocked passes are followed by another pass;
    a sixth blocked pass stops at the assertion instead of returning. *)
Theorem resolveCollisions_terminates (ds : list Object)
    (lastPosition newPosition : Vector3d) (playerHeight : Z) :
  let bb := createPlayerAABB lastPosition playerHeight in
  exists out : Outcome Vector3d,
    (forall fuel, (6 <= fuel)%nat ->
       resolveCollisions fuel ds lastPosition newPosition playerHeight = Some out)
    /\ (forall k, (k <= 5)%nat ->
          (forall j, (j < k)%nat ->
             blockedPass j ds bb lastPosition newPosition = true) ->
          blockedPass k ds bb lastPosition newPosition = false ->
          out = Returned (positionAfter (S k) ds bb lastPosition newPosition))
    /\ ((forall k, (k <= 5)%nat ->
           blockedPass k ds bb lastPosition newPosition = true) ->
        out = AssertionFailed)
    /\ (out = AssertionFailed ->
        forall k, (k <= 5)%nat ->
          blockedPass k ds bb lastPosition newPosition = true).
Proof.
  cbv zeta.
  set (bb := createPlayerAABB lastPosition playerHeight).
  exists (passesOutcome 6 ds bb lastPosition newPosition).
  split; [|split; [|split]].
  - intros fuel F. unfold resolveCollisions. fold bb.
    apply (resolveLoop_outcome ds bb lastPosition 6 fuel newPosition); lia.
  - intros k K B U. apply passesOutcome_returns; auto. lia.
  - intros B. apply passesOutcome_aborts. intros j J. apply B. lia.
  - assert (G : forall n pos,
              passesOutcome n ds bb lastPosition pos = AssertionFailed ->
              forall k, (k < n)%nat -> blockedPass k ds bb lastPosition pos = true).
    { unfold blockedPass. induction n as [|n IH]; intros pos A k K; [lia|].
      cbn [passesOutcome] in A.
      destruct (blocked ds bb lastPosition pos) eqn:Bl; [|discriminate].
      destruct k as [|k]; [exact Bl|].
      cbn [positionAfter]. rewrite <- positionAfter_shift. apply IH; [exact A | lia]. }
    intros A k K. apply (G 6%nat newPosition A). lia.
Qed.

Lemma blocked_ltb ds bb last pos :
  blocked ds bb last pos = true ->
  (fst (sweepObjects ds bb (vsub pos last)) <? one) = true.
Proof.
  unfold blocked. intros B. apply negb_true_iff in B.
  pose proof (sweepObjects_bound ds bb (vsub pos last)) as L.
  apply not_leb_ltb; [reflexivity | apply (leb_defined _ _ L) | exact B].
Qed.

Lemma resolveLoop_blocked_prefix ds bb last fuel : forall k i pos,
  (i + Z.of_nat (S k) <= 5)%Z ->
  (forall j, (j <= k)%nat -> blockedPass j ds bb last pos = true) ->
  resolveLoop (S k + fuel) ds bb last i pos
  = resolveLoop fuel ds bb last (i + Z.of_nat (S k)) (positionAfter (S k) ds bb last pos).
Proof.
  unfold blockedPass.
  induction k as [|k IH]; intros i pos I B.
  - pose proof (B 0%nat ltac:(lia)) as B0. cbn [positionAfter] in B0.
    change (1 + fuel)%nat with (S fuel). rewrite resolveLoop_step, B0.
    replace (i + 1 <=? 5)%Z with true by (symmetry; apply Z.leb_le; lia).
    reflexivity.
  - pose proof (B 0%nat ltac:(lia)) as B0. cbn [positionAfter] in B0.
    change (S (S k) + fuel)%nat with (S (S k + fuel)).
    rewrite resolveLoop_step, B0.
    replace (i + 1 <=? 5)%Z with true by (symmetry; apply Z.leb_le; lia).
    rewrite IH.
    + replace (i + 1 + Z.of_nat (S k))%Z with (i + Z.of_nat (S (S k)))%Z by lia.
      f_equal. cbn [positionAfter]. now rewrite !positionAfter_shift.
    + lia.
    + intros j J. rewrite positionAfter_shift. apply (B (S j)). lia.
Qed.

(** C2, as the code has it. After a blocked pass the sweep fraction
    [h] is below 1.0 and the position becomes
    [last + h * motion + epsilon * normal] with epsilon = 1.5, the
    motion being the current position minus [lastPosition]. The next
    pass sweeps again from the same [lastPosition] with the same player
    box, and it is the advanced position that serves as its target. *)
Theorem blocked_pass_retargets (ds : list Object)
    (lastPosition newPosition : Vector3d) (playerHeight : Z) (k fuel : nat) :
  let bb := createPlayerAABB lastPosition playerHeight in
  let position := positionAfter k ds bb lastPosition newPosition in
  let direction := vsub position lastPosition in
  let h := fst (sweepObjects ds bb direction) in
  let normal := snd (sweepObjects ds bb direction) in
  (k <= 4)%nat ->
  (forall j, (j <= k)%nat -> blockedPass j ds bb lastPosition newPosition = true) ->
  (h <? one) = true
  /\ positionAfter (S k) ds bb lastPosition newPosition
     = vadd (vadd lastPosition (smul h direction)) (smul epsilon normal)
  /\ epsilon + epsilon = of_Z 3
  /\ resolveCollisions (S k + fuel) ds lastPosition newPosition playerHeight
     = resolveLoop fuel ds bb lastPosition (Z.of_nat (S k))
         (positionAfter (S k) ds bb lastPosition newPosition).
Proof.
  cbv zeta. intros K B. split; [|split; [|split]].
  - apply blocked_ltb. apply (B k). lia.
  - cbn [positionAfter]. unfold advance.
    destruct (sweepObjects ds (createPlayerAABB lastPosition playerHeight)
                (vsub (positionAfter k ds (createPlayerAABB lastPosition playerHeight)
                         lastPosition newPosition) lastPosition)); reflexivity.
  - reflexivity.
  - unfold resolveCollisions. rewrite resolveLoop_blocked_prefix; [reflexivity| lia |exact B].
Qed.

(** A pass against objects none of which is hit before the full motion. *)
Lemma sweepObjects_free ds bb direction :
  (forall obj, In obj ds -> isDestroyed obj = false -> isInvisible obj = false ->
     fst (sweepAABB bb (_boundingBox obj) direction vzero) = one) ->
  sweepObjects ds bb direction = (one, vzero).
Proof.
  unfold sweepObjects. induction ds as [|obj ds IH]; intros Free; [reflexivity|].
  cbn [fold_left].
  destruct (isDestroyed obj) eqn:D; cbn [negb andb].
  - apply IH. intros o O. apply Free. now right.
  - destruct (isInvisible obj) eqn:I; cbn [negb].
    + apply IH. intros o O. apply Free. now right.
    + pose proof (Free obj (or_introl eq_refl) D I) as E.
      destruct (sweepAABB bb (_boundingBox obj) direction vzero) as [cd cn].
      cbn [fst] in E. subst cd. change (one <? one) with false. cbv iota.
      apply IH. intros o O. apply Free. now right.
Qed.

(** C3, as the code has it. When no visible, intact object is hit
    before the full motion is consumed, the first pass returns
    [last + 1.0 * (desired - last) + 1.5 * 0]: the normal is the zero
    vector, so nothing is pushed, and the result is the desired
    position as far as the single-precision subtraction and addition
    bring it back. *)
Theorem unobstructed_motion (ds : list Object)
    (lastPosition desiredPosition : Vector3d) (playerHeight : Z) (fuel : nat) :
  (forall obj, In obj ds -> isDestroyed obj = false -> isInvisible obj = false ->
     fst (sweepAABB (createPlayerAABB lastPosition playerHeight)
            (_boundingBox obj) (vsub desiredPosition lastPosition) vzero) = one) ->
  resolveCollisions (S fuel) ds lastPosition desiredPosition playerHeight
  = Some (Returned
            (vadd (vadd lastPosition (smul one (vsub desiredPosition lastPosition)))
               (smul epsilon vzero))).
Proof.
  intros Free. unfold resolveCollisions. rewrite resolveLoop_step.
  unfold blocked, advance. rewrite (sweepObjects_free _ _ _ Free).
  reflexivity.
Qed.

End WithEnv.

(** *** Runs in the sample environment *)
Import Sample.

(** C1 at the sample wall: the first pass is blocked, the second is
    not, and the outcome is the position after two passes. *)
Lemma resolveCollisions_terminates_witness :
  resolveCollisions 6 [wall] (vecZ 0 0 0) (vecZ 8 0 0) 2
  = Some (Returned (positionAfter 2 [wall] (playerBox (vecZ 0 0 0) 2)
                      (vecZ 0 0 0) (vecZ 8 0 0))).
Proof.
  destruct (resolveCollisions_terminates [wall] (vecZ 0 0 0) (vecZ 8 0 0) 2)
    as (out & F & R & _).
  rewrite (F 6%nat (le_n 6)). do 2 f_equal. apply (R 1%nat).
  - lia.
  - intros j J. assert (j = 0%nat) as -> by lia. vm_compute. reflexivity.
  - vm_compute. reflexivity.
Defined.

(** The run of [resolveCollisions] towards the sample wall: the first
    pass is blocked at half the motion, the second returns. *)
Lemma wall_run :
  resolveCollisions 6 [Sample.wall] (vecZ 0 0 0) (vecZ 8 0 0) 2
  = Some (Returned (vec (of_bits 1075838976) zero zero)).
Proof. vm_compute. reflexivity. Qed.

(** C2 at the sample wall: one blocked pass, then the loop goes on
    from the position it advanced to. *)
Lemma blocked_pass_retargets_witness :
  (fst (sweepObjects [Sample.wall] (Sample.playerBox (vecZ 0 0 0) 2)
          (vsub (vecZ 8 0 0) (vecZ 0 0 0))) <? one) = true
  /\ resolveCollisions 6 [Sample.wall] (vecZ 0 0 0) (vecZ 8 0 0) 2
     = resolveLoop 5 [Sample.wall] (Sample.playerBox (vecZ 0 0 0) 2) (vecZ 0 0 0) 1
         (vec (of_bits 1075838976) zero zero).
Proof.
  destruct (blocked_pass_retargets [Sample.wall] (vecZ 0 0 0) (vecZ 8 0 0) 2 0 5)
    as (L & _ & _ & R).
  - lia.
  - intros j J. assert (j = 0%nat) as -> by lia. vm_compute. reflexivity.
  - split; [exact L | exact R].
Defined.

(** C2 as worded fails: taking the advanced position as the new
    reference and keeping the first target walks to x = 8, through the
    wall, where the code stops at x = 2.5. *)
Lemma asWorded_differs :
  resolveCollisions 6 [Sample.wall] (vecZ 0 0 0) (vecZ 8 0 0) 2
  = Some (Returned (vec (of_bits 1075838976) zero zero))
  /\ resolveCollisions_asWorded 6 [Sample.wall] (vecZ 0 0 0) (vecZ 8 0 0) 2
     = Some (Returned (vecZ 8 0 0))
  /\ resolveCollisions 6 [Sample.wall] (vecZ 0 0 0) (vecZ 8 0 0) 2
     <> resolveCollisions_asWorded 6 [Sample.wall] (vecZ 0 0 0) (vecZ 8 0 0) 2.
Proof.
  split; [|split]; try (vm_compute; reflexivity).
  vm_compute. discriminate.
Qed.

(** C3 away from the sample wall: the motion from x = 2 to x = 0.7
    touches nothing. *)
Lemma unobstructed_motion_witness :
  resolveCollisions 6 [Sample.wall] (vecZ 2 0 0) (vec f0_7 zero zero) 2
  = Some (Returned
            (vadd (vadd (vecZ 2 0 0)
                     (smul one (vsub (vec f0_7 zero zero) (vecZ 2 0 0))))
               (smul epsilon vzero))).
Proof.
  apply (unobstructed_motion [Sample.wall] (vecZ 2 0 0) (vec f0_7 zero zero) 2 5).
  intros obj [<-|[]] _ _. vm_compute. reflexivity.
Defined.

(** C3 as worded fails: that same free motion returns the float next
    to 0.7, not 0.7. *)
Lemma unobstructed_not_unchanged :
  (forall obj, In obj [Sample.wall] ->
     fst (sweepAABB (Sample.playerBox (vecZ 2 0 0) 2) (_boundingBox obj)
            (vsub (vec f0_7 zero zero) (vecZ 2 0 0)) vzero) = one)
  /\ resolveCollisions 6 [Sample.wall] (vecZ 2 0 0) (vec f0_7 zero zero) 2
     = Some (Returned (vec (of_bits 1060320052) zero zero))
  /\ resolveCollisions 6 [Sample.wall] (vecZ 2 0 0) (vec f0_7 zero zero) 2
     <> Some (Returned (vec f0_7 zero zero)).
Proof.
  split; [|split].
  - intros obj [<-|[]]. vm_compute. reflexivity.
  - vm_compute. reflexivity.
  - vm_compute. discriminate.
Qed.

End ResolverFacts.

(** ** [shootRay] and [checkInSight] *)
Module QueryFacts.
Import F32 F32Facts Query.

Local Open Scope f32_scope.

Section WithEnv.
Context `{Env}.

Lemma shootStep_eq ray size collided obj :
  shootStep ray (size, collided) obj
  = if qualifies ray obj && (objSize obj <=? size)
    then (objSize obj, Some obj) else (size, collided).
Proof. reflexivity. Qed.

Lemma leb_ltb_trans x y z : leb x y = true -> ltb y z = true -> ltb x z = true.
Proof.
  intros L1 L2. to_ranks. apply ltb_rank. do 2 eexists; repeat split; eauto.
  split_keys; lia.
Qed.

(** The fold of [shootRay] from any running cutoff: either no object
    passes, or the one kept is the last of the smallest that pass. *)
Lemma shoot_fold ray : forall ds size collided,
  let r := fold_left (shootStep ray) ds (size, collided) in
  (r = (size, collided)
   /\ forall o, In o ds -> qualifies ray o = true -> (objSize o <=? size) = false)
  \/ exists pre o post,
       ds = pre ++ o :: post /\ r = (objSize o, Some o)
       /\ qualifies ray o = true /\ (objSize o <=? size) = true
       /\ (forall o', In o' pre -> qualifies ray o' = true ->
             (objSize o' <=? size) = true -> (objSize o <=? objSize o') = true)
       /\ (forall o', In o' post -> qualifies ray o' = true ->
             (objSize o' <=? size) = true -> (objSize o <? objSize o') = true).
Proof.
  induction ds as [|obj ds IH]; intros size collided; cbn [fold_left].
  - left. split; [reflexivity | intros ? []].
  - cbv zeta. rewrite shootStep_eq.
    destruct (qualifies ray obj && (objSize obj <=? size)) eqn:P.
    + apply andb_true_iff in P. destruct P as [Q L].
      pose proof (proj1 (leb_defined _ _ L)) as Dobj.
      right. destruct (IH (objSize obj) (Some obj)) as [[E N]|(pre & o & post & E & R & Qo & Lo & Pre & Post)].
      * exists [], obj, ds. split; [reflexivity|]. split; [exact E|].
        split; [exact Q|]. split; [exact L|]. split; [intros ? []|].
        intros o' I Q' L'. apply not_leb_ltb; auto.
        apply (leb_defined _ _ L').
      * exists (obj :: pre), o, post. split; [now rewrite E|]. split; [exact R|].
        split; [exact Qo|]. split; [eapply leb_trans; eauto|]. split.
        -- intros o' [<-|I] Q' L'; [exact Lo|].
           destruct (objSize o' <=? objSize obj) eqn:C; [now apply Pre|].
           apply ltb_leb. eapply leb_ltb_trans; [exact Lo|].
           apply not_leb_ltb; auto. apply (leb_defined _ _ L').
        -- intros o' I Q' L'.
           destruct (objSize o' <=? objSize obj) eqn:C; [now apply Post|].
           eapply leb_ltb_trans; [exact Lo|].
           apply not_leb_ltb; auto. apply (leb_defined _ _ L').
    + destruct (IH size collided) as [[E N]|(pre & o & post & E & R & Qo & Lo & Pre & Post)].
      * left. split; [exact E|]. intros o [<-|I] Q; [|now apply N].
        rewrite Q in P. exact P.
      * right. exists (obj :: pre), o, post. split; [now rewrite E|].
        split; [exact R|]. split; [exact Qo|]. split; [exact Lo|]. split; [|exact Post].
        intros o' [<-|I] Q' L'; [|now apply Pre].
        rewrite Q', L' in P. discriminate.
Qed.

(** C5, as the code has it. [shootRay] returns none exactly when no
    object of the view is eligible, an object being eligible when it is
    not destroyed, not invisible, has a valid box the ray intersects,
    and its extent length does not exceed the starting cutoff 131072.
    Otherwise it returns an eligible object of smallest extent length,
    and among several of that length the one last in view order: no
    eligible object before it is smaller, every eligible object after
    it is strictly larger. *)
Theorem shootRay_last_smallest (ds : list Object) (ray : Ray) :
  (shootRay ds ray = None <-> forall o, In o ds -> eligible ray o = false)
  /\ (forall o, shootRay ds ray = Some o ->
        exists pre post,
          ds = pre ++ o :: post
          /\ negb (isDestroyed o) && negb (isInvisible o)
             && isValid (_boundingBox o) && intersectAABB ray (_boundingBox o) = true
          /\ (objSize o <=? maxSize) = true
          /\ (forall o', In o' pre -> eligible ray o' = true ->
                (objSize o <=? objSize o') = true)
          /\ (forall o', In o' post -> eligible ray o' = true ->
                (objSize o <? objSize o') = true)).
Proof.
  unfold shootRay. cbv zeta.
  destruct (shoot_fold ray ds maxSize None)
    as [[E N]|(pre & o & post & E & R & Qo & Lo & Pre & Post)].
  - rewrite E. cbn [snd]. split.
    + split; [|reflexivity]. intros _ o I. unfold eligible.
      destruct (qualifies ray o) eqn:Q; [|reflexivity]. cbn [andb]. now apply N.
    + intros o D. discriminate.
  - rewrite R. cbn [snd]. split.
    + split; [discriminate|]. intros A. exfalso.
      assert (I : In o ds) by (rewrite E; apply in_or_app; right; now left).
      specialize (A o I). unfold eligible in A.
      rewrite Qo, Lo in A. discriminate.
    + intros o0 [= <-]. exists pre, post. split; [exact E|]. split; [exact Qo|].
      split; [exact Lo|]. split.
      * intros o' I El. apply andb_true_iff in El. destruct El. now apply Pre.
      * intros o' I El. apply andb_true_iff in El. destruct El. now apply Post.
Qed.

Lemma sightBlocked_existsb point ds :
  sightBlocked point ds = existsb (obstructs point) ds.
Proof.
  induction ds as [|obj ds IH]; cbn [sightBlocked existsb]; [reflexivity|].
  unfold obstructs at 1. rewrite IH.
  destruct (negb (ObjectType_eqb (getType obj) kSensorType)
            && negb (isDestroyed obj) && negb (isInvisible obj)
            && isValid (_boundingBox obj) && collides point (_boundingBox obj));
    reflexivity.
Qed.

Lemma setOrigin_probe ray maxDistance point k :
  _objectID point = 0%Z -> _flags point = 0%Z -> _type point = kCubeType ->
  _size point = probeSize maxDistance ->
  setOrigin point (samplePoint ray (normalize (rayDirection ray)) maxDistance k)
  = probeAt ray maxDistance k.
Proof.
  intros I F T S. unfold setOrigin, probeAt. now rewrite I, F, T, S.
Qed.

Lemma checkInSight_existsb ds ray maxDistance :
  checkInSight ds ray maxDistance
  = negb (existsb (fun k => existsb (obstructs (probeAt ray maxDistance k)) ds)
            multipliers).
Proof.
  unfold checkInSight, multipliers. cbv zeta.
  cbn [sightLoop existsb Z.leb Z.compare Pos.compare Pos.compare_cont Z.add Pos.add
       Pos.succ Pos.add_carry].
  rewrite !sightBlocked_existsb.
  rewrite !setOrigin_probe by reflexivity.
  repeat match goal with
         | |- context [existsb (obstructs ?p) ds] =>
             destruct (existsb (obstructs p) ds); cbn [orb negb]; try reflexivity
         end.
Qed.

(** C6. [checkInSight] tests nine cubes of side [maxDistance / 30],
    placed at the ray origin plus 2, 3, ..., 10 tenths of
    [maxDistance] along the normalised direction. It returns false
    exactly when one of these cubes collides with the valid box of a
    view object that is not a sensor, not destroyed and not invisible,
    and true otherwise. *)
Theorem checkInSight_samples (ds : list Object) (ray : Ray) (maxDistance : float) :
  multipliers = [2; 3; 4; 5; 6; 7; 8; 9; 10]%Z
  /\ (forall k,
        _size (probeAt ray maxDistance k)
        = vec (maxDistance / of_Z 30) (maxDistance / of_Z 30) (maxDistance / of_Z 30)
        /\ _origin (probeAt ray maxDistance k)
           = vadd (rayOrigin ray)
               (smul (of_Z k * (maxDistance / of_Z 10)) (normalize (rayDirection ray))))
  /\ (checkInSight ds ray maxDistance = false <->
      exists k obj,
        In k multipliers /\ In obj ds
        /\ negb (ObjectType_eqb (getType obj) kSensorType)
           && negb (isDestroyed obj) && negb (isInvisible obj)
           && isValid (_boundingBox obj)
           && collides (probeAt ray maxDistance k) (_boundingBox obj) = true)
  /\ (checkInSight ds ray maxDistance = true <->
      forall k obj, In k multipliers -> In obj ds ->
        negb (ObjectType_eqb (getType obj) kSensorType)
        && negb (isDestroyed obj) && negb (isInvisible obj)
        && isValid (_boundingBox obj)
        && collides (probeAt ray maxDistance k) (_boundingBox obj) = false).
Proof.
  split; [reflexivity|]. split; [intros k; split; reflexivity|].
  rewrite checkInSight_existsb.
  assert (B : existsb (fun k => existsb (obstructs (probeAt ray maxDistance k)) ds)
                multipliers = true
              <-> exists k obj, In k multipliers /\ In obj ds
                    /\ obstructs (probeAt ray maxDistance k) obj = true).
  { rewrite existsb_exists. split.
    - intros (k & K & E). apply existsb_exists in E. destruct E as (obj & O & E).
      exists k, obj. auto.
    - intros (k & obj & K & O & E). exists k. split; [exact K|].
      apply existsb_exists. exists obj. auto. }
  split.
  - rewrite negb_false_iff. exact B.
  - rewrite negb_true_iff. split.
    + intros N k obj K O.
      destruct (obstructs (probeAt ray maxDistance k) obj) eqn:E; [|exact E].
      rewrite (proj2 B) in N; [discriminate|]. exists k, obj. auto.
    + intros A. apply not_true_iff_false. intros E.
      apply B in E. destruct E as (k & obj & K & O & E).
      unfold obstructs in E. rewrite (A k obj K O) in E. discriminate.
Qed.

End WithEnv.

(** *** Runs in the sample environment *)
Import Sample.

(** C5 on two cubes of equal size that the ray both hits: the far
    one, last in view order, is returned. *)
Lemma shootRay_last_smallest_witness :
  exists pre post,
    [nearCube; farCube] = pre ++ farCube :: post
    /\ (forall o', In o' pre -> eligible rayAlongX o' = true ->
          (objSize farCube <=? objSize o') = true)
    /\ (forall o', In o' post -> eligible rayAlongX o' = true ->
          (objSize farCube <? objSize o') = true).
Proof.
  destruct (proj2 (shootRay_last_smallest [nearCube; farCube] rayAlongX) farCube)
    as (pre & post & E & _ & _ & Pre & Post).
  - vm_compute. reflexivity.
  - exists pre, post. split; [exact E|]. split; [exact Pre | exact Post].
Defined.

(** C5 as worded fails: both cubes qualify and have the same extent
    length, the near one comes first in the view, and [shootRay]
    returns the far one. And a cube longer than the starting cutoff
    qualifies without being returned. *)
Lemma shootRay_tie_takes_last :
  qualifies rayAlongX nearCube = true
  /\ qualifies rayAlongX farCube = true
  /\ objSize nearCube = objSize farCube
  /\ shootRay [nearCube; farCube] rayAlongX = Some farCube
  /\ shootRay [nearCube; farCube] rayAlongX <> Some nearCube
  /\ qualifies rayAlongX hugeCube = true
  /\ shootRay [hugeCube] rayAlongX = None.
Proof.
  repeat split; try (vm_compute; reflexivity).
  vm_compute. discriminate.
Qed.

(** C6 on the sample wall: the fourth cube of a probe of length 10
    along +x meets the wall, so the sight is blocked. *)
Lemma checkInSight_samples_witness :
  checkInSight [wall] rayAlongX (of_Z 10) = false.
Proof.
  destruct (checkInSight_samples [wall] rayAlongX (of_Z 10)) as (_ & _ & B & _).
  apply B. exists 5%Z, wall. split; [|split].
  - unfold multipliers. cbn. tauto.
  - now left.
  - vm_compute. reflexivity.
Defined.

End QueryFacts.

(** ** The object store *)
Module StoreFacts.
Import Store.

(** *** The table *)
Module HashMapFacts.
Import HashMap.

Section WithEnv.
Context `{Env} {V : Type}.
Implicit Types (m : HashMap.t V) (k : Z) (v : V).

Lemma lookup_app k m1 m2 :
  lookup k (m1 ++ m2)
  = match lookup k m1 with Some v => Some v | None => lookup k m2 end.
Proof.
  induction m1 as [|[k' v'] m1 IH]; cbn [app lookup]; [reflexivity|].
  destruct (k' =? k); [reflexivity | exact IH].
Qed.

Lemma lookup_insert_at n k v m k' :
  lookup k m = None ->
  lookup k' (firstn n m ++ (k, v) :: skipn n m)
  = if k' =? k then Some v else lookup k' m.
Proof.
  intros N. rewrite lookup_app. cbn [lookup].
  rewrite <- (firstn_skipn n m) in N at 1.
  pose proof (lookup_app k' (firstn n m) (skipn n m)) as A.
  rewrite firstn_skipn in A.
  destruct (Z.eqb_spec k' k) as [->|D].
  - rewrite lookup_app in N. rewrite Z.eqb_refl.
    destruct (lookup k (firstn n m)); [discriminate | reflexivity].
  - replace (k =? k') with false by (symmetry; apply Z.eqb_neq; congruence).
    now rewrite A.
Qed.

Lemma lookup_replace k v m k' :
  lookup k' (replace k v m)
  = if k' =? k then (if contains k m then Some v else None) else lookup k' m.
Proof.
  unfold contains.
  induction m as [|[k0 v0] m IH]; cbn [replace lookup].
  - now destruct (k' =? k).
  - destruct (Z.eqb_spec k0 k) as [E|D]; cbn [lookup].
    + destruct (Z.eqb_spec k0 k') as [E'|D'], (Z.eqb_spec k' k) as [E''|D''];
        try reflexivity; congruence.
    + rewrite IH.
      destruct (Z.eqb_spec k0 k') as [E'|D'], (Z.eqb_spec k' k) as [E''|D''];
        try reflexivity; congruence.
Qed.

Lemma lookup_assign k v m k' :
  lookup k' (assign k v m) = if k' =? k then Some v else lookup k' m.
Proof.
  unfold assign. destruct (contains k m) eqn:C.
  - rewrite lookup_replace, C. reflexivity.
  - apply lookup_insert_at. unfold contains in C.
    destruct (lookup k m); [discriminate | reflexivity].
Qed.

Lemma lookup_erase k m k' :
  lookup k' (erase k m) = if k' =? k then None else lookup k' m.
Proof.
  unfold erase.
  induction m as [|[k0 v0] m IH]; cbn [filter lookup fst].
  - now destruct (k' =? k).
  - destruct (Z.eqb_spec k0 k) as [E|D]; cbn [negb lookup]; rewrite IH;
      destruct (Z.eqb_spec k0 k') as [E'|D'], (Z.eqb_spec k' k) as [E''|D''];
      try reflexivity; congruence.
Qed.

Lemma contains_assign k v m k' :
  contains k' (assign k v m) = (k' =? k) || contains k' m.
Proof.
  unfold contains at 1. rewrite lookup_assign. unfold contains.
  destruct (k' =? k); reflexivity.
Qed.

Lemma lookup_clear b m k : lookup k (clear b m) = None.
Proof. reflexivity. Qed.

Lemma lookup_In k v m : lookup k m = Some v -> In (k, v) m.
Proof.
  induction m as [|[k0 v0] m IH]; cbn [lookup]; [discriminate|].
  destruct (Z.eqb_spec k0 k) as [->|D].
  - intros [= ->]. now left.
  - intros L. right. auto.
Qed.

Lemma lookup_None k m : lookup k m = None <-> ~ In k (keys m).
Proof.
  unfold keys.
  induction m as [|[k0 v0] m IH]; cbn [lookup map In fst]; [tauto|].
  destruct (Z.eqb_spec k0 k) as [->|D].
  - split; [discriminate | tauto].
  - rewrite IH. tauto.
Qed.

Lemma contains_In k m : contains k m = true <-> In k (keys m).
Proof.
  unfold contains. pose proof (lookup_None k m) as N.
  destruct (lookup k m).
  - split; [intros _|reflexivity].
    destruct (in_dec Z.eq_dec k (keys m)) as [I|I]; [exact I|].
    apply N in I. discriminate.
  - split; [discriminate|]. intros I. exfalso. apply (proj1 N eq_refl I).
Qed.

Lemma In_lookup k v m : NoDup (keys m) -> In (k, v) m -> lookup k m = Some v.
Proof.
  unfold keys.
  induction m as [|[k0 v0] m IH]; cbn [lookup map In fst]; [tauto|].
  intros ND [[= -> ->]|I].
  - now rewrite Z.eqb_refl.
  - inversion ND as [|? ? NI ND']; subst.
    destruct (Z.eqb_spec k0 k) as [->|D].
    + exfalso. apply NI. apply (in_map fst) in I. exact I.
    + auto.
Qed.

End WithEnv.
End HashMapFacts.
Import HashMapFacts.

Section WithEnv.
Context `{Env}.

(** C8. [addObject] stops at its assertion when the object's id is
    already a key of the objects map. Otherwise it returns, the
    objects map and the added-objects map hold the pointer under that
    id and are unchanged elsewhere, and a drawable object becomes the
    first entry of the view, before everything the view held, whatever
    its id or planarity; a non-drawable object leaves the view as it
    was. *)
Theorem addObject_front (h : Heap) (a : Area) (obj : ptr) (o : Object) :
  deref h obj = Some o ->
  let id := to_uint16 (getObjectID o) in
  (HashMap.contains id (_objectsByID a) = true ->
   addObject h a obj = AssertionFailed)
  /\ (HashMap.contains id (_objectsByID a) = false ->
      exists a',
        addObject h a obj = Returned a'
        /\ (forall k, HashMap.lookup k (_objectsByID a')
                      = if k =? id then Some obj
                        else HashMap.lookup k (_objectsByID a))
        /\ (forall k, HashMap.lookup k (_addedObjects a')
                      = if k =? id then Some obj
                        else HashMap.lookup k (_addedObjects a))
        /\ _drawableObjects a'
           = (if isDrawable o then obj :: _drawableObjects a
              else _drawableObjects a)
        /\ _entrancesByID a' = _entrancesByID a
        /\ _colorRemaps a' = _colorRemaps a).
Proof.
  intros D. cbv zeta. unfold addObject. rewrite D. split.
  - intros C. now rewrite C.
  - intros C. rewrite C. eexists. split; [reflexivity|].
    cbn [set_objects _objectsByID _addedObjects _drawableObjects _entrancesByID
         _colorRemaps].
    split; [intros k; apply lookup_assign|].
    split; [intros k; apply lookup_assign|]. auto.
Qed.

(** C10. After [unremapColor(i)] the colour-remap map has no entry
    at all, whatever [i] and whatever it held; the index only reaches
    [clear] as its boolean argument. Nothing else in the area changes. *)
Theorem unremapColor_clears (a : Area) (index : Z) :
  _colorRemaps (unremapColor a index) = HashMap.empty
  /\ HashMap.size (_colorRemaps (unremapColor a index)) = 0
  /\ (forall k, HashMap.lookup k (_colorRemaps (unremapColor a index)) = None)
  /\ unremapColor a index
     = set_colorRemaps a (HashMap.clear (negb (index =? 0)) (_colorRemaps a))
  /\ _objectsByID (unremapColor a index) = _objectsByID a
  /\ _drawableObjects (unremapColor a index) = _drawableObjects a.
Proof. repeat split. Qed.

End WithEnv.

(** *** Saving and loading *)


(** *** Floats as bit patterns *)
Lemma digits2_pos_bounds m :
  2 ^ (Zpos (digits2_pos m) - 1) <= Zpos m < 2 ^ Zpos (digits2_pos m).
Proof.
  induction m as [m IH|m IH|]; cbn [digits2_pos].
  - rewrite Pos2Z.inj_succ.
    replace (Z.succ (Zpos (digits2_pos m)) - 1)
      with (Z.succ (Zpos (digits2_pos m) - 1)) by lia.
    rewrite !Z.pow_succ_r by lia. lia.
  - rewrite Pos2Z.inj_succ.
    replace (Z.succ (Zpos (digits2_pos m)) - 1)
      with (Z.succ (Zpos (digits2_pos m) - 1)) by lia.
    rewrite !Z.pow_succ_r by lia. lia.
  - cbn. lia.
Qed.

Lemma valid_finite s m e :
  F32.valid (S754_finite s m e) = true ->
  (8388608 <= Zpos m < 16777216 /\ -149 <= e <= 104)
  \/ (Zpos m < 8388608 /\ e = -149).
Proof.
  unfold F32.valid, valid_binary, bounded, canonical_mantissa, fexp, emin,
    F32.prec, F32.emax.
  intros V. apply andb_true_iff in V. destruct V as [C B].
  apply Z.eqb_eq in C. apply Z.leb_le in B.
  pose proof (digits2_pos_bounds m) as D.
  set (d := Zpos (digits2_pos m)) in *.
  assert (d >= 1) by (unfold d; lia).
  destruct (Z.max_spec (d + e - 24) (3 - 128 - 24)) as [[L E]|[L E]]; rewrite E in C.
  - right. split; [|lia]. assert (d <= 23) by lia.
    assert (2 ^ d <= 2 ^ 23) by (apply Z.pow_le_mono_r; lia).
    change (2 ^ 23) with 8388608 in *. lia.
  - left. assert (d = 24) as Hd by lia. rewrite Hd in D.
    change (2 ^ (24 - 1)) with 8388608 in D. change (2 ^ 24) with 16777216 in D. lia.
Qed.

Lemma to_bits_range x : F32.valid x = true -> 0 <= F32.to_bits x < 4294967296.
Proof.
  destruct x as [[]|[]| |s m e];
    [intros _; vm_compute; split; [discriminate|reflexivity] .. |].
  intros V. apply valid_finite in V. unfold F32.to_bits, F32.sign_bit.
  destruct (Z.leb_spec 8388608 (Zpos m)); destruct s; lia.
Qed.

Lemma of_to_bits x : F32.valid x = true -> F32.of_bits (F32.to_bits x) = x.
Proof.
  destruct x as [[]|[]| |s m e]; [intros _; vm_compute; reflexivity .. |].
  intros V. apply valid_finite in V. unfold F32.to_bits, F32.of_bits, F32.sign_bit.
  destruct (Z.leb_spec 8388608 (Zpos m)) as [L|L].
  - destruct V as [[M E]|[M E]]; [|lia].
    set (b := (if s then 2147483648 else 0) + (e + 150) * 8388608 + (Z.pos m - 8388608)).
    assert (Hs : (2147483648 <=? b) = s).
    { unfold b. destruct s; [apply Z.leb_le | apply Z.leb_gt]; lia. }
    assert (HE : (b / 8388608) mod 256 = e + 150).
    { unfold b. destruct s; Z.div_mod_to_equations; lia. }
    assert (HF : b mod 8388608 = Zpos m - 8388608).
    { unfold b. destruct s; Z.div_mod_to_equations; lia. }
    rewrite Hs, HE, HF.
    replace (e + 150 =? 0) with false by (symmetry; apply Z.eqb_neq; lia).
    replace (e + 150 =? 255) with false by (symmetry; apply Z.eqb_neq; lia).
    f_equal; [|lia].
    replace (Zpos m - 8388608 + 8388608) with (Zpos m) by lia. reflexivity.
  - destruct V as [[M E]|[M E]]; [lia|]. subst e.
    set (b := (if s then 2147483648 else 0) + Zpos m).
    assert (Hs : (2147483648 <=? b) = s).
    { unfold b. destruct s; [apply Z.leb_le | apply Z.leb_gt]; lia. }
    assert (HE : (b / 8388608) mod 256 = 0).
    { unfold b. destruct s; Z.div_mod_to_equations; lia. }
    assert (HF : b mod 8388608 = Zpos m).
    { unfold b. destruct s; Z.div_mod_to_equations; lia. }
    rewrite Hs, HE, HF. change (0 =? 0) with true. cbv iota.
    replace (Zpos m =? 0) with false by reflexivity. reflexivity.
Qed.

(** *** Streams *)
Lemma Z_of_byte_of_Z z : Z_of_byte (byte_of_Z z) = z mod 256.
Proof.
  unfold Z_of_byte, byte_of_Z.
  pose proof (Z.mod_pos_bound z 256 ltac:(lia)) as B.
  destruct (Byte.of_N (Z.to_N (z mod 256))) as [b|] eqn:E.
  - apply Byte.to_of_N in E. rewrite E. lia.
  - apply Byte.of_N_None_iff in E. lia.
Qed.

Lemma readUint32LE_write n rest :
  readUint32LE (writeUint32LE n ++ rest) = Some (to_uint32 n, rest).
Proof.
  unfold writeUint32LE, readUint32LE. cbn [app]. rewrite !Z_of_byte_of_Z.
  f_equal. f_equal. unfold to_uint32.
  pose proof (Z.mod_pos_bound n 4294967296 ltac:(lia)) as B.
  set (v := n mod 4294967296) in *. clearbody v.
  Z.div_mod_to_equations. lia.
Qed.

Lemma read32_write n rest :
  0 <= n < 4294967296 -> read32 (writeUint32LE n ++ rest) = Done (n, rest).
Proof.
  intros R. unfold read32. rewrite readUint32LE_write. unfold to_uint32.
  now rewrite Z.mod_small.
Qed.

Lemma to_int32_uint32 n : isInt32 n -> to_int32 (to_uint32 n) = n.
Proof.
  unfold to_int32, to_uint32, isInt32. intros R. Z.div_mod_to_equations. lia.
Qed.

Lemma read32_write_wrapped n rest :
  read32 (writeUint32LE n ++ rest) = Done (to_uint32 n, rest).
Proof. unfold read32. now rewrite readUint32LE_write. Qed.

Lemma readF_write x rest :
  F32.valid x = true -> readF (writeFloatLE x ++ rest) = Done (x, rest).
Proof.
  intros V. unfold readF, readFloatLE, writeFloatLE. rewrite readUint32LE_write.
  unfold to_uint32. rewrite Z.mod_small by (apply to_bits_range, V).
  now rewrite of_to_bits.
Qed.

(** *** The heap *)
Lemma deref_length h p o : deref h p = Some o -> (p < length h)%nat.
Proof. intros D. apply nth_error_Some. unfold deref in D. congruence. Qed.

Lemma deref_store_same h p o x : deref h p = Some x -> deref (store h p o) p = Some o.
Proof.
  unfold deref. revert p. induction h as [|y h IH]; intros [|p] D; cbn in *; try discriminate.
  - reflexivity.
  - auto.
Qed.

Lemma deref_store_other h p o q : p <> q -> deref (store h p o) q = deref h q.
Proof.
  unfold deref. revert p q. induction h as [|y h IH]; intros [|p] [|q] D; cbn; try reflexivity.
  - congruence.
  - apply IH. congruence.
Qed.

Lemma deref_alloc_old h x p o : deref h p = Some o -> deref (h ++ [x]) p = Some o.
Proof.
  intros D. unfold deref in *. rewrite nth_error_app1; [exact D|].
  apply nth_error_Some. congruence.
Qed.

Lemma deref_alloc_new h x : deref (h ++ [x]) (length h) = Some x.
Proof. unfold deref. rewrite nth_error_app2 by lia. now rewrite Nat.sub_diag. Qed.


Section WithEnv.
Context `{Env}.

Lemma wfMap_lookup h m k p :
  wfMap h m -> HashMap.lookup k m = Some p ->
  0 <= k < 65536 /\ exists o, deref h p = Some o /\ getObjectID o = k.
Proof. intros [_ W] L. apply W. now apply lookup_In. Qed.

Lemma wfMap_inj h m k k' p :
  wfMap h m -> HashMap.lookup k m = Some p -> HashMap.lookup k' m = Some p -> k = k'.
Proof.
  intros W L L'.
  destruct (wfMap_lookup _ _ _ _ W L) as (_ & o & D & I).
  destruct (wfMap_lookup _ _ _ _ W L') as (_ & o' & D' & I'). congruence.
Qed.

(** Writing flags and origin through a pointer keeps every id. *)
Lemma wfMap_store h m p o x :
  wfMap h m -> deref h p = Some o -> getObjectID x = getObjectID o ->
  wfMap (store h p x) m.
Proof.
  intros [ND W] D I. split; [exact ND|]. intros k q K.
  destruct (W k q K) as (R & oq & Dq & Iq). split; [exact R|].
  destruct (Nat.eq_dec p q) as [<-|N].
  - exists x. split; [eapply deref_store_same; eauto | congruence].
  - exists oq. split; [now rewrite deref_store_other | exact Iq].
Qed.

Lemma wfMap_alloc h m x : wfMap h m -> wfMap (h ++ [x]) m.
Proof.
  intros [ND W]. split; [exact ND|]. intros k q K.
  destruct (W k q K) as (R & oq & Dq & Iq). split; [exact R|].
  exists oq. split; [now apply deref_alloc_old | exact Iq].
Qed.

Lemma keys_insert_at (m : ObjectMap) n k p :
  HashMap.keys (firstn n m ++ (k, p) :: skipn n m)
  = firstn n (HashMap.keys m) ++ k :: skipn n (HashMap.keys m).
Proof.
  unfold HashMap.keys. rewrite map_app. cbn [map fst].
  now rewrite firstn_map, skipn_map.
Qed.

Lemma NoDup_insert_at (l : list Z) n k :
  NoDup l -> ~ In k l -> NoDup (firstn n l ++ k :: skipn n l).
Proof.
  intros ND NI. apply NoDup_Add with (a := k) (l := firstn n l ++ skipn n l).
  - apply Add_app.
  - rewrite firstn_skipn. split; assumption.
Qed.

Lemma In_insert_at {A} (l : list A) n x y :
  In y (firstn n l ++ x :: skipn n l) <-> y = x \/ In y l.
Proof.
  rewrite in_app_iff. cbn [In]. rewrite <- (firstn_skipn n l) at 3.
  rewrite in_app_iff. intuition congruence.
Qed.

Lemma wfMap_assign_new h (m : ObjectMap) k p o :
  wfMap h m -> HashMap.contains k m = false -> 0 <= k < 65536 ->
  deref h p = Some o -> getObjectID o = k ->
  wfMap h (HashMap.assign k p m).
Proof.
  intros [ND W] C R D I. unfold HashMap.assign. rewrite C.
  assert (NI : ~ In k (HashMap.keys m)).
  { intros K. apply contains_In in K. congruence. }
  split.
  - rewrite keys_insert_at. now apply NoDup_insert_at.
  - intros k' q K. apply In_insert_at in K. destruct K as [[= -> ->]|K].
    + split; [exact R|]. eauto.
    + auto.
Qed.

Lemma keys_assign_new (m : ObjectMap) k p k' :
  HashMap.contains k m = false ->
  In k' (HashMap.keys (HashMap.assign k p m)) <-> k' = k \/ In k' (HashMap.keys m).
Proof.
  intros C. unfold HashMap.assign. rewrite C, keys_insert_at. apply In_insert_at.
Qed.

Lemma savedState_spec h a k :
  savedState h a k
  = match HashMap.lookup k (_objectsByID a) with
    | Some p =>
        match deref h p with
        | Some o => Some (getObjectFlags o, getOrigin o)
        | None => None
        end
    | None => None
    end.
Proof. reflexivity. Qed.

(** One record placed in an area: the object of that key now holds
    the flags and the origin read, and no other key is disturbed. *)
Lemma placeObject_ok global k f x y z h a :
  wfMap h (_objectsByID a) -> wfMap h (_objectsByID global) ->
  0 <= k < 65536 ->
  (In k (HashMap.keys (_objectsByID a)) \/ In k (HashMap.keys (_objectsByID global))) ->
  exists h' a',
    placeObject global k f x y z h a = Done (h', a')
    /\ wfMap h' (_objectsByID a') /\ wfMap h' (_objectsByID global)
    /\ savedState h' a' k = Some (f, vec x y z)
    /\ (forall k', k' <> k -> savedState h' a' k' = savedState h a k')
    /\ (forall k', In k' (HashMap.keys (_objectsByID a'))
                   <-> k' = k \/ In k' (HashMap.keys (_objectsByID a)))
    /\ _colorRemaps a' = _colorRemaps a.
Proof.
  intros Wa Wg R Src. unfold placeObject.
  destruct (HashMap.contains k (_objectsByID a)) eqn:C.
  - (* the key is in the area *)
    unfold HashMap.contains in C.
    destruct (HashMap.lookup k (_objectsByID a)) as [p|] eqn:L; [|discriminate].
    destruct (wfMap_lookup _ _ _ _ Wa L) as (_ & o & D & I).
    cbn [bind]. rewrite D.
    set (o' := setOrigin (setObjectFlags o f) (vec x y z)).
    assert (I' : getObjectID o' = getObjectID o) by reflexivity.
    exists (store h p o'), a. split; [reflexivity|].
    split; [eapply wfMap_store; eauto|]. split; [eapply wfMap_store; eauto|].
    split; [|split; [|split]].
    + rewrite savedState_spec, L. erewrite deref_store_same by eauto. reflexivity.
    + intros k' N. rewrite !savedState_spec.
      destruct (HashMap.lookup k' (_objectsByID a)) as [q|] eqn:L'; [|reflexivity].
      rewrite deref_store_other; [reflexivity|].
      intros <-. apply N. symmetry. exact (wfMap_inj _ _ _ _ _ Wa L L').
    + intros k'. split; [auto|]. intros [->|K]; [|exact K].
      apply contains_In. unfold HashMap.contains. now rewrite L.
    + reflexivity.
  - (* the key is duplicated from the global area *)
    assert (G : In k (HashMap.keys (_objectsByID global))).
    { destruct Src as [K|K]; [|exact K]. apply contains_In in K. congruence. }
    apply contains_In in G. unfold objectWithID, objectWithIDFromMap. rewrite G.
    cbn [negb]. unfold HashMap.contains in G.
    destruct (HashMap.lookup k (_objectsByID global)) as [g|] eqn:Lg; [|discriminate].
    destruct (wfMap_lookup _ _ _ _ Wg Lg) as (_ & o & D & I).
    rewrite D. unfold alloc, duplicate.
    assert (Dn : deref (h ++ [o]) (length h) = Some o) by apply deref_alloc_new.
    unfold addObject. rewrite Dn. rewrite I.
    replace (to_uint16 k) with k by (unfold to_uint16; now rewrite Z.mod_small).
    rewrite C. cbn [bind]. 
    cbn [set_objects _objectsByID _colorRemaps].
    rewrite Dn.
    set (o' := setOrigin (setObjectFlags o f) (vec x y z)).
    assert (I' : getObjectID o' = getObjectID o) by reflexivity.
    set (a' := set_objects a _ _ _).
    assert (Wa' : wfMap (h ++ [o]) (_objectsByID a')).
    { unfold a'. cbn [set_objects _objectsByID].
      apply wfMap_assign_new with (o := o); auto. now apply wfMap_alloc. }
    exists (store (h ++ [o]) (length h) o'), a'. split; [reflexivity|].
    split; [eapply wfMap_store; eauto|].
    split; [eapply wfMap_store; [apply wfMap_alloc|..]; eauto|].
    split; [|split; [|split]].
    + rewrite savedState_spec. unfold a'. cbn [set_objects _objectsByID].
      rewrite lookup_assign, Z.eqb_refl. erewrite deref_store_same by eauto.
      reflexivity.
    + intros k' N. rewrite !savedState_spec. unfold a'.
      cbn [set_objects _objectsByID]. rewrite lookup_assign.
      replace (k' =? k) with false by (symmetry; apply Z.eqb_neq; exact N).
      destruct (HashMap.lookup k' (_objectsByID a)) as [q|] eqn:L'; [|reflexivity].
      destruct (wfMap_lookup _ _ _ _ Wa L') as (_ & oq & Dq & Iq).
      rewrite deref_store_other
        by (apply deref_length in Dq; lia).
      rewrite (deref_alloc_old _ o _ _ Dq). now rewrite Dq.
    + intros k'. unfold a'. cbn [set_objects _objectsByID].
      now apply keys_assign_new.
    + reflexivity.
Qed.

Lemma loadObject_encode global k f v rest h a :
  0 <= k < 65536 -> 0 <= f < 4294967296 ->
  F32.valid (vx v) = true -> F32.valid (vy v) = true -> F32.valid (vz v) = true ->
  loadObject global (encodeObject k f v ++ rest) h a
  = bind (placeObject global k f (vx v) (vy v) (vz v) h a)
      (fun r => Done (rest, fst r, snd r)).
Proof.
  intros K F X Y Z. unfold loadObject, encodeObject.
  rewrite <- !app_assoc.
  rewrite read32_write by lia. cbn [bind].
  rewrite read32_write by lia. cbn [bind].
  rewrite !readF_write by assumption. cbn [bind].
  rewrite !readF_write by assumption. cbn [bind].
  rewrite !readF_write by assumption. cbn [bind].
  replace (to_uint16 k) with k by (unfold to_uint16; now rewrite Z.mod_small).
  destruct (placeObject global k f (vx v) (vy v) (vz v) h a) as [[h' a']| |];
    reflexivity.
Qed.

(** The first loop run on what [saveObjects] wrote for the entries
    [es] of a map whose objects live in [h1]. *)
Lemma loadObjectsLoop_ok global h1 : forall (es : ObjectMap) rest h a,
  NoDup (HashMap.keys es) ->
  (forall k p, In (k, p) es ->
     0 <= k < 65536 /\ exists o, deref h1 p = Some o /\ wfObject o) ->
  wfMap h (_objectsByID a) -> wfMap h (_objectsByID global) ->
  (forall k, In k (HashMap.keys es) ->
     In k (HashMap.keys (_objectsByID a))
     \/ In k (HashMap.keys (_objectsByID global))) ->
  exists h' a',
    loadObjectsLoop (length es) global (flat_map (saveObject h1) es ++ rest) h a
    = Done (rest, h', a')
    /\ wfMap h' (_objectsByID a') /\ wfMap h' (_objectsByID global)
    /\ (forall k p o, In (k, p) es -> deref h1 p = Some o ->
          savedState h' a' k = Some (getObjectFlags o, getOrigin o))
    /\ (forall k', ~ In k' (HashMap.keys es) ->
          savedState h' a' k' = savedState h a k')
    /\ (forall k', In k' (HashMap.keys (_objectsByID a'))
                   <-> In k' (HashMap.keys es)
                       \/ In k' (HashMap.keys (_objectsByID a)))
    /\ _colorRemaps a' = _colorRemaps a.
Proof.
  induction es as [|[k p] es IH]; intros rest h a ND W Wa Wg Src.
  - exists h, a. split; [reflexivity|]. split; [exact Wa|]. split; [exact Wg|].
    split; [intros ? ? ? []|]. split; [reflexivity|].
    split; [|reflexivity]. intros k'. cbn. tauto.
  - cbn [HashMap.keys map fst] in ND. inversion ND as [|? ? NI ND']; subst.
    destruct (W k p (or_introl eq_refl)) as (R & o & D & (F & X & Y & Z)).
    cbn [length loadObjectsLoop flat_map]. unfold saveObject at 1. cbn [fst snd].
    rewrite D, <- app_assoc.
    rewrite loadObject_encode by assumption.
    destruct (placeObject_ok global k (getObjectFlags o) (vx (getOrigin o))
                (vy (getOrigin o)) (vz (getOrigin o)) h a Wa Wg R
                (Src k (or_introl eq_refl)))
      as (h2 & a2 & P & Wa2 & Wg2 & S2 & O2 & K2 & C2).
    rewrite P. cbn [bind fst snd].
    destruct (IH rest h2 a2 ND') as (h3 & a3 & L & Wa3 & Wg3 & S3 & O3 & K3 & C3);
      auto.
    + intros k' p' I'. apply W. now right.
    + intros k' I'. destruct (Src k' (or_intror I')) as [A|G]; [|now right].
      left. apply K2. now right.
    + exists h3, a3. split; [exact L|]. split; [exact Wa3|]. split; [exact Wg3|].
      split; [|split; [|split]].
      * intros k' p' o' [[= -> ->]|I'] D'.
        -- rewrite O3 by exact NI. rewrite S2. rewrite D in D'. injection D' as <-.
           destruct (getOrigin o); reflexivity.
        -- eapply S3; eauto.
      * intros k' N. cbn [HashMap.keys map fst In] in N.
        rewrite O3 by (unfold HashMap.keys; tauto). apply O2.
        intros ->. apply N. now left.
      * intros k'. rewrite K3, K2. cbn [HashMap.keys map fst In]. 
        unfold HashMap.keys. intuition congruence.
      * congruence.
Qed.

Lemma loadRemapsLoop_ok : forall (es : HashMap.t Z) rest a,
  (forall k v, In (k, v) es -> isInt32 k /\ isInt32 v) ->
  loadRemapsLoop (length es) (flat_map saveRemap es ++ rest) a
  = Done (rest, set_colorRemaps a (assignAll es (_colorRemaps a))).
Proof.
  induction es as [|[k v] es IH]; intros rest a R.
  - cbn. destruct a; reflexivity.
  - destruct (R k v (or_introl eq_refl)) as [Rk Rv].
    cbn [length loadRemapsLoop flat_map]. unfold saveRemap at 1. cbn [fst snd].
    rewrite <- !app_assoc.
    rewrite read32_write_wrapped. cbn [bind].
    rewrite read32_write_wrapped. cbn [bind].
    rewrite !to_int32_uint32 by assumption.
    rewrite IH by (intros k' v' I'; apply R; now right).
    reflexivity.
Qed.

Lemma lookup_assignAll : forall (es m : HashMap.t Z) i,
  NoDup (HashMap.keys es) ->
  HashMap.lookup i (assignAll es m)
  = match HashMap.lookup i es with
    | Some v => Some v
    | None => HashMap.lookup i m
    end.
Proof.
  unfold assignAll.
  induction es as [|[k v] es IH]; intros m i ND; cbn [fold_left]; [reflexivity|].
  cbn [HashMap.keys map fst] in ND. inversion ND as [|? ? NI ND']; subst.
  rewrite IH by exact ND'. cbn [fst snd HashMap.lookup]. rewrite lookup_assign.
  destruct (Z.eqb_spec k i) as [->|N].
  - rewrite Z.eqb_refl.
    apply lookup_None in NI. unfold HashMap.keys. now rewrite NI.
  - replace (i =? k) with false by (symmetry; apply Z.eqb_neq; congruence).
    reflexivity.
Qed.

Lemma NoDup_bounded_length (l : list Z) (N : Z) :
  0 <= N -> NoDup l -> (forall k, In k l -> 0 <= k < N) ->
  Z.of_nat (length l) <= N.
Proof.
  intros P ND B.
  assert (L : (length l <= length (map Z.of_nat (seq 0 (Z.to_nat N))))%nat).
  { apply NoDup_incl_length; [exact ND|].
    intros k K. apply in_map_iff. exists (Z.to_nat k).
    specialize (B k K). split; [lia|]. apply in_seq. lia. }
  rewrite length_map, length_seq in L. lia.
Qed.

Lemma wfMap_size h (m : ObjectMap) : wfMap h m -> 0 <= HashMap.size m <= 65536.
Proof.
  intros [ND W]. unfold HashMap.size.
  assert (Z.of_nat (length (HashMap.keys m)) <= 65536).
  { apply NoDup_bounded_length; [lia | exact ND|]. intros k K.
    unfold HashMap.keys in K. apply in_map_iff in K.
    destruct K as ([k' p] & E & I). cbn in E. subst k'. apply (W k p I). }
  unfold HashMap.keys in *. rewrite length_map in *. lia.
Qed.

(** What [saveObjects] writes for a map depends on its keys in storage
    order and on the saved state under each key. *)
Lemma saveObject_by_key h a :
  wfMap h (_objectsByID a) ->
  flat_map (saveObject h) (_objectsByID a)
  = flat_map (fun k => match savedState h a k with
                       | Some (f, v) => encodeObject k f v
                       | None => []
                       end) (HashMap.keys (_objectsByID a)).
Proof.
  intros [ND W]. unfold HashMap.keys. rewrite !flat_map_concat_map, map_map.
  f_equal. apply map_ext_in. intros [k p] I. cbn [fst].
  rewrite savedState_spec, (In_lookup k p _ ND I).
  unfold saveObject. cbn [fst snd]. destruct (deref h p); reflexivity.
Qed.

Lemma to_int32_small n : 0 <= n < 2147483648 -> to_int32 n = n.
Proof. unfold to_int32. intros R. Z.div_mod_to_equations. lia. Qed.

Lemma keys_insert_at_gen {V} (m : HashMap.t V) n k v :
  HashMap.keys (firstn n m ++ (k, v) :: skipn n m)
  = firstn n (HashMap.keys m) ++ k :: skipn n (HashMap.keys m).
Proof.
  unfold HashMap.keys. rewrite map_app. cbn [map fst].
  now rewrite firstn_map, skipn_map.
Qed.

Lemma NoDup_keys_assignAll : forall (es m : HashMap.t Z),
  NoDup (HashMap.keys es) -> NoDup (HashMap.keys m) ->
  (forall k, In k (HashMap.keys es) -> ~ In k (HashMap.keys m)) ->
  NoDup (HashMap.keys (assignAll es m)).
Proof.
  unfold assignAll.
  induction es as [|[k v] es IH]; intros m ND NDm Dis; cbn [fold_left]; [exact NDm|].
  cbn [HashMap.keys map fst] in ND. inversion ND as [|? ? NI ND']; subst.
  cbn [fst snd].
  assert (C : HashMap.contains k m = false).
  { destruct (HashMap.contains k m) eqn:C; [|reflexivity].
    apply contains_In in C. exfalso. apply (Dis k); [now left | exact C]. }
  apply IH; [exact ND' | |].
  - unfold HashMap.assign. rewrite C, keys_insert_at_gen.
    apply NoDup_insert_at; [exact NDm|]. apply Dis. now left.
  - intros k' K' I'. unfold HashMap.assign in I'.
    rewrite C, keys_insert_at_gen in I'. apply In_insert_at in I'.
    destruct I' as [->|I']; [exact (NI K')|].
    apply (Dis k'); [now right | exact I'].
Qed.

Lemma NoDup_entries {V} (m : HashMap.t V) : NoDup (HashMap.keys m) -> NoDup m.
Proof. apply NoDup_map_inv. Qed.

(** Two tables with distinct keys and the same bindings hold the same
    entries, possibly in another storage order. *)
Lemma same_bindings_Permutation {V} (m m' : HashMap.t V) :
  NoDup (HashMap.keys m) -> NoDup (HashMap.keys m') ->
  (forall k, HashMap.lookup k m' = HashMap.lookup k m) ->
  Permutation m' m.
Proof.
  intros ND ND' E. apply NoDup_Permutation; try now apply NoDup_entries.
  intros [k v]. split; intros I.
  - apply lookup_In. rewrite <- E. now apply In_lookup.
  - apply lookup_In. rewrite E. now apply In_lookup.
Qed.

(** C7, as the code has it. Take an area in order, and a freshly
    built area none of whose object ids is missing from it, every id
    the fresh area lacks being a key of the global area's objects map.
    Then [loadObjects] runs to its end on the stream [saveObjects]
    wrote, after which every object id has the saved flags and origin
    (and ids the saved area did not have are still absent), the colour
    remaps are the saved ones, and both maps hold the saved keys and
    entries up to storage order. Saving again writes the same bytes
    when the two maps moreover come out in the saved storage order. *)
Theorem loadObjects_saveObjects (h1 : Heap) (a1 : Area) (h2 : Heap)
    (fresh global : Area) :
  wfArea h1 a1 ->
  wfMap h2 (_objectsByID fresh) -> wfMap h2 (_objectsByID global) ->
  (forall k, In k (HashMap.keys (_objectsByID fresh)) ->
     In k (HashMap.keys (_objectsByID a1))) ->
  (forall k, In k (HashMap.keys (_objectsByID a1)) ->
     In k (HashMap.keys (_objectsByID fresh))
     \/ In k (HashMap.keys (_objectsByID global))) ->
  exists h3 a3,
    loadObjects (saveObjects h1 a1) global h2 fresh = Done (h3, a3)
    /\ (forall id, savedState h3 a3 id = savedState h1 a1 id)
    /\ (forall i, HashMap.lookup i (_colorRemaps a3)
                  = HashMap.lookup i (_colorRemaps a1))
    /\ Permutation (HashMap.keys (_objectsByID a3)) (HashMap.keys (_objectsByID a1))
    /\ Permutation (_colorRemaps a3) (_colorRemaps a1)
    /\ (HashMap.keys (_objectsByID a3) = HashMap.keys (_objectsByID a1) ->
        _colorRemaps a3 = _colorRemaps a1 ->
        saveObjects h3 a3 = saveObjects h1 a1).
Proof.
  intros (W1 & O1 & NDr & Rr & Sr) Wf Wg Sub Src.
  pose proof (wfMap_size _ _ W1) as Sz.
  unfold loadObjects, saveObjects.
  rewrite read32_write by lia. cbn [bind].
  rewrite to_int32_small by lia.
  unfold HashMap.size at 1. rewrite Nat2Z.id.
  rewrite <- (app_nil_r (flat_map saveRemap (_colorRemaps a1))).
  destruct (loadObjectsLoop_ok global h1 (_objectsByID a1)
              (writeUint32LE (HashMap.size (_colorRemaps a1))
               ++ flat_map saveRemap (_colorRemaps a1) ++ []) h2 fresh)
    as (h3 & a' & L & Wa' & Wg' & S3 & O3 & K3 & C3); auto.
  { apply W1. }
  { intros k p I. destruct W1 as [_ W]. destruct (W k p I) as (R & o & D & _).
    split; [exact R|]. exists o. split; [exact D|]. eapply O1; eauto. }
  rewrite L. cbn [bind].
  assert (Szr : 0 <= HashMap.size (_colorRemaps a1)) by (unfold HashMap.size; lia).
  rewrite read32_write by lia. cbn [bind].
  rewrite to_int32_small by lia.
  unfold HashMap.size at 1. rewrite Nat2Z.id.
  rewrite loadRemapsLoop_ok by exact Rr. cbn [bind].
  eexists. eexists. split; [reflexivity|].
  cbn [set_colorRemaps _objectsByID _colorRemaps HashMap.clear].
  assert (St : forall id, savedState h3 a' id = savedState h1 a1 id).
  { intros id.
    destruct (in_dec Z.eq_dec id (HashMap.keys (_objectsByID a1))) as [I|N].
    - unfold HashMap.keys in I. apply in_map_iff in I.
      destruct I as ([k p] & E & I). cbn in E. subst k.
      destruct W1 as [ND W]. destruct (W id p I) as (_ & o & D & _).
      rewrite (S3 id p o I D), savedState_spec, (In_lookup id p _ ND I), D.
      reflexivity.
    - rewrite O3 by exact N. rewrite !savedState_spec.
      assert (Nf : ~ In id (HashMap.keys (_objectsByID fresh))) by auto.
      apply lookup_None in Nf, N. now rewrite Nf, N. }
  assert (Sa : forall id a m, savedState h3 (set_colorRemaps a m) id = savedState h3 a id)
    by reflexivity.
  assert (Lk : forall i, HashMap.lookup i (assignAll (_colorRemaps a1) [])
                         = HashMap.lookup i (_colorRemaps a1)).
  { intros i. rewrite lookup_assignAll by exact NDr.
    destruct (HashMap.lookup i (_colorRemaps a1)); reflexivity. }
  assert (Pk : Permutation (HashMap.keys (_objectsByID a'))
                 (HashMap.keys (_objectsByID a1))).
  { apply NoDup_Permutation; [apply Wa' | apply W1|].
    intros k. rewrite K3. split; [intros [I|I]; auto | auto]. }
  split; [intros id; rewrite Sa; apply St|]. split; [exact Lk|].
  split; [exact Pk|]. split.
  - apply same_bindings_Permutation; [exact NDr | | exact Lk].
    apply NoDup_keys_assignAll; [exact NDr | constructor | intros ? ? []].
  - intros Ek Er. unfold saveObjects.
    cbn [set_colorRemaps _objectsByID _colorRemaps]. rewrite Er.
    rewrite (saveObject_by_key h3 a' Wa'), (saveObject_by_key h1 a1 W1).
    unfold HashMap.size.
    rewrite <- (length_map fst (_objectsByID a')), <- (length_map fst (_objectsByID a1)).
    fold (HashMap.keys (_objectsByID a')). fold (HashMap.keys (_objectsByID a1)).
    rewrite Ek. f_equal. f_equal.
    + apply flat_map_ext. intros k. now rewrite St.
    + now rewrite app_nil_r.
Qed.

(** *** The view and the map under [addObject] and [removeObject] *)

Lemma linked_viewInMap h a : linked h a -> viewInMap h a.
Proof.
  intros (V & _ & _) p I. destruct (V p I) as (o & D & L).
  exists o. split; [exact D|]. unfold HashMap.contains. now rewrite L.
Qed.

Lemma linked_mapInView h a : linked h a -> mapInView h a.
Proof.
  intros (_ & M & ND) k p o L D Dr.
  destruct (M k p L) as (o' & D' & _ & _ & I).
  rewrite D in D'. injection D' as <-.
  apply NoDup_count_occ'; auto.
Qed.

Lemma insertSorted_Permutation h p l : Permutation (insertSorted h p l) (p :: l).
Proof.
  induction l as [|q l IH]; cbn [insertSorted]; [reflexivity|].
  destruct (comparePtrs h p q); [reflexivity|].
  rewrite IH. apply perm_swap.
Qed.

Lemma sortObjects_Permutation h l : Permutation (sortObjects h l) l.
Proof.
  unfold sortObjects. induction l as [|p l IH]; cbn [fold_right]; [reflexivity|].
  rewrite insertSorted_Permutation. now constructor.
Qed.

Lemma NoDup_values h (m : ObjectMap) : wfMap h m -> NoDup (map snd m).
Proof.
  intros [ND W]. unfold HashMap.keys in ND.
  induction m as [|[k p] m IH]; cbn [map snd]; [constructor|].
  cbn [map fst] in ND. inversion ND as [|? ? NI ND']; subst.
  constructor.
  - intros I. apply in_map_iff in I. destruct I as ([k' p'] & E & I). cbn in E. subst p'.
    destruct (W k p (or_introl eq_refl)) as (_ & o & D & Ik).
    destruct (W k' p (or_intror I)) as (_ & o' & D' & Ik').
    apply NI. apply in_map_iff. exists (k', p). split; [cbn; congruence | exact I].
  - apply IH; [exact ND'|]. intros k' p' I. apply W. now right.
Qed.

(** A freshly built area is linked. *)
Lemma newArea_linked h areaID areaFlags objectsByID entrancesByID :
  wfMap h objectsByID ->
  linked h (newArea h areaID areaFlags objectsByID entrancesByID).
Proof.
  intros W. pose proof W as [ND Wm]. unfold newArea, linked.
  cbn [_drawableObjects _objectsByID].
  set (l := filter (drawablePtr h) (map snd objectsByID)).
  pose proof (sortObjects_Permutation h l) as P.
  split; [|split].
  - intros p I. apply (Permutation_in _ P) in I. unfold l in I.
    apply filter_In in I. destruct I as [I _].
    apply in_map_iff in I. destruct I as ([k p'] & E & I). cbn in E. subst p'.
    destruct (Wm k p I) as (_ & o & D & Ik). exists o. split; [exact D|].
    rewrite Ik. now apply In_lookup.
  - intros k p L. apply lookup_In in L.
    destruct (Wm k p L) as (R & o & D & Ik). exists o.
    split; [exact D|]. split; [exact Ik|]. split; [exact R|].
    intros Dr. apply (Permutation_in _ (Permutation_sym P)). unfold l.
    apply filter_In. split.
    + apply in_map_iff. exists (k, p). auto.
    + unfold drawablePtr. now rewrite D.
  - apply (Permutation_NoDup (Permutation_sym P)). unfold l.
    apply NoDup_filter. now apply NoDup_values with (h := h).
Qed.

Lemma addObject_linked h a obj a' :
  wfHeap h -> linked h a -> addObject h a obj = Returned a' -> linked h a'.
Proof.
  intros Wh (V & M & ND). unfold addObject.
  destruct (deref h obj) as [o|] eqn:D; [|discriminate].
  pose proof (Wh obj o D) as R.
  replace (to_uint16 (getObjectID o)) with (getObjectID o)
    by (unfold to_uint16; now rewrite Z.mod_small).
  destruct (HashMap.contains (getObjectID o) (_objectsByID a)) eqn:C;
    [discriminate|].
  intros [= <-]. unfold linked. cbn [set_objects _objectsByID _drawableObjects].
  assert (Fresh : ~ In obj (_drawableObjects a)).
  { intros I. destruct (V obj I) as (o' & D' & L). rewrite D in D'.
    injection D' as <-. unfold HashMap.contains in C. now rewrite L in C. }
  split; [|split].
  - intros p I.
    assert (Old : In p (_drawableObjects a) ->
                  exists o0, deref h p = Some o0
                    /\ HashMap.lookup (getObjectID o0)
                         (HashMap.assign (getObjectID o) obj (_objectsByID a)) = Some p).
    { intros I'. destruct (V p I') as (o' & D' & L). exists o'. split; [exact D'|].
      rewrite lookup_assign.
      destruct (Z.eqb_spec (getObjectID o') (getObjectID o)) as [E|N]; [|exact L].
      rewrite E in L. unfold HashMap.contains in C. now rewrite L in C. }
    destruct (isDrawable o); [|now apply Old].
    destruct I as [<-|I]; [|now apply Old].
    exists o. split; [exact D|]. now rewrite lookup_assign, Z.eqb_refl.
  - intros k p L. rewrite lookup_assign in L.
    destruct (Z.eqb_spec k (getObjectID o)) as [->|N].
    + injection L as <-. exists o. split; [exact D|]. split; [reflexivity|].
      split; [exact R|]. intros Dr. rewrite Dr. now left.
    + destruct (M k p L) as (o' & D' & I' & R' & In'). exists o'.
      split; [exact D'|]. split; [exact I'|]. split; [exact R'|].
      intros Dr. destruct (isDrawable o); [right|]; auto.
  - destruct (isDrawable o); [|exact ND]. now constructor.
Qed.

Lemma removeFirst_In h id l p : In p (removeFirst h id l) -> In p l.
Proof.
  induction l as [|q l IH]; cbn [removeFirst]; [tauto|].
  destruct (deref h q) as [oq|].
  - destruct (getObjectID oq =? id); [now right|].
    intros [<-|I]; [now left | right; auto].
  - intros [<-|I]; [now left | right; auto].
Qed.

Lemma removeFirst_NoDup h id l : NoDup l -> NoDup (removeFirst h id l).
Proof.
  induction l as [|q l IH]; cbn [removeFirst]; [auto|].
  intros ND. inversion ND as [|? ? NI ND']; subst.
  assert (K : NoDup (q :: removeFirst h id l)).
  { constructor; [|auto]. intros I. apply NI. eapply removeFirst_In; eauto. }
  destruct (deref h q) as [oq|]; [|exact K].
  destruct (getObjectID oq =? id); [exact ND' | exact K].
Qed.

Lemma removeFirst_keeps h id l p o :
  In p l -> deref h p = Some o -> getObjectID o <> id -> In p (removeFirst h id l).
Proof.
  intros I D N. induction l as [|q l IH]; cbn [removeFirst]; [exact I|].
  destruct I as [->|I].
  - rewrite D. replace (getObjectID o =? id) with false
      by (symmetry; now apply Z.eqb_neq). now left.
  - destruct (deref h q) as [oq|]; [|right; auto].
    destruct (getObjectID oq =? id); [exact I | right; auto].
Qed.

Lemma removeFirst_removes h id l :
  NoDup l ->
  (forall p q op oq, In p l -> In q l -> deref h p = Some op -> deref h q = Some oq ->
     getObjectID op = id -> getObjectID oq = id -> p = q) ->
  forall p o, In p (removeFirst h id l) -> deref h p = Some o -> getObjectID o <> id.
Proof.
  induction l as [|q l IH]; cbn [removeFirst]; intros ND U p o I D; [destruct I|].
  inversion ND as [|? ? NI ND']; subst.
  assert (U' : forall p q op oq, In p l -> In q l ->
            deref h p = Some op -> deref h q = Some oq ->
            getObjectID op = id -> getObjectID oq = id -> p = q).
  { intros p1 q1 o1 o2 I1 I2. apply U; now right. }
  destruct (deref h q) as [oq|] eqn:Dq.
  - destruct (Z.eqb_spec (getObjectID oq) id) as [E|N].
    + intros E'. apply NI.
      rewrite (U q p oq o (or_introl eq_refl) (or_intror I) Dq D E E'). exact I.
    + destruct I as [<-|I]; [congruence|]. eapply IH; eauto.
  - destruct I as [<-|I]; [congruence|]. eapply IH; eauto.
Qed.

Lemma removeObject_linked h a id a' :
  0 <= id < 32768 ->
  linked h a -> removeObject h a id = Returned a' -> linked h a'.
Proof.
  intros R (V & M & ND). unfold removeObject.
  replace (to_int16 id) with id
    by (unfold to_int16; Z.div_mod_to_equations; lia).
  replace (to_uint16 id) with id by (unfold to_uint16; now rewrite Z.mod_small by lia).
  destruct (HashMap.contains id (_objectsByID a)); [|discriminate].
  intros [= <-]. unfold linked. cbn [set_objects _objectsByID _drawableObjects negb].
  assert (U : forall p q op oq, In p (_drawableObjects a) -> In q (_drawableObjects a) ->
            deref h p = Some op -> deref h q = Some oq ->
            getObjectID op = id -> getObjectID oq = id -> p = q).
  { intros p q op oq Ip Iq Dp Dq Ep Eq.
    destruct (V p Ip) as (op' & Dp' & Lp). destruct (V q Iq) as (oq' & Dq' & Lq).
    rewrite Dp in Dp'. rewrite Dq in Dq'. injection Dp' as <-. injection Dq' as <-.
    rewrite Ep in Lp. rewrite Eq in Lq. congruence. }
  split; [|split].
  - intros p I. pose proof (removeFirst_In _ _ _ _ I) as I'.
    destruct (V p I') as (o & D & L). exists o. split; [exact D|].
    rewrite lookup_erase.
    replace (getObjectID o =? id) with false; [exact L|].
    symmetry. apply Z.eqb_neq. eapply removeFirst_removes; eauto.
  - intros k p L. rewrite lookup_erase in L.
    destruct (Z.eqb_spec k id) as [E|N]; [discriminate|].
    destruct (M k p L) as (o & D & I & Rk & In'). exists o.
    split; [exact D|]. split; [exact I|]. split; [exact Rk|].
    intros Dr. eapply removeFirst_keeps; eauto. congruence.
  - now apply removeFirst_NoDup.
Qed.

(** From a freshly built area, any run of [addObject] and
    [removeObject] calls whose removed ids lie below 32768 and that
    passes every assertion leaves the view and the map in step. *)
Lemma runCalls_linked h : forall calls a a',
  wfHeap h -> linked h a ->
  (forall id, In (CallRemove id) calls -> 0 <= id < 32768) ->
  runCalls h a calls = Returned a' ->
  viewInMap h a' /\ mapInView h a'.
Proof.
  induction calls as [|[obj|id] calls IH]; intros a a' Wh L R E; cbn [runCalls] in E.
  - injection E as <-. split; [now apply linked_viewInMap | now apply linked_mapInView].
  - destruct (addObject h a obj) as [a1|] eqn:A; [|discriminate].
    apply (IH a1 a'); auto.
    + eapply addObject_linked; eauto.
    + intros id I. apply R. now right.
  - destruct (removeObject h a id) as [a1|] eqn:A; [|discriminate].
    apply (IH a1 a'); auto.
    + eapply removeObject_linked; eauto. apply R. now left.
    + intros id' I. apply R. now right.
Qed.

(** The same from the constructor on. *)
Lemma fresh_area_calls h areaID areaFlags objectsByID entrancesByID calls a' :
  wfHeap h -> wfMap h objectsByID ->
  (forall id, In (CallRemove id) calls -> 0 <= id < 32768) ->
  runCalls h (newArea h areaID areaFlags objectsByID entrancesByID) calls
  = Returned a' ->
  viewInMap h a' /\ mapInView h a'.
Proof.
  intros Wh W R E. eapply runCalls_linked; eauto. now apply newArea_linked.
Qed.

End WithEnv.

(** *** Runs in the sample environment *)
Import Sample.

(** C8 on [areaA]: the id 40000 is taken, so adding [cubeB] stops at
    the assertion. *)
Lemma addObject_front_witness :
  addObject heapAB areaA 1%nat = AssertionFailed.
Proof.
  destruct (addObject_front heapAB areaA 1%nat cubeB eq_refl) as (A & _).
  apply A. vm_compute. reflexivity.
Defined.

(** C9 fails on ids from 32768 on. [removeObject] takes its id as an
    [int16]; the id 40000 arrives as -25536, the map is searched and
    erased under the key 40000, but no object of the view compares
    equal to -25536. The freshly built area keeps the entry of [cubeA]
    in its view after the removal, with no object left in the map; and
    adding [cubeB] under the same id then leaves two view entries for
    the id. *)
Theorem removeObject_keeps_view_entry :
  to_int16 40000 = (-25536)
  /\ viewCount heapAB areaA 40000 = 1%nat
  /\ exists a1 a2,
       removeObject heapAB areaA 40000 = Returned a1
       /\ _objectsByID a1 = []
       /\ _drawableObjects a1 = [0%nat]
       /\ ~ viewInMap heapAB a1
       /\ addObject heapAB a1 1%nat = Returned a2
       /\ _drawableObjects a2 = [1%nat; 0%nat]
       /\ viewCount heapAB a2 40000 = 2%nat.
Proof.
  split; [reflexivity|]. split; [reflexivity|].
  eexists. eexists. split; [vm_compute; reflexivity|].
  split; [reflexivity|]. split; [reflexivity|]. split.
  - intros V. destruct (V 0%nat (or_introl eq_refl)) as (o & D & C).
    injection D as <-. discriminate C.
  - split; [vm_compute; reflexivity|]. split; reflexivity.
Qed.

Lemma wfMap_saved : wfMap heapSaved (_objectsByID areaSaved).
Proof.
  split.
  - repeat constructor; cbn; intuition discriminate.
  - intros k p I. cbn in I. destruct I as [[= <- <-]|[[= <- <-]|[]]].
    + split; [lia|]. eexists. split; reflexivity.
    + split; [lia|]. eexists. split; reflexivity.
Qed.

(** C7 on the sample session: the reloaded area has the saved flags
    and origins under the ids 1 and 2 and the saved remap. *)
Lemma loadObjects_saveObjects_witness :
  exists h3 a3,
    loadObjects (saveObjects heapSaved areaSaved) areaGlobal heapFresh areaFresh
    = Done (h3, a3)
    /\ (forall id, savedState h3 a3 id = savedState heapSaved areaSaved id)
    /\ (forall i, HashMap.lookup i (_colorRemaps a3)
                  = HashMap.lookup i (_colorRemaps areaSaved)).
Proof.
  destruct (loadObjects_saveObjects heapSaved areaSaved heapFresh areaFresh areaGlobal)
    as (h3 & a3 & L & S & R & _).
  - split; [exact wfMap_saved|]. split; [|split; [|split]].
    + intros k p o I D. cbn in I. destruct I as [[= <- <-]|[[= <- <-]|[]]];
        injection D as <-; vm_compute; intuition discriminate.
    + repeat constructor; cbn; intuition discriminate.
    + intros k v I. cbn in I. destruct I as [[= <- <-]|[]]. unfold isInt32. lia.
    + reflexivity.
  - split; [repeat constructor; cbn; intuition discriminate|].
    intros k p I. cbn in I. destruct I as [[= <- <-]|[]].
    split; [lia|]. eexists. split; reflexivity.
  - split; [repeat constructor; cbn; intuition discriminate|].
    intros k p I. cbn in I. destruct I as [[= <- <-]|[]].
    split; [lia|]. eexists. split; reflexivity.
  - intros k I. cbn in I. destruct I as [<-|[]]. cbn. tauto.
  - intros k I. cbn in I. destruct I as [<-|[<-|[]]]; cbn; tauto.
  - exists h3, a3. auto.
Defined.

(** C7 as worded fails for a session that removed an object of the
    level: the stream holds no record, the freshly built area keeps
    its object 1, so that id has a saved state after the load that the
    saved area did not have, and saving again writes another stream. *)
Lemma loadObjects_keeps_removed :
  removeObject heapFresh areaFresh 1 = Returned areaEmptied
  /\ savedState heapFresh areaEmptied 1 = None
  /\ exists a3,
       loadObjects (saveObjects heapFresh areaEmptied) areaNoGlobal heapFresh areaFresh
       = Done (heapFresh, a3)
       /\ savedState heapFresh a3 1 <> savedState heapFresh areaEmptied 1
       /\ saveObjects heapFresh a3 <> saveObjects heapFresh areaEmptied.
Proof.
  split; [reflexivity|]. split; [reflexivity|].
  eexists. split; [vm_compute; reflexivity|]. split.
  - vm_compute. discriminate.
  - vm_compute. discriminate.
Qed.

(** The byte identity of a second save rests on the storage order of
    the tables: over a table that stores new keys in front, reloading
    two remaps gives the same map in the other order, and the bytes of
    the second save differ. *)
Lemma second_save_order :
  exists a3,
    @loadObjects frontEnv (saveObjects [] areaTwoRemaps) areaNoGlobal []
      (newArea [] 1 0 [] [])
    = Done ([], a3)
    /\ (forall i, HashMap.lookup i (_colorRemaps a3)
                  = HashMap.lookup i (_colorRemaps areaTwoRemaps))
    /\ _colorRemaps areaTwoRemaps = [(19, 8); (3, 7)]
    /\ _colorRemaps a3 = [(3, 7); (19, 8)]
    /\ saveObjects [] a3 <> saveObjects [] areaTwoRemaps.
Proof.
  eexists. split; [vm_compute; reflexivity|].
  split; [|split; [reflexivity|split; [reflexivity|]]].
  - intros i.
    change (_colorRemaps areaTwoRemaps) with [(19, 8); (3, 7)].
    cbn [_colorRemaps HashMap.lookup].
    destruct (Z.eqb_spec 3 i) as [E3|N3], (Z.eqb_spec 19 i) as [E19|N19];
      try reflexivity; lia.
  - vm_compute. discriminate.
Qed.

End StoreFacts.

(** ** The overlap query, drawing, reset and teardown *)
Module LifecycleFacts.
Import Store StoreFacts StoreFacts.HashMapFacts Lifecycle.

Section WithEnv.
Context `{Env}.

Lemma checkCollisions_from ds boundingBox : forall acc,
  fold_left
    (fun (collided : list Object) (obj : Object) =>
       if negb (isDestroyed obj) && negb (isInvisible obj) then
         if collides obj boundingBox then collided ++ [obj] else collided
       else collided) ds acc
  = acc ++ filter (fun obj => shown obj && collides obj boundingBox) ds.
Proof.
  induction ds as [|obj ds IH]; intros acc; cbn [fold_left filter].
  - now rewrite app_nil_r.
  - rewrite IH. unfold shown.
    destruct (negb (isDestroyed obj) && negb (isInvisible obj)); cbn [andb];
      [|reflexivity].
    destruct (collides obj boundingBox); [|reflexivity]. now rewrite <- app_assoc.
Qed.

(** X1. [checkCollisions] returns, in view order, exactly the objects
    of the view that are not destroyed, not invisible and collide with
    the box, each as often as the view holds it. *)
Theorem checkCollisions_filter (ds : list Object) (boundingBox : AABB) :
  checkCollisions ds boundingBox
  = filter (fun obj => shown obj && collides obj boundingBox) ds.
Proof. unfold checkCollisions. now rewrite checkCollisions_from. Qed.

Lemma getSensors_from h : forall (m : ObjectMap) acc,
  fold_left
    (fun (sensors : list ptr) (it : Z * ptr) =>
       match deref h (snd it) with
       | Some obj =>
           if ObjectType_eqb (getType obj) kSensorType then sensors ++ [snd it]
           else sensors
       | None => sensors
       end) m acc
  = acc ++ filter
             (fun p => match deref h p with
                       | Some obj => ObjectType_eqb (getType obj) kSensorType
                       | None => false
                       end) (map snd m).
Proof.
  induction m as [|[k p] m IH]; intros acc; cbn [fold_left filter map snd].
  - now rewrite app_nil_r.
  - rewrite IH. destruct (deref h p) as [obj|]; [|reflexivity].
    destruct (ObjectType_eqb (getType obj) kSensorType); [|reflexivity].
    now rewrite <- app_assoc.
Qed.

(** X2. [getSensors] returns the objects of sensor type of the objects
    map, in its storage order; it reads neither the view nor the
    entrances, so a sensor is returned whether or not it is drawable,
    destroyed or invisible. *)
Theorem getSensors_filter (h : Heap) (a : Area) :
  getSensors h a
  = filter (fun p => match deref h p with
                     | Some obj => ObjectType_eqb (getType obj) kSensorType
                     | None => false
                     end) (map snd (_objectsByID a))
  /\ forall entrances view added remaps,
       getSensors h
         (mkArea (_areaID a) (_areaFlags a) (_scale a) (_objectsByID a)
            entrances view added remaps)
       = getSensors h a.
Proof.
  split; [|reflexivity]. unfold getSensors. now rewrite getSensors_from.
Qed.

Section Group.
Variable groupObjects : Object -> list Object.
Variable groupFrames : Object -> Z.

Lemma drawGroupFrom_events group ticks frameSize : forall objects i,
  frameSize <> 0 ->
  drawGroupFrom group ticks frameSize i objects
  = Rendered (groupEvents group ((ticks / 10) mod frameSize) i objects).
Proof.
  induction objects as [|obj rest IH]; intros i N; cbn [drawGroupFrom groupEvents];
    [reflexivity|].
  replace (frameSize =? 0) with false by (symmetry; now apply Z.eqb_neq).
  now rewrite IH.
Qed.

(** X4. [drawGroup] on a group with at least one frame assembles and
    draws each sub-object in turn, all at the frame
    [(ticks / 10) mod frameSize], which is a valid frame index; the
    frame comes back after [10 * frameSize] ticks. With sub-objects and
    no frame the remainder divides by zero; with no sub-object nothing
    is drawn. *)
Theorem drawGroup_frame (group : Object) (ticks : Z) :
  let frameSize := to_uint32 (groupFrames group) in
  let frame := (to_uint32 ticks / 10) mod frameSize in
  (frameSize <> 0 ->
     drawGroup groupObjects groupFrames group ticks
     = Rendered (groupEvents group frame 0 (groupObjects group))
     /\ 0 <= frame < frameSize
     /\ (forall t, 0 <= t -> t + 10 * frameSize < 4294967296 ->
           drawGroup groupObjects groupFrames group (t + 10 * frameSize)
           = drawGroup groupObjects groupFrames group t))
  /\ (frameSize = 0 -> groupObjects group <> [] ->
        drawGroup groupObjects groupFrames group ticks = DivisionByZero)
  /\ (groupObjects group = [] ->
        drawGroup groupObjects groupFrames group ticks = Rendered []).
Proof.
  cbv zeta. unfold drawGroup. split; [|split].
  - intros N.
    assert (P : 0 < to_uint32 (groupFrames group)).
    { pose proof (Z.mod_pos_bound (groupFrames group) 4294967296 eq_refl) as B.
      fold (to_uint32 (groupFrames group)) in B.
      apply Z.le_neq. split; [apply B | congruence]. }
    split; [now apply drawGroupFrom_events|]. split.
    + apply Z.mod_pos_bound. exact P.
    + intros t T B. rewrite !drawGroupFrom_events by exact N. do 2 f_equal.
      set (fs := to_uint32 (groupFrames group)) in *.
      assert (E1 : to_uint32 (t + 10 * fs) = t + fs * 10)
        by (unfold to_uint32; rewrite Z.mod_small; lia).
      assert (E2 : to_uint32 t = t)
        by (unfold to_uint32; rewrite Z.mod_small; lia).
      rewrite E1, E2, Z.div_add by lia.
      rewrite <- (Z.mul_1_l fs) at 1.
      now rewrite Z.mod_add by lia.
  - intros EZ NE. rewrite EZ. destruct (groupObjects group); [congruence|reflexivity].
  - intros E. rewrite E. reflexivity.
Qed.

Lemma drawFrom_plain ticks : forall ds,
  (forall obj, In obj ds -> ObjectType_eqb (getType obj) kGroupType = false) ->
  drawFrom groupObjects groupFrames ticks ds = Rendered (map Draw (filter shown ds)).
Proof.
  induction ds as [|obj ds IH]; intros NG; cbn [drawFrom filter map]; [reflexivity|].
  rewrite IH by (intros o I; apply NG; now right).
  rewrite (NG obj (or_introl eq_refl)). unfold shown. cbn [negb].
  destruct (negb (isDestroyed obj) && negb (isInvisible obj)); reflexivity.
Qed.

(** X3. [draw] stops at its assertion on an empty view, whatever the
    tick. On a view without group objects it asks the renderer to draw,
    in view order, exactly the objects that are not destroyed and not
    invisible: a view of hidden objects passes the assertion and draws
    nothing. *)
Theorem draw_shown (ds : list Object) (ticks : Z) :
  (ds = [] -> draw groupObjects groupFrames ds ticks = DrawAssertionFailed)
  /\ (ds <> [] ->
      (forall obj, In obj ds -> ObjectType_eqb (getType obj) kGroupType = false) ->
      draw groupObjects groupFrames ds ticks
      = Rendered (map Draw (filter shown ds)))
  /\ (ds <> [] -> (forall obj, In obj ds -> shown obj = false) ->
      draw groupObjects groupFrames ds ticks = Rendered []).
Proof.
  split; [|split].
  - intros ->. reflexivity.
  - intros NE NG. destruct ds as [|obj ds]; [congruence|].
    unfold draw. now apply drawFrom_plain.
  - intros NE Hid. destruct ds as [|obj0 ds0]; [congruence|].
    unfold draw. clear NE. revert Hid. generalize (obj0 :: ds0). clear obj0 ds0.
    induction l as [|obj l IH]; intros Hid; cbn [drawFrom]; [reflexivity|].
    pose proof (Hid obj (or_introl eq_refl)) as S. unfold shown in S. rewrite S.
    rewrite IH by (intros o I; apply Hid; now right). reflexivity.
Qed.

End Group.

Section Flags.
Variables restore makeInvisible makeVisible : Object -> Object.
Variable isInitiallyInvisible : Object -> bool.

Local Abbreviation reset :=
  (resetObject restore makeInvisible makeVisible isInitiallyInvisible).
Local Abbreviation resetM :=
  (resetMap restore makeInvisible makeVisible isInitiallyInvisible).

Lemma store_length : forall (h : Heap) p o, length (store h p o) = length h.
Proof.
  induction h as [|x h IH]; intros [|p] o; cbn [store length]; auto.
Qed.

Lemma resetMap_length : forall (m : ObjectMap) h, length (resetM h m) = length h.
Proof.
  unfold resetMap.
  induction m as [|[k p] m IH]; intros h; cbn [fold_left snd]; [reflexivity|].
  rewrite IH. destruct (deref h p); [apply store_length | reflexivity].
Qed.

Lemma resetMap_other : forall (m : ObjectMap) h q,
  ~ In q (map snd m) -> deref (resetM h m) q = deref h q.
Proof.
  unfold resetMap.
  induction m as [|[k p] m IH]; intros h q NI; cbn [fold_left snd]; [reflexivity|].
  cbn [map snd In] in NI. rewrite IH by tauto.
  destruct (deref h p); [|reflexivity]. apply deref_store_other. tauto.
Qed.

Lemma resetMap_reset : forall (m : ObjectMap) h p o,
  NoDup (map snd m) -> In p (map snd m) -> deref h p = Some o ->
  deref (resetM h m) p = Some (reset o).
Proof.
  induction m as [|[k q] m IH]; intros h p o ND I D; [destruct I|].
  cbn [map snd] in ND, I. inversion ND as [|? ? NI ND']; subst.
  change (resetM h ((k, q) :: m))
    with (resetM (match deref h q with
                  | Some obj => store h q (reset obj)
                  | None => h
                  end) m).
  destruct (Nat.eq_dec q p) as [->|N].
  - rewrite D. rewrite resetMap_other by exact NI.
    eapply deref_store_same; eauto.
  - destruct I as [E|I]; [congruence|]. apply IH; auto.
    destruct (deref h q); [|exact D]. now rewrite deref_store_other.
Qed.


End Flags.

(** *** Teardown *)

Lemma deletes_In h added (m : ObjectMap) p :
  In p (deletes h added m)
  <-> exists k o, In (k, p) m /\ deref h p = Some o
        /\ HashMap.contains (to_uint16 (getObjectID o)) added = false.
Proof.
  unfold deletes. rewrite in_flat_map. split.
  - intros ([k q] & I & D). cbn [snd] in D.
    destruct (deref h q) as [o|] eqn:E; [|destruct D].
    destruct (HashMap.contains (to_uint16 (getObjectID o)) added) eqn:C;
      cbn [negb] in D; [destruct D|].
    destruct D as [<-|[]]. now exists k, o.
  - intros (k & o & I & D & C). exists (k, p). split; [exact I|].
    cbn [snd]. rewrite D, C. now left.
Qed.

Lemma deletes_all h (m : ObjectMap) :
  (forall k p, In (k, p) m -> exists o, deref h p = Some o) ->
  deletes h HashMap.empty m = map snd m.
Proof.
  unfold deletes. induction m as [|[k p] m IH]; intros L; cbn [flat_map map snd];
    [reflexivity|].
  destruct (L k p (or_introl eq_refl)) as (o & ->). cbn [HashMap.contains HashMap.lookup HashMap.empty negb app].
  f_equal. apply IH. intros k' p' I. apply (L k' p'). now right.
Qed.

(** X6. The destructor of a freshly built area deletes every object of
    the entrances map and then every object of the objects map, each
    entry once, in storage order. *)
Theorem destroyArea_fresh (h : Heap) (areaID areaFlags : Z)
    (objectsByID entrancesByID : ObjectMap)
    (L : forall k p, In (k, p) (objectsByID ++ entrancesByID) ->
           exists o, deref h p = Some o) :
  destroyArea h (newArea h areaID areaFlags objectsByID entrancesByID)
  = map snd entrancesByID ++ map snd objectsByID.
Proof.
  unfold destroyArea, newArea. cbn [_addedObjects _entrancesByID _objectsByID].
  rewrite !deletes_all; [reflexivity| |];
    intros k p I; apply (L k p), in_or_app; tauto.
Qed.

(** X7. The destructor never deletes an object that went through
    [addObject]: after a successful call neither the pointer passed in
    nor any other stored object that carries the same 16-bit id is
    deleted, whichever map holds it. *)
Theorem addObject_not_deleted (h : Heap) (a a' : Area) (obj : ptr) (o : Object)
    (D : deref h obj = Some o) (A : addObject h a obj = Returned a') :
  ~ In obj (destroyArea h a')
  /\ forall p o', deref h p = Some o' ->
       to_uint16 (getObjectID o') = to_uint16 (getObjectID o) ->
       ~ In p (destroyArea h a').
Proof.
  assert (G : forall p o', deref h p = Some o' ->
            to_uint16 (getObjectID o') = to_uint16 (getObjectID o) ->
            ~ In p (destroyArea h a')).
  { intros p o' D' E I. unfold addObject in A. rewrite D in A.
    destruct (HashMap.contains (to_uint16 (getObjectID o)) (_objectsByID a));
      [discriminate|].
    injection A as <-. unfold destroyArea in I.
    cbn [set_objects _addedObjects _entrancesByID _objectsByID] in I.
    apply in_app_or in I.
    assert (C : HashMap.contains (to_uint16 (getObjectID o'))
                  (HashMap.assign (to_uint16 (getObjectID o)) obj (_addedObjects a))
                = true).
    { rewrite contains_assign, E, Z.eqb_refl. reflexivity. }
    destruct I as [I|I]; apply deletes_In in I;
      destruct I as (k & o1 & _ & D1 & C1); rewrite D' in D1;
      injection D1 as <-; congruence. }
  split; [|exact G]. now apply (G obj o).
Qed.

End WithEnv.

(** *** Runs on the sample areas *)
Import Sample Fixture.


(** X6 on [areaReset]: the entrance goes first, then the object. *)
Lemma destroyArea_fresh_witness :
  destroyArea heapReset areaReset = [1%nat; 0%nat].
Proof.
  apply (destroyArea_fresh heapReset 1 0 [(1, 0%nat)] [(2, 1%nat)]).
  intros k p I. cbn in I.
  destruct I as [E|[E|[]]]; injection E as <- <-; eexists; reflexivity.
Defined.

(** X7 on [areaAdded]: the cube that was added is not deleted. *)
Lemma addObject_not_deleted_witness :
  ~ In 1%nat (destroyArea heapSaved areaAdded).
Proof.
  exact (proj1 (addObject_not_deleted heapSaved areaLevel areaAdded 1%nat
                  (cube 2 0 (vecZ 4 5 6) (vecZ 1 1 1)) eq_refl eq_refl)).
Defined.

(** X3 on a view of the wall and its invisible copy: only the wall is
    drawn. *)
Lemma draw_shown_witness :
  draw groupObjects groupFrames [wall; hiddenWall] 0 = Rendered [Draw wall].
Proof.
  destruct (draw_shown groupObjects groupFrames [wall; hiddenWall] 0)
    as (_ & D & _).
  apply D; [discriminate|].
  intros obj I. cbn in I. destruct I as [<-|[<-|[]]]; reflexivity.
Defined.

(** X4 on the sample group: at tick 25 both cubes are drawn at frame 2. *)
Lemma drawGroup_frame_witness :
  drawGroup groupObjects groupFrames group 25
  = Rendered [Assemble group 2 0; Draw nearCube; Assemble group 2 1; Draw farCube].
Proof.
  destruct (drawGroup_frame groupObjects groupFrames group 25) as (F & _).
  destruct F as (E & _); [vm_compute; discriminate | exact E].
Defined.

End LifecycleFacts.

(** ** Objects taken from the global area, the floor and the structure *)
Module StructureFacts.
Import Store StoreFacts StoreFacts.HashMapFacts Lifecycle LifecycleFacts.

Section WithEnv.
Context `{Env}.

Lemma to_uint16_int16 id : to_uint16 (to_int16 id) = to_uint16 id.
Proof. unfold to_uint16, to_int16. Z.div_mod_to_equations. lia. Qed.

Lemma to_int16_nonzero id : to_int16 id <> 0 -> to_uint16 id <> 0.
Proof. unfold to_uint16, to_int16. Z.div_mod_to_equations. lia. Qed.

Lemma objectWithIDFromMap_lookup m k :
  objectWithIDFromMap m k = HashMap.lookup k m.
Proof.
  unfold objectWithIDFromMap, HashMap.contains.
  destruct (HashMap.lookup k m); reflexivity.
Qed.

Lemma deref_app_old (h t : Heap) p o :
  deref h p = Some o -> deref (h ++ t) p = Some o.
Proof.
  intros D. unfold deref in *. rewrite nth_error_app1; [exact D|].
  apply nth_error_Some. congruence.
Qed.

Lemma live_app h t m : live h m -> live (h ++ t) m.
Proof.
  intros L k p E. destruct (L k p E) as (o & D). exists o. now apply deref_app_old.
Qed.

Section Structure.
Variable scale : Object -> Z -> Object.
Variable structureOf : Object -> list Z.

(** The three ways through [addObjectFromArea]. *)
Lemma addObjectFromArea_object h a id global g o :
  HashMap.lookup (to_uint16 id) (_objectsByID global) = Some g ->
  deref h g = Some o ->
  addObjectFromArea scale h a id global
  = Returned
      (h ++ [scale (duplicate o) (_scale a)],
       set_objects a
         (HashMap.assign (to_uint16 id) (length h) (_objectsByID a))
         (if isDrawable (scale (duplicate o) (_scale a))
          then length h :: _drawableObjects a else _drawableObjects a)
         (HashMap.assign (to_uint16 id) (length h) (_addedObjects a))).
Proof.
  intros G D. unfold addObjectFromArea, objectWithID.
  rewrite objectWithIDFromMap_lookup, to_uint16_int16, G, D. reflexivity.
Qed.

Lemma addObjectFromArea_entrance h a id global g o :
  HashMap.lookup (to_uint16 id) (_objectsByID global) = None ->
  HashMap.lookup (to_uint16 id) (_entrancesByID global) = Some g ->
  deref h g = Some o ->
  addObjectFromArea scale h a id global
  = Returned
      (h ++ [scale (duplicate o) (_scale a)],
       mkArea (_areaID a) (_areaFlags a) (_scale a) (_objectsByID a)
         (HashMap.assign (to_uint16 id) (length h) (_entrancesByID a))
         (_drawableObjects a)
         (HashMap.assign (to_uint16 id) (length h) (_addedObjects a))
         (_colorRemaps a)).
Proof.
  intros G E D. unfold addObjectFromArea, objectWithID, entranceWithID.
  rewrite !objectWithIDFromMap_lookup, to_uint16_int16, G, E, D. reflexivity.
Qed.

Lemma addObjectFromArea_missing h a id global :
  HashMap.lookup (to_uint16 id) (_objectsByID global) = None ->
  HashMap.lookup (to_uint16 id) (_entrancesByID global) = None ->
  addObjectFromArea scale h a id global = AssertionFailed.
Proof.
  intros G E. unfold addObjectFromArea, objectWithID, entranceWithID.
  rewrite !objectWithIDFromMap_lookup, to_uint16_int16, G, E. reflexivity.
Qed.

(** X8. [addObjectFromArea] stops at its assertion exactly when the id
    is bound in neither map of the global area. Otherwise it allocates
    one object, the scaled copy of the global one, which stays as it
    was and is not shared; the copy is bound under the id in the added
    objects and in the objects map, or in the entrances map when only
    the global entrances have the id, and an entrance is not put in the
    view. Other ids keep their bindings. *)
Theorem addObjectFromArea_effect (h : Heap) (a : Area) (id : Z) (global : Area)
    (LO : live h (_objectsByID global)) (LE : live h (_entrancesByID global)) :
  let key := to_uint16 id in
  (addObjectFromArea scale h a id global = AssertionFailed
   <-> objectWithID global key = None /\ entranceWithID global key = None)
  /\ forall h' a',
       addObjectFromArea scale h a id global = Returned (h', a') ->
       exists g o,
         deref h g = Some o
         /\ (objectWithID global key = Some g
             \/ objectWithID global key = None /\ entranceWithID global key = Some g)
         /\ h' = h ++ [scale (duplicate o) (_scale a)]
         /\ g <> length h /\ deref h' g = Some o
         /\ HashMap.lookup key (_addedObjects a') = Some (length h)
         /\ (objectWithID global key = Some g ->
               objectWithID a' key = Some (length h)
               /\ _entrancesByID a' = _entrancesByID a
               /\ _drawableObjects a'
                  = if isDrawable (scale (duplicate o) (_scale a))
                    then length h :: _drawableObjects a else _drawableObjects a)
         /\ (objectWithID global key = None ->
               entranceWithID a' key = Some (length h)
               /\ _objectsByID a' = _objectsByID a
               /\ _drawableObjects a' = _drawableObjects a)
         /\ (forall k, k <> key ->
               objectWithID a' k = objectWithID a k
               /\ entranceWithID a' k = entranceWithID a k
               /\ HashMap.lookup k (_addedObjects a')
                  = HashMap.lookup k (_addedObjects a)).
Proof.
  cbv zeta. unfold objectWithID, entranceWithID.
  rewrite !objectWithIDFromMap_lookup.
  destruct (HashMap.lookup (to_uint16 id) (_objectsByID global)) as [g|] eqn:G.
  - destruct (LO _ _ G) as (o & D).
    rewrite (addObjectFromArea_object _ _ _ _ _ _ G D).
    split; [split; [discriminate | intros [? _]; discriminate]|].
    intros h' a' [= <- <-]. exists g, o.
    pose proof (deref_length _ _ _ D) as Lt.
    split; [exact D|]. split; [now left|]. split; [reflexivity|].
    split; [lia|]. split; [now apply deref_app_old|].
    cbn [set_objects _addedObjects _objectsByID _entrancesByID _drawableObjects].
    rewrite !objectWithIDFromMap_lookup.
    split; [now rewrite lookup_assign, Z.eqb_refl|].
    split; [intros _; now rewrite lookup_assign, Z.eqb_refl|].
    split; [discriminate|].
    intros k N. rewrite !objectWithIDFromMap_lookup, !lookup_assign.
    replace (k =? to_uint16 id) with false by (symmetry; now apply Z.eqb_neq).
    auto.
  - destruct (HashMap.lookup (to_uint16 id) (_entrancesByID global)) as [g|] eqn:E.
    + destruct (LE _ _ E) as (o & D).
      rewrite (addObjectFromArea_entrance _ _ _ _ _ _ G E D).
      split; [split; [discriminate | intros [_ ?]; discriminate]|].
      intros h' a' [= <- <-]. exists g, o.
      pose proof (deref_length _ _ _ D) as Lt.
      split; [exact D|]. split; [now right|]. split; [reflexivity|].
      split; [lia|]. split; [now apply deref_app_old|].
      cbn [_addedObjects _objectsByID _entrancesByID _drawableObjects].
      rewrite !objectWithIDFromMap_lookup.
      split; [now rewrite lookup_assign, Z.eqb_refl|].
      split; [discriminate|].
      split; [intros _; now rewrite lookup_assign, Z.eqb_refl|].
      intros k N. rewrite !objectWithIDFromMap_lookup, !lookup_assign.
      replace (k =? to_uint16 id) with false by (symmetry; now apply Z.eqb_neq).
      auto.
    + rewrite (addObjectFromArea_missing _ _ _ _ G E).
      split; [tauto|]. discriminate.
Qed.

(** X9. Unlike [addObject], [addObjectFromArea] does not assert that
    the id is free. When the id is bound to an object of the view, the
    call rebinds the id to the copy and leaves the old object in the
    view: it is still walked by every query and drawn, and no key of
    the objects map leads to it any more. *)
Theorem addObjectFromArea_overwrites (h : Heap) (a : Area) (id : Z) (global : Area)
    (p g : ptr) (x o : Object)
    (B : objectWithID a (to_uint16 id) = Some p)
    (U : forall k, objectWithID a k = Some p -> k = to_uint16 id)
    (Dp : deref h p = Some x)
    (V : In p (_drawableObjects a))
    (G : objectWithID global (to_uint16 id) = Some g)
    (Dg : deref h g = Some o) :
  exists h' a',
    addObjectFromArea scale h a id global = Returned (h', a')
    /\ In p (_drawableObjects a')
    /\ deref h' p = Some x
    /\ objectWithID a' (to_uint16 id) = Some (length h)
    /\ forall k, objectWithID a' k <> Some p.
Proof.
  unfold addObjectFromArea, objectWithID in *.
  rewrite !objectWithIDFromMap_lookup, to_uint16_int16 in *.
  rewrite G, Dg. cbn [alloc]. eexists. eexists. split; [reflexivity|].
  cbn [set_objects _objectsByID _drawableObjects].
  pose proof (deref_length _ _ _ Dp) as Lt.
  split; [|split; [|split]].
  - destruct (isDrawable _); [now right | exact V].
  - now apply deref_app_old.
  - now rewrite objectWithIDFromMap_lookup, lookup_assign, Z.eqb_refl.
  - intros k. rewrite objectWithIDFromMap_lookup, lookup_assign.
    destruct (Z.eqb_spec k (to_uint16 id)) as [E|N].
    + intros [= E']. lia.
    + intros L. apply N, U. now rewrite objectWithIDFromMap_lookup.
Qed.

(** X10. The destructor does not delete the copy [addObjectFromArea]
    made, when scaling keeps the id and the global area binds each
    object under its own id: the copy is registered in the added
    objects, which the destructor skips. *)
Theorem addObjectFromArea_not_deleted (h : Heap) (a : Area) (id : Z) (global : Area)
    (h' : Heap) (a' : Area)
    (S : forall o s, getObjectID (scale o s) = getObjectID o)
    (K : forall k p o,
           objectWithID global k = Some p \/ entranceWithID global k = Some p ->
           deref h p = Some o -> getObjectID o = k)
    (A : addObjectFromArea scale h a id global = Returned (h', a')) :
  deref h' (length h) <> None /\ ~ In (length h) (destroyArea h' a').
Proof.
  unfold addObjectFromArea, objectWithID, entranceWithID in *.
  rewrite to_uint16_int16 in A.
  assert (M : forall o, to_uint16 (getObjectID o) = to_uint16 id ->
            forall added (m1 m2 : ObjectMap),
            ~ In (length h)
                (deletes (h ++ [scale (duplicate o) (_scale a)])
                   (HashMap.assign (to_uint16 id) (length h) added) m1
                 ++ deletes (h ++ [scale (duplicate o) (_scale a)])
                      (HashMap.assign (to_uint16 id) (length h) added) m2)).
  { intros o E added m1 m2 I. apply in_app_or in I.
    destruct I as [I|I]; apply deletes_In in I;
      destruct I as (k & o1 & _ & D1 & C1);
      rewrite deref_alloc_new in D1; injection D1 as <-;
      rewrite contains_assign, S in C1; unfold duplicate in C1;
      rewrite E, Z.eqb_refl in C1; discriminate. }
  assert (Key : forall g o, (objectWithIDFromMap (_objectsByID global) (to_uint16 id) = Some g
                    \/ objectWithIDFromMap (_entrancesByID global) (to_uint16 id) = Some g) ->
            deref h g = Some o -> to_uint16 (getObjectID o) = to_uint16 id).
  { intros g o F D. rewrite (K _ _ _ F D). unfold to_uint16. now rewrite Z.mod_mod. }
  destruct (objectWithIDFromMap (_objectsByID global) (to_uint16 id)) as [g|] eqn:G.
  - destruct (deref h g) as [o|] eqn:D; [|discriminate]. cbn [alloc] in A.
    injection A as <- <-. split; [now rewrite deref_alloc_new|].
    unfold destroyArea. cbn [set_objects _addedObjects _entrancesByID _objectsByID].
    apply M. eapply Key; eauto.
  - destruct (objectWithIDFromMap (_entrancesByID global) (to_uint16 id)) as [g|] eqn:E;
      [|discriminate].
    destruct (deref h g) as [o|] eqn:D; [|discriminate]. cbn [alloc] in A.
    injection A as <- <-. split; [now rewrite deref_alloc_new|].
    unfold destroyArea. cbn [_addedObjects _entrancesByID _objectsByID].
    apply M. eapply Key; eauto.
Qed.

(** X11. [addFloor] stops at its assertion exactly when the id 0 is
    bound in the objects map. Otherwise it allocates the floor cube,
    binds it under the id 0 and puts it at the front of the view; it
    does not register it in the added objects, so the destructor
    deletes it unless an added object already carries the id 0.
    [addStructure] without a global area, or without the entrance 255,
    is [addFloor]. *)
Theorem addFloor_effect (h : Heap) (a : Area) :
  let floor :=
    GeometricObject kCubeType 0 0 (vecZ (-4128) (-1) (-4128))
      (vecZ (4128 * 4) 1 (4128 * 4)) in
  (addFloor h a = AssertionFailed <-> objectWithID a 0 <> None)
  /\ (forall h' a', addFloor h a = Returned (h', a') ->
        h' = h ++ [floor]
        /\ _drawableObjects a' = length h :: _drawableObjects a
        /\ objectWithID a' 0 = Some (length h)
        /\ (forall k, k <> 0 -> objectWithID a' k = objectWithID a k)
        /\ _entrancesByID a' = _entrancesByID a
        /\ _addedObjects a' = _addedObjects a
        /\ (In (length h) (destroyArea h' a')
            <-> HashMap.contains 0 (_addedObjects a) = false))
  /\ addStructure scale structureOf h a None = addFloor h a
  /\ (forall global, entranceWithID a 255 = None ->
        addStructure scale structureOf h a (Some global) = addFloor h a).
Proof.
  cbv zeta. unfold addFloor, objectWithID, entranceWithID.
  rewrite !objectWithIDFromMap_lookup. unfold HashMap.contains at 1 2.
  split; [|split; [|split]].
  - destruct (HashMap.lookup 0 (_objectsByID a)); cbn [alloc].
    + split; [discriminate | reflexivity].
    + split; [discriminate | congruence].
  - intros h' a'. destruct (HashMap.lookup 0 (_objectsByID a)) eqn:L0; [discriminate|].
    cbn [alloc]. intros [= <- <-].
    cbn [set_objects _drawableObjects _objectsByID _entrancesByID _addedObjects].
    split; [reflexivity|]. split; [reflexivity|].
    rewrite objectWithIDFromMap_lookup.
    split; [now rewrite lookup_assign|].
    split; [intros k N; rewrite !objectWithIDFromMap_lookup, lookup_assign;
            now replace (k =? 0) with false by (symmetry; now apply Z.eqb_neq)|].
    split; [reflexivity|]. split; [reflexivity|].
    unfold destroyArea.
    cbn [set_objects _drawableObjects _objectsByID _entrancesByID _addedObjects].
    rewrite in_app_iff, !deletes_In. split.
    + intros [(k & o & _ & D & C)|(k & o & _ & D & C)];
        rewrite deref_alloc_new in D; injection D as <-; exact C.
    + intros C. right. exists 0, (GeometricObject kCubeType 0 0
        (vecZ (-4128) (-1) (-4128)) (vecZ (4128 * 4) 1 (4128 * 4))).
      split; [apply lookup_In; now rewrite lookup_assign|].
      split; [apply deref_alloc_new | exact C].
  - reflexivity.
  - intros global E. unfold addStructure, HashMap.contains. rewrite E. reflexivity.
Qed.

(** One call of the loop of [addStructure]. *)
Lemma addObjectFromArea_step (h : Heap) (a : Area) (id : Z) (global : Area) :
  live h (_objectsByID global) -> live h (_entrancesByID global) ->
  let key := to_uint16 id in
  match addObjectFromArea scale h a id global with
  | AssertionFailed =>
      objectWithID global key = None /\ entranceWithID global key = None
  | Returned (h', a') =>
      (objectWithID global key <> None \/ entranceWithID global key <> None)
      /\ (exists x, h' = h ++ [x])
      /\ (objectWithID a' key <> None \/ entranceWithID a' key <> None)
      /\ (forall k, objectWithID a k <> None -> objectWithID a' k <> None)
      /\ (forall k, entranceWithID a k <> None -> entranceWithID a' k <> None)
      /\ (forall k, k <> key -> objectWithID a' k = objectWithID a k)
      /\ (exists front, _drawableObjects a' = front ++ _drawableObjects a)
  end.
Proof.
  intros LO LE. cbv zeta. unfold objectWithID, entranceWithID.
  assert (Bound : forall (m : ObjectMap) k,
            objectWithIDFromMap m k <> None ->
            objectWithIDFromMap
              (HashMap.assign (to_uint16 id) (length h) m) k <> None).
  { intros m k. rewrite !objectWithIDFromMap_lookup, lookup_assign.
    destruct (k =? to_uint16 id); [discriminate | auto]. }
  assert (New : forall m : ObjectMap,
            objectWithIDFromMap
              (HashMap.assign (to_uint16 id) (length h) m) (to_uint16 id) <> None).
  { intros m. rewrite objectWithIDFromMap_lookup, lookup_assign, Z.eqb_refl.
    discriminate. }
  rewrite !objectWithIDFromMap_lookup.
  destruct (HashMap.lookup (to_uint16 id) (_objectsByID global)) as [g|] eqn:G.
  - destruct (LO _ _ G) as (o & D).
    rewrite (addObjectFromArea_object _ _ _ _ _ _ G D).
    cbn [set_objects _objectsByID _entrancesByID _drawableObjects].
    split; [left; discriminate|]. split; [eexists; reflexivity|].
    split; [left; apply New|]. split; [apply Bound|]. split; [auto|].
    split.
    + intros k N. rewrite !objectWithIDFromMap_lookup, lookup_assign.
      now replace (k =? to_uint16 id) with false by (symmetry; now apply Z.eqb_neq).
    + destruct (isDrawable _); [now exists [length h] | now exists []].
  - destruct (HashMap.lookup (to_uint16 id) (_entrancesByID global)) as [g|] eqn:E.
    + destruct (LE _ _ E) as (o & D).
      rewrite (addObjectFromArea_entrance _ _ _ _ _ _ G E D).
      cbn [_objectsByID _entrancesByID _drawableObjects].
      split; [right; discriminate|]. split; [eexists; reflexivity|].
      split; [right; apply New|]. split; [auto|]. split; [apply Bound|].
      split; [auto|]. now exists [].
    + rewrite (addObjectFromArea_missing _ _ _ _ G E). auto.
Qed.

Lemma addStructureLoop_spec (global : Area) : forall ids h a,
  live h (_objectsByID global) -> live h (_entrancesByID global) ->
  match addStructureLoop scale h a global ids with
  | AssertionFailed =>
      exists id, In id ids /\ to_int16 id <> 0
        /\ objectWithID global (to_uint16 id) = None
        /\ entranceWithID global (to_uint16 id) = None
  | Returned (h', a') =>
      (forall id, In id ids -> to_int16 id <> 0 ->
         (objectWithID global (to_uint16 id) <> None
          \/ entranceWithID global (to_uint16 id) <> None)
         /\ (objectWithID a' (to_uint16 id) <> None
             \/ entranceWithID a' (to_uint16 id) <> None))
      /\ (exists t, h' = h ++ t
            /\ length t
               = length (filter (fun id => negb (to_int16 id =? 0)) ids))
      /\ (forall k, objectWithID a k <> None -> objectWithID a' k <> None)
      /\ (forall k, entranceWithID a k <> None -> entranceWithID a' k <> None)
      /\ objectWithID a' 0 = objectWithID a 0
      /\ (exists front, _drawableObjects a' = front ++ _drawableObjects a)
  end.
Proof.
  induction ids as [|id ids IH]; intros h a LO LE; cbn [addStructureLoop].
  - split; [intros ? []|]. split; [exists []; now rewrite app_nil_r|].
    split; [auto|]. split; [auto|]. split; [reflexivity|]. now exists [].
  - cbn [filter]. destruct (Z.eqb_spec (to_int16 id) 0) as [Z0|NZ]; cbn [negb].
    + specialize (IH h a LO LE).
      destruct (addStructureLoop scale h a global ids) as [[h' a']|].
      * destruct IH as (B & T & R). split; [|split; [exact T | exact R]].
        intros id' [<-|I] N; [congruence | now apply B].
      * destruct IH as (id' & I & R). exists id'. split; [now right | exact R].
    + pose proof (addObjectFromArea_step h a (to_int16 id) global LO LE) as St.
      cbv zeta in St. rewrite to_uint16_int16 in St.
      destruct (addObjectFromArea scale h a (to_int16 id) global) as [[h1 a1]|].
      * destruct St as (F1 & (x & ->) & B1 & MO1 & ME1 & K1 & (f1 & V1)).
        specialize (IH (h ++ [x]) a1 (live_app _ _ _ LO) (live_app _ _ _ LE)).
        destruct (addStructureLoop scale (h ++ [x]) a1 global ids) as [[h' a']|].
        -- destruct IH as (B & (t & -> & Lt) & MO & ME & Z0 & (f & V)).
           split; [|split; [|split; [|split; [|split]]]].
           ++ intros id' [<-|I] N; [|now apply B].
              split; [exact F1|].
              destruct B1 as [B1|B1]; [left; now apply MO | right; now apply ME].
           ++ exists (x :: t). rewrite <- app_assoc. split; [reflexivity|].
              cbn [length]. now rewrite Lt.
           ++ intros k N. now apply MO, MO1.
           ++ intros k N. now apply ME, ME1.
           ++ rewrite Z0. apply K1. intros E. apply (to_int16_nonzero id NZ).
              now rewrite <- E.
           ++ exists (f ++ f1). rewrite V, V1. now rewrite app_assoc.
        -- destruct IH as (id' & I & R). exists id'. split; [now right | exact R].
      * exists id. split; [now left|]. split; [exact NZ | exact St].
Qed.

(** X12. With a global area and the entrance 255, [addStructure] walks
    the ids of the structure and skips the zeros. It stops at an
    assertion exactly when a non-zero id is bound in neither map of the
    global area. Otherwise every non-zero id of the structure is bound
    in the objects map or in the entrances map afterwards, one object
    is allocated per non-zero entry, bindings are only added, the old
    view is kept behind the new entries, and no floor is made: the
    binding of the id 0 is as before. *)
Theorem addStructure_effect (h : Heap) (a global : Area) (rs : ptr) (st : Object)
    (E : entranceWithID a 255 = Some rs) (D : deref h rs = Some st)
    (LO : live h (_objectsByID global)) (LE : live h (_entrancesByID global)) :
  let ids := structureOf st in
  (addStructure scale structureOf h a (Some global) = AssertionFailed
   <-> exists id, In id ids /\ to_int16 id <> 0
         /\ objectWithID global (to_uint16 id) = None
         /\ entranceWithID global (to_uint16 id) = None)
  /\ forall h' a',
       addStructure scale structureOf h a (Some global) = Returned (h', a') ->
       (forall id, In id ids -> to_int16 id <> 0 ->
          objectWithID a' (to_uint16 id) <> None
          \/ entranceWithID a' (to_uint16 id) <> None)
       /\ (exists t, h' = h ++ t
             /\ length t
                = length (filter (fun id => negb (to_int16 id =? 0)) ids))
       /\ (forall k, objectWithID a k <> None -> objectWithID a' k <> None)
       /\ (forall k, entranceWithID a k <> None -> entranceWithID a' k <> None)
       /\ objectWithID a' 0 = objectWithID a 0
       /\ (exists front, _drawableObjects a' = front ++ _drawableObjects a).
Proof.
  cbv zeta. unfold addStructure.
  unfold entranceWithID in E. rewrite objectWithIDFromMap_lookup in E.
  unfold HashMap.contains. rewrite E, D. cbn [negb].
  pose proof (addStructureLoop_spec global (structureOf st) h a LO LE) as Sp.
  destruct (addStructureLoop scale h a global (structureOf st)) as [[h1 a1]|].
  - destruct Sp as (B & T & MO & ME & Z0 & V). split.
    + split; [discriminate|]. intros (id & I & N & GO & GE).
      destruct (B id I N) as ([F|F] & _); congruence.
    + intros h' a' [= <- <-]. split; [|tauto].
      intros id I N. now apply B.
  - split; [|discriminate]. split; [intros _; exact Sp | reflexivity].
Qed.

End Structure.
End WithEnv.

(** *** Runs on the sample areas *)
Import Sample Fixture.

(** X8 on the fresh level: the global area has no object 7. *)
Lemma addObjectFromArea_effect_witness :
  addObjectFromArea scale heapFresh areaFresh 7 areaGlobal = AssertionFailed.
Proof.
  assert (LO : live heapFresh (_objectsByID areaGlobal)).
  { intros k p L. change (_objectsByID areaGlobal) with [(2, 1%nat)] in L.
    cbn [HashMap.lookup] in L. destruct (2 =? k); [|discriminate].
    injection L as <-. eexists. reflexivity. }
  assert (LE : live heapFresh (_entrancesByID areaGlobal)).
  { intros k p L. discriminate. }
  destruct (addObjectFromArea_effect scale heapFresh areaFresh 7 areaGlobal LO LE)
    as (F & _).
  apply F. split; reflexivity.
Defined.

(** X9 on the twin cubes: the level's cube 1 stays in the view behind
    the copy of the global cube 1, which the id now leads to. *)
Lemma addObjectFromArea_overwrites_witness :
  exists h' a',
    addObjectFromArea scale heapTwin areaTwin 1 globalTwin = Returned (h', a')
    /\ _drawableObjects a' = [2%nat; 0%nat]
    /\ objectWithID a' 1 = Some 2%nat.
Proof.
  assert (U : forall k, objectWithID areaTwin k = Some 0%nat -> k = to_uint16 1).
  { intros k L. unfold objectWithID in L. rewrite objectWithIDFromMap_lookup in L.
    change (_objectsByID areaTwin) with [(1, 0%nat)] in L.
    cbn [HashMap.lookup] in L.
    destruct (Z.eqb_spec 1 k) as [E|]; [now rewrite <- E | discriminate]. }
  destruct (addObjectFromArea_overwrites scale heapTwin areaTwin 1 globalTwin
              0%nat 1%nat (cube 1 0 (vecZ 0 0 0) (vecZ 1 1 1))
              (cube 1 0 (vecZ 8 8 8) (vecZ 2 2 2))
              eq_refl U eq_refl (or_introl eq_refl) eq_refl eq_refl)
    as (h' & a' & A & _ & _ & B & _).
  exists h', a'. split; [exact A|]. split; [|exact B].
  vm_compute in A. injection A as _ <-. reflexivity.
Defined.

(** X10 on [copied]: the copy of the global cube 2 is not deleted. *)
Lemma addObjectFromArea_not_deleted_witness :
  ~ In 2%nat (destroyArea (fst copied) (snd copied)).
Proof.
  assert (K : forall k p o,
            objectWithID areaGlobal k = Some p \/ entranceWithID areaGlobal k = Some p ->
            deref heapFresh p = Some o -> getObjectID o = k).
  { intros k p o L D. unfold objectWithID, entranceWithID in L.
    rewrite !objectWithIDFromMap_lookup in L.
    change (_objectsByID areaGlobal) with [(2, 1%nat)] in L.
    change (_entrancesByID areaGlobal) with (@nil (Z * ptr)) in L.
    cbn [HashMap.lookup] in L.
    destruct L as [L|L]; [|discriminate].
    destruct (Z.eqb_spec 2 k) as [E|]; [|discriminate].
    injection L as <-.
    change (deref heapFresh 1%nat) with (Some (cube 2 0 (vecZ 0 0 0) (vecZ 1 1 1))) in D.
    injection D as <-. exact E. }
  assert (A : addObjectFromArea scale heapFresh areaFresh 2 areaGlobal
              = Returned (fst copied, snd copied)).
  { vm_compute. reflexivity. }
  exact (proj2 (addObjectFromArea_not_deleted scale heapFresh areaFresh 2 areaGlobal
                  (fst copied) (snd copied) (fun o s => eq_refl) K A)).
Defined.

(** X12 on [areaStructure]: the structure lists the id 2, which the
    level binds afterwards. *)
Lemma addStructure_effect_witness :
  objectWithID (snd built) 2 <> None \/ entranceWithID (snd built) 2 <> None.
Proof.
  assert (LO : live heapStructure (_objectsByID globalStructure)).
  { intros k p L. change (_objectsByID globalStructure) with [(2, 1%nat)] in L.
    cbn [HashMap.lookup] in L. destruct (2 =? k); [|discriminate].
    injection L as <-. eexists. reflexivity. }
  assert (LE : live heapStructure (_entrancesByID globalStructure)).
  { intros k p L. discriminate. }
  assert (A : addStructure scale structureOf heapStructure areaStructure
                (Some globalStructure) = Returned (fst built, snd built)).
  { vm_compute. reflexivity. }
  destruct (addStructure_effect scale structureOf heapStructure areaStructure
              globalStructure 2%nat
              (mkObject 255 0 (kOtherType 0) vzero vzero (box vzero vzero))
              eq_refl eq_refl LO LE) as (_ & R).
  destruct (R (fst built) (snd built) A) as (B & _).
  apply (B 2); [cbn; lia | vm_compute; discriminate].
Defined.

(** X11 on the fresh level: the floor is the third object and comes
    first in the view. *)
Lemma addFloor_effect_witness :
  _drawableObjects (snd floored) = [2%nat; 0%nat]
  /\ objectWithID (snd floored) 0 = Some 2%nat.
Proof.
  assert (A : addFloor heapFresh areaFresh = Returned (fst floored, snd floored)).
  { vm_compute. reflexivity. }
  destruct (addFloor_effect scale structureOf heapFresh areaFresh) as (_ & R & _).
  destruct (R (fst floored) (snd floored) A) as (_ & V & B & _).
  split; [exact V | exact B].
Defined.

End StructureFacts.

(** ** The constructor's view, removal and the add-remove round trip *)
Module ViewFacts.
Import Store StoreFacts StoreFacts.HashMapFacts Lifecycle StructureFacts.

Section WithEnv.
Context `{Env}.

(** [q] is not strictly before [p] in the order of the constructor. *)
Local Abbreviation notBefore h :=
  (fun p q : ptr =>
     exists o1 o2, deref h p = Some o1 /\ deref h q = Some o2
                   /\ compareObjects o2 o1 = false).

Lemma compareObjects_asym o1 o2 :
  compareObjects o1 o2 = true -> compareObjects o2 o1 = false.
Proof.
  unfold compareObjects.
  destruct (isPlanar o1), (isPlanar o2); cbn [negb andb]; try congruence.
  - rewrite !Z.gtb_ltb, Z.ltb_lt, Z.ltb_ge. lia.
  - rewrite !Z.gtb_ltb, Z.ltb_lt, Z.ltb_ge. lia.
Qed.

Lemma compareObjects_trans o1 o2 o3 :
  compareObjects o1 o2 = true -> compareObjects o3 o2 = false ->
  compareObjects o3 o1 = false.
Proof.
  unfold compareObjects.
  destruct (isPlanar o1), (isPlanar o2), (isPlanar o3); cbn [negb andb];
    try congruence; rewrite ?Z.gtb_ltb, ?Z.ltb_lt, ?Z.ltb_ge; lia.
Qed.

Lemma insertSorted_In h p l q : In q (insertSorted h p l) -> q = p \/ In q l.
Proof.
  intros I. apply (Permutation_in _ (insertSorted_Permutation h p l)) in I.
  destruct I; auto.
Qed.

Lemma insertSorted_sorted h p o l :
  deref h p = Some o ->
  (forall q, In q l -> exists oq, deref h q = Some oq) ->
  StronglySorted (notBefore h) l ->
  StronglySorted (notBefore h) (insertSorted h p l).
Proof.
  intros D. induction l as [|q l IH]; intros L S; cbn [insertSorted].
  - constructor; [constructor | constructor].
  - destruct (L q (or_introl eq_refl)) as (oq & Dq).
    inversion S as [|? ? S' F]; subst.
    unfold comparePtrs. rewrite D, Dq.
    destruct (compareObjects o oq) eqn:C.
    + constructor; [exact S|]. constructor.
      * exists o, oq. auto using compareObjects_asym.
      * rewrite Forall_forall in *. intros r I.
        destruct (F r I) as (o1 & o2 & D1 & D2 & C2).
        rewrite Dq in D1. injection D1 as <-.
        exists o, o2. split; [exact D|]. split; [exact D2|].
        eapply compareObjects_trans; eauto.
    + constructor.
      * apply IH; [intros r I; apply L; now right | exact S'].
      * rewrite Forall_forall in *. intros r I.
        apply insertSorted_In in I. destruct I as [->|I]; [|now apply F].
        exists oq, o. auto.
Qed.

Lemma sortObjects_sorted h l :
  (forall q, In q l -> exists oq, deref h q = Some oq) ->
  StronglySorted (notBefore h) (sortObjects h l).
Proof.
  unfold sortObjects. induction l as [|p l IH]; intros L; cbn [fold_right];
    [constructor|].
  destruct (L p (or_introl eq_refl)) as (o & D).
  eapply insertSorted_sorted; eauto.
  - intros q I. apply (Permutation_in _ (sortObjects_Permutation h l)) in I.
    apply L. now right.
  - apply IH. intros q I. apply L. now right.
Qed.

Lemma StronglySorted_nth {A} (R : A -> A -> Prop) : forall l i j x y,
  StronglySorted R l -> (i < j)%nat ->
  nth_error l i = Some x -> nth_error l j = Some y -> R x y.
Proof.
  induction l as [|z l IH]; intros i j x y S Lt Ni Nj.
  - destruct i; discriminate.
  - inversion S as [|? ? S' F]; subst.
    destruct j as [|j]; [lia|]. cbn [nth_error] in Nj.
    destruct i as [|i]; cbn [nth_error] in Ni.
    + injection Ni as <-. rewrite Forall_forall in F. apply F.
      eapply nth_error_In; eauto.
    + apply (IH i j x y S'); [lia | exact Ni | exact Nj].
Qed.

(** X13. The view the constructor builds holds the drawable objects of
    the objects map, each entry once, sorted: no planar object comes
    before a non-planar one, and within a class the ids do not
    increase. *)
Theorem newArea_sorted (h : Heap) (areaID areaFlags : Z)
    (objectsByID entrancesByID : ObjectMap) :
  let ds := _drawableObjects (newArea h areaID areaFlags objectsByID entrancesByID) in
  Permutation ds (filter (drawablePtr h) (map snd objectsByID))
  /\ forall i j p q, (i < j)%nat ->
       nth_error ds i = Some p -> nth_error ds j = Some q ->
       exists o1 o2,
         deref h p = Some o1 /\ deref h q = Some o2
         /\ isDrawable o1 = true /\ isDrawable o2 = true
         /\ (isPlanar o1 = true -> isPlanar o2 = true)
         /\ (isPlanar o1 = isPlanar o2 -> getObjectID o2 <= getObjectID o1).
Proof.
  cbv zeta. unfold newArea. cbn [_drawableObjects].
  set (l := filter (drawablePtr h) (map snd objectsByID)).
  pose proof (sortObjects_Permutation h l) as P.
  split; [exact P|]. intros i j p q Lt Ni Nj.
  assert (Dr : forall r, In r (sortObjects h l) ->
            exists o, deref h r = Some o /\ isDrawable o = true).
  { intros r I. apply (Permutation_in _ P) in I. unfold l in I.
    apply filter_In in I. destruct I as [_ I]. unfold drawablePtr in I.
    destruct (deref h r) as [o|]; [|discriminate]. now exists o. }
  assert (S : StronglySorted (notBefore h) (sortObjects h l)).
  { apply sortObjects_sorted. intros r I.
    destruct (Dr r (Permutation_in _ (Permutation_sym P) I)) as (o & D & _).
    now exists o. }
  destruct (StronglySorted_nth _ _ _ _ _ _ S Lt Ni Nj) as (o1 & o2 & D1 & D2 & C).
  exists o1, o2. split; [exact D1|]. split; [exact D2|].
  destruct (Dr p (nth_error_In _ _ Ni)) as (o1' & D1' & R1).
  destruct (Dr q (nth_error_In _ _ Nj)) as (o2' & D2' & R2).
  rewrite D1 in D1'. rewrite D2 in D2'. injection D1' as <-. injection D2' as <-.
  split; [exact R1|]. split; [exact R2|].
  unfold compareObjects in C.
  destruct (isPlanar o1), (isPlanar o2); cbn [negb andb] in C; try discriminate;
    (split; [auto | intros E; try discriminate E]);
    rewrite ?Z.gtb_ltb, ?Z.ltb_ge in C; exact C.
Qed.

Lemma removeFirst_split h id : forall l,
  removeFirst h id l = l
  \/ exists front p o back,
       l = front ++ p :: back /\ removeFirst h id l = front ++ back
       /\ deref h p = Some o /\ getObjectID o = id
       /\ forall q oq, In q front -> deref h q = Some oq -> getObjectID oq <> id.
Proof.
  induction l as [|p l IH]; cbn [removeFirst]; [now left|].
  assert (Skip : (forall o, deref h p = Some o -> getObjectID o <> id) ->
            p :: removeFirst h id l = p :: l
            \/ exists front r o back,
                 p :: l = front ++ r :: back
                 /\ p :: removeFirst h id l = front ++ back
                 /\ deref h r = Some o /\ getObjectID o = id
                 /\ forall q oq, In q front -> deref h q = Some oq ->
                      getObjectID oq <> id).
  { intros N.
    destruct IH as [->|(front & r & x & back & -> & -> & Dr & Ex & F)];
      [now left|].
    right. exists (p :: front), r, x, back. cbn [app].
    split; [reflexivity|]. split; [reflexivity|]. split; [exact Dr|].
    split; [exact Ex|]. intros q oq [<-|I] Dq; [now apply N | eauto]. }
  destruct (deref h p) as [o|] eqn:D.
  - destruct (Z.eqb_spec (getObjectID o) id) as [E|N].
    + right. exists [], p, o, l. cbn [app].
      split; [reflexivity|]. split; [reflexivity|]. split; [exact D|].
      split; [exact E|]. intros ? ? [].
    + apply Skip. intros o' [= <-]. exact N.
  - apply Skip. discriminate.
Qed.

(** X14. [removeObject] stops at its assertion exactly when the id,
    read as a 16-bit key, is not bound in the objects map. Otherwise
    the key is unbound in the objects map and in the added objects,
    other keys, the entrances and the colour remaps are untouched, and
    the view loses at most one entry: the first one whose object id
    equals the signed argument. *)
Theorem removeObject_effect (h : Heap) (a : Area) (id : Z) :
  let key := to_uint16 id in
  (removeObject h a id = AssertionFailed <-> objectWithID a key = None)
  /\ forall a', removeObject h a id = Returned a' ->
       objectWithID a' key = None
       /\ HashMap.lookup key (_addedObjects a') = None
       /\ (forall k, k <> key ->
             objectWithID a' k = objectWithID a k
             /\ HashMap.lookup k (_addedObjects a')
                = HashMap.lookup k (_addedObjects a))
       /\ _entrancesByID a' = _entrancesByID a
       /\ _colorRemaps a' = _colorRemaps a
       /\ (_drawableObjects a' = _drawableObjects a
           \/ exists front p o back,
                _drawableObjects a = front ++ p :: back
                /\ _drawableObjects a' = front ++ back
                /\ deref h p = Some o /\ getObjectID o = to_int16 id
                /\ forall q oq, In q front -> deref h q = Some oq ->
                     getObjectID oq <> to_int16 id).
Proof.
  cbv zeta. unfold removeObject, objectWithID.
  rewrite !objectWithIDFromMap_lookup, to_uint16_int16. unfold HashMap.contains.
  destruct (HashMap.lookup (to_uint16 id) (_objectsByID a)) as [p|]; cbn [negb].
  - split; [split; discriminate|]. intros a' [= <-].
    cbn [set_objects _objectsByID _addedObjects _entrancesByID _colorRemaps
         _drawableObjects].
    rewrite objectWithIDFromMap_lookup, !lookup_erase, Z.eqb_refl.
    split; [reflexivity|]. split; [reflexivity|].
    split; [|split; [reflexivity|split; [reflexivity|apply removeFirst_split]]].
    intros k N. rewrite !objectWithIDFromMap_lookup, !lookup_erase.
    replace (k =? to_uint16 id) with false by (symmetry; now apply Z.eqb_neq).
    auto.
  - split; [split; reflexivity | discriminate].
Qed.

Lemma removeFirst_absent h id : forall l,
  (forall p o, In p l -> deref h p = Some o -> getObjectID o <> id) ->
  removeFirst h id l = l.
Proof.
  induction l as [|p l IH]; intros A; cbn [removeFirst]; [reflexivity|].
  rewrite IH by (intros q o I; apply A; now right).
  destruct (deref h p) as [o|] eqn:D; [|reflexivity].
  replace (getObjectID o =? id) with false; [reflexivity|].
  symmetry. apply Z.eqb_neq. eapply A; eauto. now left.
Qed.

(** X15. An object added with [addObject] is found by [objectWithID]
    under its id, and, when the id is below 32768 and every object of
    the view has its id in the objects map, [removeObject] on that id
    undoes the call: every id is bound in the objects map as it was
    before the two calls, the view, the entrances and the colour remaps
    are as before, and the added objects are as before but for the id,
    which they no longer hold. *)
Theorem addObject_removeObject (h : Heap) (a a' : Area) (obj : ptr) (o : Object)
    (D : deref h obj = Some o) (R : 0 <= getObjectID o < 32768)
    (V : viewInMap h a) (A : addObject h a obj = Returned a') :
  objectWithID a' (getObjectID o) = Some obj
  /\ exists a'',
       removeObject h a' (getObjectID o) = Returned a''
       /\ (forall k, objectWithID a'' k = objectWithID a k)
       /\ _drawableObjects a'' = _drawableObjects a
       /\ _entrancesByID a'' = _entrancesByID a
       /\ _colorRemaps a'' = _colorRemaps a
       /\ (forall k, HashMap.lookup k (_addedObjects a'')
                     = if k =? getObjectID o then None
                       else HashMap.lookup k (_addedObjects a)).
Proof.
  unfold addObject in A. rewrite D in A.
  assert (U : to_uint16 (getObjectID o) = getObjectID o)
    by (unfold to_uint16; rewrite Z.mod_small; lia).
  assert (S : to_int16 (getObjectID o) = getObjectID o)
    by (unfold to_int16; Z.div_mod_to_equations; lia).
  rewrite U in A.
  destruct (HashMap.contains (getObjectID o) (_objectsByID a)) eqn:C; [discriminate|].
  injection A as <-. unfold objectWithID, removeObject.
  cbn [set_objects _objectsByID _addedObjects _drawableObjects _areaID _areaFlags
       _scale _entrancesByID _colorRemaps].
  rewrite objectWithIDFromMap_lookup, lookup_assign, Z.eqb_refl.
  split; [reflexivity|].
  rewrite S, U, contains_assign, Z.eqb_refl. cbn [orb negb].
  eexists. split; [reflexivity|].
  cbn [set_objects _objectsByID _addedObjects _drawableObjects _areaID _areaFlags
       _scale _entrancesByID _colorRemaps].
  assert (Vw : removeFirst h (getObjectID o)
                 (if isDrawable o then obj :: _drawableObjects a
                  else _drawableObjects a) = _drawableObjects a).
  { assert (Ab : removeFirst h (getObjectID o) (_drawableObjects a)
                 = _drawableObjects a).
    { apply removeFirst_absent. intros p x I Dp E.
      destruct (V p I) as (x' & Dx & Cx). rewrite Dp in Dx. injection Dx as <-.
      congruence. }
    destruct (isDrawable o); [|exact Ab].
    cbn [removeFirst]. now rewrite D, Z.eqb_refl. }
  rewrite Vw. split; [|split; [reflexivity|split; [reflexivity|split; [reflexivity|]]]].
  - intros k. rewrite !objectWithIDFromMap_lookup, lookup_erase, lookup_assign.
    destruct (Z.eqb_spec k (getObjectID o)) as [E|N]; [|reflexivity].
    unfold HashMap.contains in C. rewrite E.
    destruct (HashMap.lookup (getObjectID o) (_objectsByID a)); [discriminate|reflexivity].
  - intros k. rewrite lookup_erase, lookup_assign.
    destruct (k =? getObjectID o); reflexivity.
Qed.

(** X16. From a freshly built area, a run of [addObject] and
    [removeObject] calls whose removed ids lie below 32768 and that
    passes every assertion keeps the view and the objects map in step:
    each view entry is bound in the map under the id of its object,
    each bound drawable object is in the view, and no pointer is in the
    view twice. *)
Theorem runCalls_keeps_linked (h : Heap) (areaID areaFlags : Z)
    (objectsByID entrancesByID : ObjectMap) (calls : list Call) (a' : Area)
    (Wh : wfHeap h) (W : wfMap h objectsByID)
    (R : forall id, In (CallRemove id) calls -> 0 <= id < 32768)
    (E : runCalls h (newArea h areaID areaFlags objectsByID entrancesByID) calls
         = Returned a') :
  linked h a'.
Proof.
  pose proof (newArea_linked h areaID areaFlags objectsByID entrancesByID W) as L.
  revert L R E. generalize (newArea h areaID areaFlags objectsByID entrancesByID).
  induction calls as [|[obj|id] calls IH]; intros a L R E; cbn [runCalls] in E.
  - now injection E as <-.
  - destruct (addObject h a obj) as [a1|] eqn:A; [|discriminate].
    apply (IH a1); auto.
    + eapply addObject_linked; eauto.
    + intros id I. apply R. now right.
  - destruct (removeObject h a id) as [a1|] eqn:A; [|discriminate].
    apply (IH a1); auto.
    + eapply removeObject_linked; eauto. apply R. now left.
    + intros id' I. apply R. now right.
Qed.

End WithEnv.

(** *** Runs on the sample areas *)
Import Sample Fixture.

(** X15 on [areaLevel]: after adding the cube 2 and removing the id
    2, the id 2 is unbound again and the view is the level's. *)
Lemma addObject_removeObject_witness :
  objectWithID areaAdded 2 = Some 1%nat
  /\ exists a'',
       removeObject heapSaved areaAdded 2 = Returned a''
       /\ objectWithID a'' 2 = None
       /\ objectWithID a'' 1 = Some 0%nat
       /\ _drawableObjects a'' = [0%nat].
Proof.
  assert (V : viewInMap heapSaved areaLevel).
  { intros p I. cbn in I. destruct I as [<-|[]]. eexists. split; reflexivity. }
  assert (R : 0 <= getObjectID (cube 2 0 (vecZ 4 5 6) (vecZ 1 1 1)) < 32768).
  { unfold getObjectID, cube, GeometricObject. cbn [_objectID]. lia. }
  destruct (addObject_removeObject heapSaved areaLevel areaAdded 1%nat
              (cube 2 0 (vecZ 4 5 6) (vecZ 1 1 1)) eq_refl R V eq_refl)
    as (B & a'' & Rm & Same & Vw & _).
  split; [exact B|]. exists a''. split; [exact Rm|].
  split; [exact (Same 2)|]. split; [exact (Same 1) | exact Vw].
Defined.

(** X16 on [areaLevel]: add the cube 2, remove it, add it again. *)
Lemma runCalls_keeps_linked_witness : linked heapSaved areaRun.
Proof.
  assert (Wh : wfHeap heapSaved).
  { intros p o D. destruct p as [|[|[|p]]]; cbn in D; try discriminate;
      injection D as <-; unfold getObjectID, cube, GeometricObject;
      cbn [_objectID]; lia. }
  assert (W : wfMap heapSaved [(1, 0%nat)]).
  { split; [cbn; repeat constructor; cbn; lia|].
    intros k p I. cbn in I. destruct I as [E|[]]. injection E as <- <-.
    split; [lia|]. eexists. split; reflexivity. }
  assert (R : forall id, In (CallRemove id) callsRun -> 0 <= id < 32768).
  { intros id I. cbn in I.
    destruct I as [E|[E|[E|[]]]]; try discriminate. injection E as <-. lia. }
  apply (runCalls_keeps_linked heapSaved 1 0 [(1, 0%nat)] [] callsRun areaRun
           Wh W R).
  vm_compute. reflexivity.
Defined.

(** X13 on [areaSorted]: the cube 7 comes first and the flat object 5
    last. *)
Lemma newArea_sorted_witness :
  exists o1 o2,
    deref heapSorted 2%nat = Some o1 /\ deref heapSorted 0%nat = Some o2
    /\ isDrawable o1 = true /\ isDrawable o2 = true
    /\ (isPlanar o1 = true -> isPlanar o2 = true)
    /\ (isPlanar o1 = isPlanar o2 -> getObjectID o2 <= getObjectID o1).
Proof.
  destruct (newArea_sorted heapSorted 1 0 [(5, 0%nat); (3, 1%nat); (7, 2%nat)] [])
    as (_ & S).
  apply (S 0%nat 2%nat 2%nat 0%nat); [lia | vm_compute; reflexivity..].
Defined.

(** X14 on the fresh level: removing the id 1 unbinds it and empties
    the view. *)
Lemma removeObject_effect_witness :
  objectWithID areaEmptied 1 = None.
Proof.
  destruct (removeObject_effect heapFresh areaFresh 1) as (_ & R).
  destruct (R areaEmptied eq_refl) as (U & _). exact U.
Defined.

End ViewFacts.

(** ** Motion: hidden objects and the zero motion *)
Module MotionFacts.
Import F32 F32Facts Sweep SweepFacts Resolver ResolverFacts Lifecycle.

Local Open Scope f32_scope.

Lemma sub_self x : x - x = zero \/ x - x = S754_nan.
Proof.
  destruct x as [[]|[]| |s m e]; try (left; reflexivity); try (right; reflexivity).
  left. unfold sub, SFsub. rewrite Z.sub_diag. reflexivity.
Qed.

Lemma sub_self_sign x : (x - x >? zero) = false /\ (x - x <? zero) = false.
Proof. destruct (sub_self x) as [-> | ->]; split; reflexivity. Qed.

Lemma eqb_refl_finite x : is_finite x = true -> (x == x) = true.
Proof.
  intros Fi. unfold eqb, SFeqb. rewrite SFcompare_rank.
  destruct x as [s|s| |[] m e]; try discriminate; cbn [rank cmp3];
    rewrite ?Z.compare_refl; reflexivity.
Qed.

(** The position a pass assigns on a zero motion, one coordinate. *)
Lemma still_component x :
  is_finite x = true -> (x + one * (x - x) + epsilon * zero == x) = true.
Proof.
  destruct x as [[]|s| |s m e]; try discriminate; intros _;
    [reflexivity | reflexivity |].
  replace (S754_finite s m e - S754_finite s m e) with zero
    by (unfold sub, SFsub; now rewrite Z.sub_diag).
  change (one * zero) with zero. change (epsilon * zero) with zero.
  change (S754_finite s m e + zero) with (S754_finite s m e).
  now apply eqb_refl_finite.
Qed.

Section WithEnv.
Context `{Env}.

Lemma sweepObjects_shown ds bb direction :
  sweepObjects ds bb direction = sweepObjects (filter shown ds) bb direction.
Proof.
  unfold sweepObjects. generalize (one, vzero).
  induction ds as [|obj ds IH]; intros [distance normal]; cbn [fold_left filter];
    [reflexivity|].
  unfold shown at 1.
  destruct (negb (isDestroyed obj) && negb (isInvisible obj)) eqn:S.
  - cbn [fold_left]. rewrite S. apply IH.
  - apply IH.
Qed.

(** X17. [resolveCollisions] does not see destroyed or invisible
    objects: its outcome on a view is its outcome on the objects of the
    view that are neither, and a view of hidden objects lets every
    motion through in one pass. *)
Theorem resolveCollisions_ignores_hidden (fuel : nat) (ds : list Object)
    (lastPosition newPosition : Vector3d) (playerHeight : Z) :
  resolveCollisions fuel ds lastPosition newPosition playerHeight
  = resolveCollisions fuel (filter shown ds) lastPosition newPosition playerHeight
  /\ ((forall obj, In obj ds -> shown obj = false) ->
      resolveCollisions (S fuel) ds lastPosition newPosition playerHeight
      = Some (Returned
                (vadd (vadd lastPosition
                         (smul one (vsub newPosition lastPosition)))
                   (smul epsilon vzero)))).
Proof.
  split.
  - unfold resolveCollisions. generalize 0%Z newPosition.
    induction fuel as [|fuel IH]; intros i position; cbn [resolveLoop];
      [reflexivity|].
    rewrite sweepObjects_shown.
    destruct (sweepObjects (filter shown ds) _ _) as [distance normal].
    destruct (distance >=? one); [reflexivity|].
    destruct (i + 1 <=? 5)%Z; [apply IH | reflexivity].
  - intros Hid. unfold resolveCollisions. rewrite resolveLoop_step.
    unfold blocked, advance. rewrite sweepObjects_free; [reflexivity|].
    intros obj I D V. pose proof (Hid obj I) as S. unfold shown in S.
    rewrite D, V in S. discriminate.
Qed.

Lemma sweepAABB_still a b direction normal :
  (vx direction >? zero) = false -> (vx direction <? zero) = false ->
  (vy direction >? zero) = false -> (vy direction <? zero) = false ->
  (vz direction >? zero) = false -> (vz direction <? zero) = false ->
  sweepAABB a b direction normal = (one, normal).
Proof.
  intros X1 X2 Y1 Y2 Z1 Z2. rewrite sweepAABB_faces.
  cbv beta iota zeta delta
    [faces fold_left sweepStep fires face face_s face_sign face_in1
     face_in2 face_normal component fst snd].
  rewrite X1, X2, Y1, Y2, Z1, Z2.
  rewrite !andb_false_r. reflexivity.
Qed.

(** X18. A zero motion is never blocked: when the new position is the
    last one, [resolveCollisions] returns after its first pass whatever
    the view holds, even with the player box inside an object; the
    position returned compares equal to the last one in every finite
    coordinate. *)
Theorem resolveCollisions_still (fuel : nat) (ds : list Object)
    (position : Vector3d) (playerHeight : Z) :
  let result :=
    vadd (vadd position (smul one (vsub position position)))
      (smul epsilon vzero) in
  resolveCollisions (S fuel) ds position position playerHeight
  = Some (Returned result)
  /\ (is_finite (vx position) = true -> (vx result == vx position) = true)
  /\ (is_finite (vy position) = true -> (vy result == vy position) = true)
  /\ (is_finite (vz position) = true -> (vz result == vz position) = true).
Proof.
  cbv zeta. split.
  - unfold resolveCollisions. rewrite resolveLoop_step.
    unfold blocked, advance.
    rewrite sweepObjects_free; [reflexivity|].
    intros obj _ _ _. destruct position as [x y z].
    rewrite sweepAABB_still; [reflexivity|..]; cbn [vsub vx vy vz];
      apply sub_self_sign.
  - destruct position as [x y z]. cbn [vadd vsub smul vzero vx vy vz].
    split; [|split]; apply still_component.
Qed.

End WithEnv.
(** *** Runs in the sample environment *)
Import Sample Fixture.

(** X17 on the invisible wall: the motion through it is not stopped. *)
Lemma resolveCollisions_ignores_hidden_witness :
  resolveCollisions 1 [hiddenWall] (vecZ 0 0 0) (vecZ 10 0 0) 1
  = Some (Returned
            (vadd (vadd (vecZ 0 0 0)
                     (smul one (vsub (vecZ 10 0 0) (vecZ 0 0 0))))
               (smul epsilon vzero))).
Proof.
  destruct (resolveCollisions_ignores_hidden 0 [hiddenWall] (vecZ 0 0 0)
              (vecZ 10 0 0) 1) as (_ & R).
  apply R. intros obj I. cbn in I. destruct I as [<-|[]]. reflexivity.
Defined.

(** X18 inside the wall: standing still at (5.5, 0, 0) returns at
    once, at the same place. *)
Lemma resolveCollisions_still_witness :
  exists result,
    resolveCollisions 1 [wall] (vec (of_bits 1085276160) zero zero)
      (vec (of_bits 1085276160) zero zero) 1 = Some (Returned result)
    /\ (vx result == of_bits 1085276160) = true.
Proof.
  destruct (resolveCollisions_still 0 [wall] (vec (of_bits 1085276160) zero zero) 1)
    as (R & X & _).
  eexists. split; [exact R|]. apply X. reflexivity.
Defined.

End MotionFacts.

(** ** The save format and what a load keeps *)
Module PersistenceFacts.
Import Store StoreFacts StoreFacts.HashMapFacts Lifecycle LifecycleFacts
  StructureFacts.

Section WithEnv.
Context `{Env}.

Lemma writeUint32LE_length v : length (writeUint32LE v) = 4%nat.
Proof. reflexivity. Qed.

Lemma encodeObject_length key flags origin :
  length (encodeObject key flags origin) = 20%nat.
Proof. reflexivity. Qed.

Lemma saveObjects_entries_length h : forall m : ObjectMap,
  (forall k p, In (k, p) m -> exists o, deref h p = Some o) ->
  length (flat_map (saveObject h) m) = (20 * length m)%nat.
Proof.
  induction m as [|[k p] m IH]; intros L; cbn [flat_map]; [reflexivity|].
  rewrite length_app, IH by (intros k' p' I; apply (L k' p'); now right).
  unfold saveObject. cbn [snd fst].
  destruct (L k p (or_introl eq_refl)) as (o & ->).
  rewrite encodeObject_length. cbn [length]. lia.
Qed.

Lemma saveRemaps_length : forall m : HashMap.t Z,
  length (flat_map saveRemap m) = (8 * length m)%nat.
Proof.
  induction m as [|e m IH]; cbn [flat_map]; [reflexivity|].
  rewrite length_app, IH. unfold saveRemap. rewrite length_app.
  rewrite !writeUint32LE_length. cbn [length]. lia.
Qed.

(** X19. A save is 8 bytes of counts, 20 bytes for each entry of the
    objects map and 8 bytes for each colour remap; the entrances, the
    view and the added objects leave no trace in it, and its first
    word reads back as the number of objects. *)
Theorem saveObjects_length (h : Heap) (a : Area)
    (L : forall k p, In (k, p) (_objectsByID a) -> exists o, deref h p = Some o) :
  Z.of_nat (length (saveObjects h a))
  = 8 + 20 * HashMap.size (_objectsByID a) + 8 * HashMap.size (_colorRemaps a)
  /\ (forall entrances view added,
        saveObjects h
          (mkArea (_areaID a) (_areaFlags a) (_scale a) (_objectsByID a)
             entrances view added (_colorRemaps a))
        = saveObjects h a)
  /\ exists rest,
       read32 (saveObjects h a)
       = Done (to_uint32 (HashMap.size (_objectsByID a)), rest).
Proof.
  split; [|split].
  - unfold saveObjects, HashMap.size.
    rewrite !length_app, !writeUint32LE_length, saveRemaps_length,
      (saveObjects_entries_length h _ L). lia.
  - reflexivity.
  - unfold saveObjects. eexists. apply read32_write_wrapped.
Qed.

(** What a step of a load keeps of the state it starts from. *)
Local Abbreviation keeps h a h' a' :=
  ((@length Object h <= @length Object h')%nat
   /\ (forall k p, HashMap.lookup k (_objectsByID a) = Some p ->
         HashMap.lookup k (_objectsByID a') = Some p)
   /\ _entrancesByID a' = _entrancesByID a
   /\ exists front, _drawableObjects a' = front ++ _drawableObjects a).

Lemma keeps_refl h a : keeps h a h a.
Proof. repeat split; auto. now exists []. Qed.

Lemma keeps_trans h1 a1 h2 a2 h3 a3 :
  keeps h1 a1 h2 a2 -> keeps h2 a2 h3 a3 -> keeps h1 a1 h3 a3.
Proof.
  intros (L1 & B1 & E1 & (f1 & V1)) (L2 & B2 & E2 & (f2 & V2)).
  split; [lia|]. split; [auto|]. split; [congruence|].
  exists (f2 ++ f1). rewrite V2, V1. now rewrite app_assoc.
Qed.

Lemma addObject_keeps h a obj a' :
  addObject h a obj = Returned a' -> keeps h a h a'.
Proof.
  unfold addObject. destruct (deref h obj) as [o|]; [|discriminate].
  destruct (HashMap.contains (to_uint16 (getObjectID o)) (_objectsByID a)) eqn:C;
    [discriminate|].
  intros [= <-]. cbn [set_objects _objectsByID _entrancesByID _drawableObjects].
  split; [lia|]. split; [|split; [reflexivity|]].
  - intros k p L. rewrite lookup_assign.
    destruct (Z.eqb_spec k (to_uint16 (getObjectID o))) as [->|N]; [|exact L].
    unfold HashMap.contains in C. now rewrite L in C.
  - destruct (isDrawable o); [now exists [obj] | now exists []].
Qed.

Lemma placeObject_keeps global key flags x y z h a h' a' :
  placeObject global key flags x y z h a = Done (h', a') -> keeps h a h' a'.
Proof.
  unfold placeObject.
  destruct (HashMap.contains key (_objectsByID a)).
  - destruct (HashMap.lookup key (_objectsByID a)) as [obj|]; [|discriminate].
    cbn [bind]. destruct (deref h obj) as [o|]; [|discriminate].
    intros [= <- <-]. rewrite store_length.
    destruct (keeps_refl h a) as (_ & R). split; [lia | exact R].
  - destruct (objectWithID global key) as [g|]; [|discriminate].
    destruct (deref h g) as [o|]; [|discriminate]. cbn [alloc].
    destruct (addObject (h ++ [duplicate o]) a (length h)) as [a1|] eqn:A;
      [|discriminate].
    cbn [bind]. destruct (deref (h ++ [duplicate o]) (length h)) as [o1|];
      [|discriminate].
    intros [= <- <-]. apply addObject_keeps in A.
    destruct A as (_ & R). split; [|exact R].
    rewrite store_length, length_app. cbn [length]. lia.
Qed.

Lemma loadObjectsLoop_keeps global : forall n stream h a stream' h' a',
  loadObjectsLoop n global stream h a = Done (stream', h', a') ->
  keeps h a h' a'.
Proof.
  induction n as [|n IH]; intros stream h a stream' h' a'; cbn [loadObjectsLoop].
  - intros [= _ <- <-]. apply keeps_refl.
  - unfold loadObject.
    destruct (read32 stream) as [[key s1]| |]; cbn [bind]; try discriminate.
    destruct (read32 s1) as [[flags s2]| |]; cbn [bind]; try discriminate.
    destruct (readF s2) as [[x s3]| |]; cbn [bind]; try discriminate.
    destruct (readF s3) as [[y s4]| |]; cbn [bind]; try discriminate.
    destruct (readF s4) as [[z s5]| |]; cbn [bind]; try discriminate.
    destruct (placeObject global (to_uint16 key) flags x y z h a)
      as [[h1 a1]| |] eqn:P; cbn [bind]; try discriminate.
    intros L. apply placeObject_keeps in P. apply IH in L.
    eapply keeps_trans; eauto.
Qed.

Lemma loadRemapsLoop_objects : forall n stream a stream' a',
  loadRemapsLoop n stream a = Done (stream', a') ->
  _objectsByID a' = _objectsByID a /\ _entrancesByID a' = _entrancesByID a
  /\ _drawableObjects a' = _drawableObjects a.
Proof.
  induction n as [|n IH]; intros stream a stream' a'; cbn [loadRemapsLoop].
  - intros [= _ <-]. auto.
  - destruct (read32 stream) as [[src s1]| |]; cbn [bind]; try discriminate.
    destruct (read32 s1) as [[dst s2]| |]; cbn [bind]; try discriminate.
    intros L. apply IH in L. exact L.
Qed.

(** X20. A load never takes an object away: whatever the stream holds,
    when [loadObjects] returns, every id bound in the objects map
    before the load is bound to the same object after it, the
    entrances are the same, no object was freed and the entries of the
    view are all still there, behind the new ones. Objects that the
    saved session had removed stay. *)
Theorem loadObjects_never_removes (stream : list byte) (global : Area)
    (h : Heap) (a : Area) (h' : Heap) (a' : Area)
    (E : loadObjects stream global h a = Done (h', a')) :
  (length h <= length h')%nat
  /\ (forall k p, objectWithID a k = Some p -> objectWithID a' k = Some p)
  /\ _entrancesByID a' = _entrancesByID a
  /\ exists front, _drawableObjects a' = front ++ _drawableObjects a.
Proof.
  unfold loadObjects in E.
  destruct (read32 stream) as [[n s1]| |]; cbn [bind] in E; try discriminate.
  destruct (loadObjectsLoop (Z.to_nat (to_int32 n)) global s1 h a)
    as [[[s2 h1] a1]| |] eqn:L; cbn [bind] in E; try discriminate.
  destruct (read32 s2) as [[c s3]| |]; cbn [bind] in E; try discriminate.
  destruct (loadRemapsLoop (Z.to_nat (to_int32 c)) s3 _)
    as [[s4 a2]| |] eqn:R; cbn [bind] in E; try discriminate.
  injection E as <- <-.
  apply loadObjectsLoop_keeps in L. apply loadRemapsLoop_objects in R.
  cbn [set_colorRemaps _objectsByID _entrancesByID _drawableObjects] in R.
  destruct R as (RO & RE & RV). destruct L as (Lh & B & Ee & V).
  unfold objectWithID. rewrite RO, RE, RV.
  split; [exact Lh|]. split; [|split; [exact Ee | exact V]].
  intros k p. rewrite !objectWithIDFromMap_lookup. apply B.
Qed.

End WithEnv.

(** *** Runs on the sample areas *)
Import Sample Fixture.

(** X19 on [areaSaved]: two objects and one remap make 56 bytes. *)
Lemma saveObjects_length_witness :
  Z.of_nat (length (saveObjects heapSaved areaSaved)) = 56.
Proof.
  assert (L : forall k p, In (k, p) (_objectsByID areaSaved) ->
            exists o, deref heapSaved p = Some o).
  { intros k p I. vm_compute in I.
    destruct I as [E|[E|[]]]; injection E as <- <-; eexists; reflexivity. }
  destruct (saveObjects_length heapSaved areaSaved L) as (E & _). exact E.
Defined.

(** X20 on the sample session: the load duplicates the cube 2 from the
    global area, and the id 1 still leads to the level's own cube. *)
Lemma loadObjects_never_removes_witness :
  objectWithID (snd loadedSaved) 1 = Some 0%nat
  /\ (length heapFresh <= length (fst loadedSaved))%nat.
Proof.
  assert (E : loadObjects (saveObjects heapSaved areaSaved) areaGlobal
                heapFresh areaFresh = Done (fst loadedSaved, snd loadedSaved)).
  { vm_compute. reflexivity. }
  destruct (loadObjects_never_removes _ _ _ _ _ _ E) as (Lh & B & _).
  split; [apply B; reflexivity | exact Lh].
Defined.

End PersistenceFacts.
